(** * Phillies MLB statistics calculator: a shallow embedding of [main.py]

    The first part embeds the program: the Python builtins it relies on
    ([str], [int], [str.replace], [str.join], [list.insert], [list.pop],
    format specifications, the [re] pattern), then [display_salary],
    [SALARY_RE], [Player], [extract_player], [insert_in_limited_array],
    [average], [crawl_page] and [App.crawl_players]. The second part
    states and proves the properties of the pipeline.

    Conventions.
    - Python [int] is [Z]; Python [str] is [text], a list of Unicode
      code points. The decimal digits, which the pattern class [\d]
      matches and [int] reads, are those of Unicode 14.0, the table of
      CPython 3.11: 66 runs of ten code points, ['0'..'9'] the first.
    - [int] of a [str] refuses more than 4300 digits, the default of
      [sys.get_int_max_str_digits()].
    - Python [float] is [float], a double given by sign, mantissa and
      exponent; [/] on two [int] rounds the exact quotient to the
      nearest double, ties to even, or raises [OverflowError].
    - A call that may raise returns a [result]; [Raise e] names the
      exception class.
    - The [while] loop of [display_salary] is the only unbounded loop; it
      is modelled with fuel, and [None] means the fuel ran out.
    - The tkinter window, the worker thread and the HTTP transport are
      outside the embedding; a run starts from the outcome of
      [requests.get]. *)

From Stdlib Require Import String Ascii.
From Stdlib Require Import ZArith List Bool Arith Lia Lqa QArith Qabs Qpower
  Sorted Permutation.
Import ListNotations.

Local Open Scope Z_scope.

(* ================================================================= *)
(** ** Exceptions and the error monad *)

Inductive exn : Type :=
| IndexError
| TypeError
| ValueError
| ZeroDivisionError
| OverflowError
| AttributeError
| RequestException   (* requests.get failed before any response *)
| Exception.         (* the bare [Exception] raised by [crawl_page] *)

Inductive result (A : Type) : Type :=
| Ok (a : A)
| Raise (e : exn).

Arguments Ok {A} a.
Arguments Raise {A} e.

Definition bind {A B : Type} (r : result A) (k : A -> result B) : result B :=
  match r with
  | Ok a => k a
  | Raise e => Raise e
  end.

Notation "x <- r ;; k" := (bind r (fun x => k))
  (at level 61, r at next level, right associativity).

(* ================================================================= *)
(** ** Floats *)

(** A finite Python [float], an IEEE 754 double: a signed zero, or
    [mantissa * 2 ^ exponent] with its sign, where the mantissa is below
    [2 ^ 53] and the exponent is between -1074 and 971. Infinities and
    NaN do not occur in the program: the one float operation it has
    raises instead. *)
Inductive float : Type :=
| FloatZero (negative : bool)
| FloatFinite (negative : bool) (mantissa : positive) (exponent : Z).

(** The rational number a float stands for. *)
Definition float_value (f : float) : Q :=
  match f with
  | FloatZero _ => 0%Q
  | FloatFinite negative m e =>
      ((if negative then -1 else 1) * inject_Z (Zpos m) * Qpower 2 e)%Q
  end.

(** A double: a zero, or a mantissa below [2 ^ 53] with an exponent
    from -1074 to 971, the mantissa at least [2 ^ 52] unless the
    exponent is the least one. *)
Definition is_double (f : float) : Prop :=
  match f with
  | FloatZero _ => True
  | FloatFinite _ m e =>
      Zpos m < 2 ^ 53 /\ -1074 <= e <= 971 /\ (2 ^ 52 <= Zpos m \/ e = -1074)
  end.

(** Half a unit in the last place of a double: half the distance to the
    next double of the same exponent. *)
Definition half_ulp (f : float) : Q :=
  match f with
  | FloatZero _ => Qpower 2 (-1075)
  | FloatFinite _ _ e => Qpower 2 (e - 1)
  end.

(* ================================================================= *)
(** ** Text *)

(** A character is its Unicode code point. *)
Definition codepoint : Type := N.

Definition text : Type := list codepoint.

Definition ord (a : ascii) : codepoint := N_of_ascii a.

(** Literals are written as Rocq strings and unpacked. *)
Definition txt (s : string) : text := map ord (list_ascii_of_string s).

Definition chr_dollar : codepoint := ord "$"%char.
Definition chr_comma : codepoint := ord ","%char.
Definition chr_space : codepoint := ord " "%char.
Definition chr_newline : codepoint := 10%N.
Definition chr_minus : codepoint := ord "-"%char.
Definition chr_plus : codepoint := ord "+"%char.
Definition chr_underscore : codepoint := ord "_"%char.
Definition chr_zero : codepoint := ord "0"%char.

(** The ten ASCII digits. *)
Definition is_digit (c : codepoint) : bool :=
  ((48 <=? c) && (c <=? 57))%N.

Definition digit_val (c : codepoint) : Z := Z.of_N c - 48.

Definition digit_char (d : Z) : codepoint := Z.to_N (48 + d).

(** The value of a string read as a decimal numeral, most significant
    digit first. *)
Definition decimal_value (s : text) : Z :=
  fold_left (fun acc c => acc * 10 + digit_val c) s 0.

(** The decimal digits of Unicode 14.0, the character database of
    CPython 3.11: they come in runs of ten, values 0 to 9 in order, and
    the table lists the code point of the zero of each run. These are
    the characters that the pattern class [\d] matches in a [str]
    pattern and that [int] reads as digits. *)
Definition unicode_decimal_zeros : list codepoint :=
  [48; 1632; 1776; 1984; 2406; 2534; 2662; 2790; 2918; 3046; 3174;
   3302; 3430; 3558; 3664; 3792; 3872; 4160; 4240; 6112; 6160; 6470;
   6608; 6784; 6800; 6992; 7088; 7232; 7248; 42528; 43216; 43264;
   43472; 43504; 43600; 44016; 65296; 66720; 68912; 69734; 69872;
   69942; 70096; 70384; 70736; 70864; 71248; 71360; 71472; 71904;
   72016; 72784; 73040; 73120; 92768; 92864; 93008; 120782; 120792;
   120802; 120812; 120822; 123200; 123632; 125264; 130032]%N.

(** [unicodedata.decimal(chr(c), None)]. *)
Definition to_decimal (c : codepoint) : option Z :=
  match find (fun z => (z <=? c) && (c <=? z + 9))%N unicode_decimal_zeros with
  | Some z => Some (Z.of_N (c - z))
  | None => None
  end.

Definition is_decimal (c : codepoint) : bool :=
  match to_decimal c with
  | Some _ => true
  | None => false
  end.

(** The value of a string of decimal digits of any script. *)
Definition decimal_number (s : text) : Z :=
  fold_left (fun acc c => acc * 10 + match to_decimal c with
                                     | Some d => d
                                     | None => 0
                                     end) s 0.

(** The characters that [int] drops around a numeral: the ASCII
    whitespace and the Unicode whitespace above it. *)
Definition whitespace_points : list codepoint :=
  [9; 10; 11; 12; 13; 32; 133; 160; 5760;
   8192; 8193; 8194; 8195; 8196; 8197; 8198; 8199; 8200; 8201; 8202;
   8232; 8233; 8239; 8287; 12288]%N.

Definition is_space (c : codepoint) : bool :=
  existsb (N.eqb c) whitespace_points.

Module Py.

(** [str(n)] for an [int] of at most [int_max_str_digits] digits; the
    program calls it on groups below 1000 only. *)
Fixpoint str_loop (fuel : nat) (n : Z) (acc : text) : text :=
  match fuel with
  | O => acc
  | S fuel' =>
      let acc' := digit_char (n mod 10) :: acc in
      if n / 10 =? 0 then acc' else str_loop fuel' (n / 10) acc'
  end.

Definition str_nonneg (n : Z) : text :=
  str_loop (S (Z.to_nat (Z.log2 n))) n [].

Definition str (n : Z) : text :=
  if n <? 0 then chr_minus :: str_nonneg (- n) else str_nonneg n.

(** ['{:03d}'.format(x)]: width 3, zero fill, the sign counted in the
    width. *)
Definition format_03d (x : Z) : text :=
  let body := str_nonneg (Z.abs x) in
  let sign := if x <? 0 then [chr_minus] else [] in
  sign ++ repeat chr_zero (3 - length sign - length body) ++ body.

(** [sep.join(parts)]. *)
Fixpoint join (sep : text) (parts : list text) : text :=
  match parts with
  | [] => []
  | [p] => p
  | p :: rest => p ++ sep ++ join sep rest
  end.

(** [s.replace(c, '')] for a one-character [c]. *)
Definition replace_with_empty (c : codepoint) (s : text) : text :=
  filter (fun x => negb (N.eqb x c)) s.

Fixpoint lstrip (s : text) : text :=
  match s with
  | [] => []
  | c :: r => if is_space c then lstrip r else s
  end.

Fixpoint rstrip (s : text) : text :=
  match s with
  | [] => []
  | c :: r =>
      match rstrip r with
      | [] => if is_space c then [] else [c]
      | r' => c :: r'
      end
  end.

(** The digits of an [int] literal: at least one digit of any script,
    single underscores allowed between digits. *)
Fixpoint parse_digits (s : text) (acc : Z) (after_digit : bool) : option Z :=
  match s with
  | [] => if after_digit then Some acc else None
  | c :: r =>
      match to_decimal c with
      | Some d => parse_digits r (acc * 10 + d) true
      | None =>
          if N.eqb c chr_underscore && after_digit
          then parse_digits r acc false
          else None
      end
  end.

(** An optional sign in front of the digits. *)
Definition split_sign (t : text) : Z * text :=
  match t with
  | c :: r =>
      if N.eqb c chr_minus then (-1, r)
      else if N.eqb c chr_plus then (1, r)
      else (1, t)
  | [] => (1, t)
  end.

(** [sys.get_int_max_str_digits()], at its default. *)
Definition int_max_str_digits : nat := 4300.

(** [int(s)] for a [str] in base 10: surrounding whitespace is
    dropped, one sign is allowed, and a numeral of more than
    [int_max_str_digits] digits (underscores and sign not counted) is
    refused. Every failure is a [ValueError]. *)
Definition int (s : text) : result Z :=
  let t := rstrip (lstrip s) in
  let body := snd (split_sign t) in
  match parse_digits body 0 false with
  | Some v =>
      if (int_max_str_digits <? length (filter is_decimal body))%nat
      then Raise ValueError
      else Ok (fst (split_sign t) * v)
  | None => Raise ValueError
  end.

(** The least [x] that rounds to [2 ^ 1024]: half a unit in the last
    place above the largest double. *)
Definition overflow_threshold : Z := 2 ^ 1024 - 2 ^ 970.

(** [floor (log2 (n / d))] for positive [n] and [d]. *)
Definition floor_log2_quot (n d : Z) : Z :=
  let k := Z.log2 n - Z.log2 d in
  if d * 2 ^ Z.max 0 k <=? n * 2 ^ Z.max 0 (- k) then k else k - 1.

(** The integer nearest to [num / den], the even one on a tie. *)
Definition round_half_even (num den : Z) : Z :=
  let q := num / den in
  let r := num mod den in
  if 2 * r <? den then q
  else if den <? 2 * r then q + 1
  else if Z.even q then q else q + 1.

(** [a / b] on two [int]: the double nearest to the exact quotient, ties
    to even; [ZeroDivisionError] at [b = 0], [OverflowError] when the
    quotient rounds beyond the largest double. *)
Definition true_divide (a b : Z) : result float :=
  if b =? 0 then Raise ZeroDivisionError
  else
    let negative := xorb (a <? 0) (b <? 0) in
    let n := Z.abs a in
    let d := Z.abs b in
    if overflow_threshold * d <=? n then Raise OverflowError
    else if n =? 0 then Ok (FloatZero negative)
    else
      let e := Z.max (-1074) (floor_log2_quot n d - 52) in
      match round_half_even (n * 2 ^ Z.max 0 (- e)) (d * 2 ^ Z.max 0 e) with
      | Zpos m =>
          if Zpos m =? 2 ^ 53
          then Ok (FloatFinite negative (2 ^ 52)%positive (e + 1))
          else Ok (FloatFinite negative m e)
      | _ => Ok (FloatZero negative)
      end.

(** [array.insert(i, x)]: before index [i], at the end when [i] is
    past it. *)
Fixpoint list_insert {A : Type} (i : nat) (x : A) (l : list A) : list A :=
  match i, l with
  | O, _ => x :: l
  | S _, [] => [x]
  | S i', y :: l' => y :: list_insert i' x l'
  end.

(** [array.pop()] as a statement: the last element goes; an empty list
    raises. *)
Definition list_pop {A : Type} (l : list A) : result (list A) :=
  match l with
  | [] => Raise IndexError
  | _ :: _ => Ok (removelast l)
  end.

(** [a < b] on two [str]: lexicographic on code points. *)
Fixpoint text_ltb (a b : text) : bool :=
  match a, b with
  | _, [] => false
  | [], _ :: _ => true
  | x :: a', y :: b' =>
      if (x <? y)%N then true
      else if (y <? x)%N then false
      else text_ltb a' b'
  end.

End Py.

(* ================================================================= *)
(** ** [display_salary] *)

(** The [while n:] loop: one unit of fuel per test of [n]. *)
Fixpoint display_salary_loop (fuel : nat) (n : Z) (buffer : list Z)
  : option (list Z) :=
  match fuel with
  | O => None
  | S fuel' =>
      if n =? 0 then Some buffer
      else display_salary_loop fuel' (n / 1000) (buffer ++ [n mod 1000])
  end.

(** [display_salary(salary)] at an [int]. [buffer[0]] on the empty buffer
    is the [IndexError]. *)
Definition display_salary (fuel : nat) (salary : Z) : option (result text) :=
  match display_salary_loop fuel salary [] with
  | None => None
  | Some buffer =>
      Some
        match rev buffer with
        | [] => Raise IndexError
        | b0 :: rest =>
            Ok (chr_dollar :: Py.join [chr_comma]
                                (Py.str b0 :: map Py.format_03d rest))
        end
  end.

(* ================================================================= *)
(** ** The pattern [SALARY_RE] *)

(** Regular expressions over characters, with the one class the pattern
    uses. *)
Inductive regex : Type :=
| Void
| Eps
| Lit (c : codepoint)
| Digit
| Cat (r1 r2 : regex)
| Alt (r1 r2 : regex)
| Star (r : regex).

(** [r?] and [r+]. *)
Definition Opt (r : regex) : regex := Alt r Eps.
Definition Plus (r : regex) : regex := Cat r (Star r).

Fixpoint nullable (r : regex) : bool :=
  match r with
  | Void => false
  | Eps => true
  | Lit _ => false
  | Digit => false
  | Cat r1 r2 => nullable r1 && nullable r2
  | Alt r1 r2 => nullable r1 || nullable r2
  | Star _ => true
  end.

Fixpoint regex_eqb (r s : regex) : bool :=
  match r, s with
  | Void, Void => true
  | Eps, Eps => true
  | Lit a, Lit b => N.eqb a b
  | Digit, Digit => true
  | Cat r1 r2, Cat s1 s2 => regex_eqb r1 s1 && regex_eqb r2 s2
  | Alt r1 r2, Alt s1 s2 => regex_eqb r1 s1 && regex_eqb r2 s2
  | Star r1, Star s1 => regex_eqb r1 s1
  | _, _ => false
  end.

(** [Cat] and [Alt] without the parts that match nothing and without an
    alternative written twice, so that derivatives stay small. *)
Definition cat (r1 r2 : regex) : regex :=
  match r1 with
  | Void => Void
  | Eps => r2
  | _ => Cat r1 r2
  end.

Definition alt (r1 r2 : regex) : regex :=
  match r1, r2 with
  | Void, _ => r2
  | _, Void => r1
  | _, _ => if regex_eqb r1 r2 then r1 else Alt r1 r2
  end.

(** The derivative of [r] by [c]: what may follow [c] in a match of
    [r]. *)
Fixpoint der (c : codepoint) (r : regex) : regex :=
  match r with
  | Void => Void
  | Eps => Void
  | Lit c' => if N.eqb c c' then Eps else Void
  | Digit => if is_decimal c then Eps else Void
  | Cat r1 r2 =>
      if nullable r1 then alt (cat (der c r1) r2) (der c r2)
      else cat (der c r1) r2
  | Alt r1 r2 => alt (der c r1) (der c r2)
  | Star r1 => cat (der c r1) (Star r1)
  end.

(** Whole-string matching. *)
Definition accepts (r : regex) (s : text) : bool :=
  nullable (fold_left (fun r' c => der c r') s r).

(** [re.compile("^" + r + "$").search(s)] is a match object or [None];
    the boolean is its truth value. Without [re.MULTILINE], [^] holds at
    index 0 only, and [$] holds at the end of [s] and also just before a
    newline that is the last character of [s]. *)
Definition anchored_search (r : regex) (s : text) : bool :=
  accepts r s
  || match rev s with
     | c :: before => N.eqb c chr_newline && accepts r (rev before)
     | [] => false
     end.

(** The body of [r"^\$*\d+(\,?\d+)*$"] between the anchors. *)
Definition SALARY_RE_body : regex :=
  Cat (Star (Lit chr_dollar))
      (Cat (Plus Digit)
           (Star (Cat (Opt (Lit chr_comma)) (Plus Digit)))).

Definition SALARY_RE_search (s : text) : bool :=
  anchored_search SALARY_RE_body s.

(* ================================================================= *)
(** ** [Player] and the extraction of records *)

(** [Union[int, str]]. *)
Inductive Salary : Type :=
| SalaryInt (n : Z)
| SalaryStr (s : text).

Record Player : Type := mkPlayer {
  name : text;
  salary : Salary;
  year : text;
  level : text
}.

(** [isinstance(p.salary, int)]. *)
Definition isinstance_int (v : Salary) : bool :=
  match v with
  | SalaryInt _ => true
  | SalaryStr _ => false
  end.

(** A [tr] element, as [extract_player] sees it: for each of the four
    selectors [td.player-...], the text of the selected cell, or [None]
    when [select_one] finds no such cell. *)
Record Row : Type := mkRow {
  td_name : option text;
  td_salary : option text;
  td_year : option text;
  td_level : option text
}.

(** [e.text]: an [AttributeError] on [None]. *)
Definition element_text (e : option text) : result text :=
  match e with
  | Some t => Ok t
  | None => Raise AttributeError
  end.

(** Lines 65 to 69 of [extract_player]: the salary field of the record
    built from the salary text. *)
Definition extract_salary (salary_text : text) : result Salary :=
  if SALARY_RE_search salary_text then
    n <- Py.int (Py.replace_with_empty chr_space
                   (Py.replace_with_empty chr_comma
                      (Py.replace_with_empty chr_dollar salary_text))) ;;
    Ok (SalaryInt n)
  else Ok (SalaryStr (txt "No data found")).

Definition extract_player (tr : Row) : result Player :=
  name <- element_text (td_name tr) ;;
  salary_text <- element_text (td_salary tr) ;;
  year <- element_text (td_year tr) ;;
  level <- element_text (td_level tr) ;;
  salary <- extract_salary salary_text ;;
  Ok (mkPlayer name salary year level).

(** [extract_players], from the rows that [soup.select('tbody tr')]
    returns. *)
Fixpoint extract_players_rows (rows : list Row) : result (list Player) :=
  match rows with
  | [] => Ok []
  | row :: rest =>
      p <- extract_player row ;;
      ps <- extract_players_rows rest ;;
      Ok (p :: ps)
  end.

(** [Player.__str__]: the four labelled lines, the salary through
    [display_salary] when it is an [int]. *)
Definition Player_str (fuel : nat) (self : Player) : option (result text) :=
  let render (shown : text) : text :=
    txt "Name: " ++ name self ++ chr_newline
    :: txt "Salary: " ++ shown ++ chr_newline
    :: txt "Year: " ++ year self ++ chr_newline
    :: txt "Level: " ++ level self ++ [chr_newline] in
  match salary self with
  | SalaryInt n =>
      match display_salary fuel n with
      | None => None
      | Some r => Some (shown <- r ;; Ok (render shown))
      end
  | SalaryStr s => Some (Ok (render s))
  end.

(* ================================================================= *)
(** ** [insert_in_limited_array] *)

(** The [for i in range(len(array))] loop from index [i], with
    [remaining] indices left. The comparison [gt] may raise, as a Python
    callable may. Falling off the end leaves the array as it is. *)
Fixpoint insert_loop {A : Type} (value : A) (gt : A -> A -> result bool)
         (array : list (option A)) (i remaining : nat)
  : result (list (option A)) :=
  match remaining with
  | O => Ok array
  | S remaining' =>
      match nth_error array i with
      | None => Raise IndexError
      | Some item =>
          hit <- match item with
                 | None => Ok true
                 | Some occupant => gt value occupant
                 end ;;
          if hit then Py.list_pop (Py.list_insert i (Some value) array)
          else insert_loop value gt array (S i) remaining'
      end
  end.

Definition insert_in_limited_array {A : Type} (value : A)
           (gt : A -> A -> result bool) (array : list (option A))
  : result (list (option A)) :=
  insert_loop value gt array 0 (length array).

(** The index at which the loop's test first holds, if any: the same
    scan, reporting the index instead of updating the array. *)
Fixpoint first_hit_from {A : Type} (value : A) (gt : A -> A -> result bool)
         (array : list (option A)) (i remaining : nat)
  : result (option nat) :=
  match remaining with
  | O => Ok None
  | S remaining' =>
      match nth_error array i with
      | None => Raise IndexError
      | Some item =>
          hit <- match item with
                 | None => Ok true
                 | Some occupant => gt value occupant
                 end ;;
          if hit then Ok (Some i)
          else first_hit_from value gt array (S i) remaining'
      end
  end.

Definition first_hit {A : Type} (value : A) (gt : A -> A -> result bool)
           (array : list (option A)) : result (option nat) :=
  first_hit_from value gt array 0 (length array).

(* ================================================================= *)
(** ** [average] *)

(** [total += v] with [total] an [int]. *)
Definition add_to_total (total : Z) (v : Salary) : result Z :=
  match v with
  | SalaryInt n => Ok (total + n)
  | SalaryStr _ => Raise TypeError
  end.

(** The [for x in array] loop of [average], from the running [total]. *)
Fixpoint average_total {A : Type} (array : list (option A))
         (get_value : A -> Salary) (total : Z) : result Z :=
  match array with
  | [] => Ok total
  | None :: rest => average_total rest get_value total
  | Some x :: rest =>
      total' <- add_to_total total (get_value x) ;;
      average_total rest get_value total'
  end.

(** [average(array, get_value)]; [total / length] is Python's true
    division of two [int]. *)
Definition average {A : Type} (array : list (option A))
           (get_value : A -> Salary) : result float :=
  let length := Z.of_nat (length array) in
  total <- average_total array get_value 0 ;;
  Py.true_divide total length.

(* ================================================================= *)
(** ** [crawl_page] and [App.crawl_players] *)

(** What [requests.get(PAGE_URL)] hands back. *)
Record Response : Type := mkResponse {
  status_code : Z;
  response_text : text
}.

(** [lambda a, b: a.salary > b.salary]. Two [int]s compare as numbers,
    two [str]s as strings, and a mixed pair is a [TypeError]. *)
Definition salary_gt (a b : Player) : result bool :=
  match salary a, salary b with
  | SalaryInt x, SalaryInt y => Ok (x >? y)
  | SalaryStr x, SalaryStr y => Ok (Py.text_ltb y x)
  | _, _ => Raise TypeError
  end.

(** The fields of [App] that [crawl_players] assigns. *)
Record App : Type := mkApp {
  players : list Player;
  avg : float;
  n_of_corrupted_salaries : Z;
  highest_salaries_125 : list (option Player)
}.

(** [[None]*125]. *)
Definition empty_125 : list (option Player) := repeat None 125.

(** One turn of the [for p in players] loop on the two locals
    [highest_salaries_125] and [n_of_corrupted_salaries]. *)
Definition crawl_players_step (st : list (option Player) * Z) (p : Player)
  : result (list (option Player) * Z) :=
  let '(highest, n_corrupted) := st in
  if isinstance_int (salary p) then
    highest' <- insert_in_limited_array p salary_gt highest ;;
    Ok (highest', n_corrupted)
  else Ok (highest, n_corrupted + 1).

Fixpoint crawl_players_loop (ps : list Player)
         (st : list (option Player) * Z)
  : result (list (option Player) * Z) :=
  match ps with
  | [] => Ok st
  | p :: rest =>
      st' <- crawl_players_step st p ;;
      crawl_players_loop rest st'
  end.

Section Crawl.

(** The HTML side of BeautifulSoup is taken as given: the parsed
    document, the parser, and the rows [select('tbody tr')] finds. *)
Variable BeautifulSoup : Type.
Variable html_parser : text -> BeautifulSoup.
Variable select_tbody_tr : BeautifulSoup -> list Row.

(** [crawl_page()], given the outcome of [requests.get(PAGE_URL)]. *)
Definition crawl_page (get : result Response) : result BeautifulSoup :=
  page <- get ;;
  if negb (status_code page =? 200) then Raise Exception
  else Ok (html_parser (response_text page)).

Definition extract_players (soup : BeautifulSoup) : result (list Player) :=
  extract_players_rows (select_tbody_tr soup).

(** [App.crawl_players(self)]: the new [self] on a normal return. An
    exception leaves [self] as it was. *)
Definition crawl_players (self : App) (get : result Response)
  : result App :=
  page <- crawl_page get ;;
  players <- extract_players page ;;
  st <- crawl_players_loop players (empty_125, 0) ;;
  let '(highest_salaries_125, n_of_corrupted_salaries) := st in
  avg <- average highest_salaries_125 salary ;;
  Ok (mkApp players avg n_of_corrupted_salaries highest_salaries_125).

End Crawl.

Arguments crawl_page {BeautifulSoup} html_parser get.
Arguments extract_players {BeautifulSoup} select_tbody_tr soup.
Arguments crawl_players {BeautifulSoup} html_parser select_tbody_tr self get.

(** [N_FIRST_N_HIGHEST_EARNERS]. *)
Definition N_FIRST_N_HIGHEST_EARNERS : nat := 3.

(** [App.top_highest_salaries(self)]: the slice
    [self.highest_salaries_125[:N_FIRST_N_HIGHEST_EARNERS]]. *)
Definition top_highest_salaries (self : App) : list (option Player) :=
  firstn N_FIRST_N_HIGHEST_EARNERS (highest_salaries_125 self).

(* ================================================================= *)
(** ** Vocabulary of the statements *)

(** A fuelled run returns [v]: every large enough fuel gives [v]. *)
Definition returns {A : Type} (run : nat -> option A) (v : A) : Prop :=
  exists fuel0, forall fuel, (fuel0 <= fuel)%nat -> run fuel = Some v.

(** A fuelled run never finishes. *)
Definition diverges {A : Type} (run : nat -> option A) : Prop :=
  forall fuel, run fuel = None.

(** The integer that a list of base-1000 groups denotes, leading group
    first. *)
Definition groups_value (gs : list Z) : Z :=
  fold_left (fun acc g => acc * 1000 + g) gs 0.

Definition all_digits (s : text) : bool := forallb is_digit s.

(** [s] is the decimal numeral of [g] without padding: digits only, no
    leading zero. *)
Definition unpadded (s : text) (g : Z) : bool :=
  all_digits s && (decimal_value s =? g)
  && match s with
     | c :: _ => negb (N.eqb c chr_zero)
     | [] => false
     end.

(** [s] is [g] written on exactly three digits, zeros on the left. *)
Definition padded3 (s : text) (g : Z) : bool :=
  (length s =? 3)%nat && all_digits s && (decimal_value s =? g).

(** The shape of a formatted amount: [$], the leading group, then each
    further group behind a comma. *)
Definition currency_text (lead : text) (groups : list text) : text :=
  chr_dollar :: lead ++ concat (map (fun g => chr_comma :: g) groups).

(** The amount of a record whose salary is an [int]. *)
Definition amount (p : Player) : Z :=
  match salary p with
  | SalaryInt n => n
  | SalaryStr _ => 0
  end.

(** A record with a valid salary, and one with a corrupted salary. *)
Definition valid (p : Player) : Prop := isinstance_int (salary p) = true.
Definition corrupted (p : Player) : Prop := isinstance_int (salary p) = false.

(** The ranked-set invariant: the occupants, all valid and in descending
    order of amount, fill the front; the empty slots are the tail. *)
Definition RankedSet (array : list (option Player)) : Prop :=
  exists (occupants : list Player) (k : nat),
    array = map Some occupants ++ repeat None k
    /\ Forall valid occupants
    /\ StronglySorted (fun a b => amount b <= amount a) occupants.

(** Every slot is occupied, by a record of amount at least [a]. *)
Definition full_at_least (a : Z) (array : list (option Player)) : Prop :=
  Forall (fun slot => exists o, slot = Some o /\ a <= amount o) array.

Definition occupants_count (array : list (option Player)) : nat :=
  length (filter (fun slot => match slot with Some _ => true | None => false end)
            array).

(** The sum of the amounts held in the slots. *)
Definition sum_amounts (array : list (option Player)) : Z :=
  fold_right (fun slot acc =>
                match slot with Some p => amount p + acc | None => acc end)
             0 array.

(** The insertion of [value] at index [i] followed by the removal of the
    last element, on lists. *)
Definition inserted_at {A : Type} (i : nat) (value : A)
           (array : list (option A)) : list (option A) :=
  removelast (Py.list_insert i (Some value) array).

(** How many records of a list have a corrupted salary. *)
Definition corrupted_count (ps : list Player) : Z :=
  Z.of_nat (length (filter (fun p => negb (isinstance_int (salary p))) ps)).

(** A record with the given salary and empty text fields, for concrete
    runs. *)
Definition player_with (v : Salary) : Player := mkPlayer [] v [] [].

(** One valid record, of salary [10 ^ 400], in an otherwise empty
    set. *)
Definition one_huge_salary : list (option Player) :=
  Some (player_with (SalaryInt (10 ^ 400))) :: repeat None 124.

(** Three valid records in the top slots of an otherwise empty set. *)
Definition three_occupants : list (option Player) :=
  Some (player_with (SalaryInt 300))
  :: Some (player_with (SalaryInt 200))
  :: Some (player_with (SalaryInt 100))
  :: repeat None 122.

(** The language of a regular expression. *)
Inductive matches : regex -> text -> Prop :=
| MEps : matches Eps []
| MLit (c : codepoint) : matches (Lit c) [c]
| MDigit (c : codepoint) : is_decimal c = true -> matches Digit [c]
| MCat (r1 r2 : regex) (s1 s2 : text) :
    matches r1 s1 -> matches r2 s2 -> matches (Cat r1 r2) (s1 ++ s2)
| MAltL (r1 r2 : regex) (s : text) : matches r1 s -> matches (Alt r1 r2) s
| MAltR (r1 r2 : regex) (s : text) : matches r2 s -> matches (Alt r1 r2) s
| MStarNil (r : regex) : matches (Star r) []
| MStarApp (r : regex) (s1 s2 : text) :
    matches r s1 -> matches (Star r) s2 -> matches (Star r) (s1 ++ s2).

(** One or more digits. *)
Definition digits1 (d : text) : Prop :=
  d <> [] /\ Forall (fun c => is_digit c = true) d.

(** A group of the salary grammar: an optional comma, then digits. *)
Definition group_text (g : bool * text) : text :=
  (if fst g then [chr_comma] else []) ++ snd g.

(** The salary grammar in the words of the specification: zero or more
    [$], then one or more digits, then zero or more groups, each an
    optional comma followed by one or more digits. *)
Definition salary_grammar (s : text) : Prop :=
  exists (k : nat) (ds : text) (groups : list (bool * text)),
    s = repeat chr_dollar k ++ ds ++ concat (map group_text groups)
    /\ digits1 ds
    /\ Forall (fun g => digits1 (snd g)) groups.

(** One or more decimal digits of any script, and the grammar read with
    them: what the pattern class [\d] makes of the grammar. *)
Definition decimals1 (d : text) : Prop :=
  d <> [] /\ Forall (fun c => is_decimal c = true) d.

Definition salary_language (s : text) : Prop :=
  exists (k : nat) (ds : text) (groups : list (bool * text)),
    s = repeat chr_dollar k ++ ds ++ concat (map group_text groups)
    /\ decimals1 ds
    /\ Forall (fun g => decimals1 (snd g)) groups.

(** The three replacements that [extract_player] applies before
    [int]. *)
Definition strip_salary (s : text) : text :=
  Py.replace_with_empty chr_space
    (Py.replace_with_empty chr_comma
       (Py.replace_with_empty chr_dollar s)).

(** The characters of the grammar. *)
Definition salary_char (c : codepoint) : bool :=
  is_decimal c || N.eqb c chr_dollar || N.eqb c chr_comma.

(** A salary text that the pattern accepts and that holds more digits
    than [int] takes. *)
Definition over_long (s : text) : Prop :=
  SALARY_RE_search s = true
  /\ (Py.int_max_str_digits < length (filter is_decimal s))%nat.

(** Two texts that end in a newline, as the text of a table cell may. *)
Definition digits_then_newline : text := txt "123" ++ [chr_newline].
Definition amount_then_newline : text := txt "$1,000" ++ [chr_newline].

(** A ranked set of three slots with one occupant, and two records tied
    with it, told apart by their names. *)
Definition record_a : Player := mkPlayer (txt "A") (SalaryInt 500) [] [].
Definition tied_set : list (option Player) :=
  [Some (player_with (SalaryInt 500)); None; None].

(** A set whose 125 slots hold records of salary 500. *)
Definition full_of_500 : list (option Player) :=
  repeat (Some (player_with (SalaryInt 500))) 125.

(** *** Structural reading of the insertion

    [place v l] is the list that the loop of [insert_in_limited_array]
    leaves when every salary involved is an [int], and [place_index] the
    index at which it inserts; [ranked] is [RankedSet] by recursion on
    the slots. The three are proved equal to the definitions above
    before they are used. *)

Fixpoint place_index (v : Player) (l : list (option Player)) : option nat :=
  match l with
  | [] => None
  | None :: _ => Some O
  | Some o :: rest =>
      if amount v >? amount o then Some O
      else option_map S (place_index v rest)
  end.

Fixpoint place (v : Player) (l : list (option Player))
  : list (option Player) :=
  match l with
  | [] => []
  | None :: _ => Some v :: removelast l
  | Some o :: rest =>
      if amount v >? amount o then Some v :: removelast l
      else Some o :: place v rest
  end.

Definition slot_valid (slot : option Player) : Prop :=
  match slot with
  | Some o => valid o
  | None => True
  end.

Fixpoint ranked (l : list (option Player)) : Prop :=
  match l with
  | [] => True
  | None :: rest => Forall (fun slot => slot = None) rest
  | Some p :: rest =>
      valid p
      /\ (forall q, In (Some q) rest -> amount q <= amount p)
      /\ ranked rest
  end.

(** Groups in the order the loop of [display_salary] appends them, least
    significant first. *)
Definition peeled_value (gs : list Z) : Z :=
  fold_right (fun g acc => g + 1000 * acc) 0 gs.

(** *** Vocabulary of the further properties *)

(** The number of occupied slots of any array of slots. *)
Definition occupied_slots {A : Type} (array : list (option A)) : nat :=
  length (filter (fun slot => match slot with Some _ => true | None => false end)
            array).

(** The records of a list whose salary is an [int], in order. *)
Definition valid_records (ps : list Player) : list Player :=
  filter (fun p => isinstance_int (salary p)) ps.

(** Insertion into a list in descending order of amount, behind the
    records of equal amount. *)
Fixpoint sorted_insert (v : Player) (l : list Player) : list Player :=
  match l with
  | [] => [v]
  | o :: rest =>
      if amount v >? amount o then v :: l else o :: sorted_insert v rest
  end.

(** Insertion sort of a list of records, fed in order, on top of
    [acc]. *)
Definition ranking_from (acc ps : list Player) : list Player :=
  fold_left (fun sorted p => sorted_insert p sorted) ps acc.

(** [k] slots showing the first [k] records of [l], empty slots after
    them. *)
Definition slots_of (k : nat) (l : list Player) : list (option Player) :=
  map Some (firstn k l) ++ repeat None (k - length l).


(** A row has its four cells. *)
Definition complete_row (tr : Row) : Prop :=
  td_name tr <> None /\ td_salary tr <> None
  /\ td_year tr <> None /\ td_level tr <> None.

(** The salary cell of a row holds such a text, and a row that
    [extract_player] turns into a record: the four cells are there and
    the salary text is one that [int] takes. *)
Definition over_long_salary (tr : Row) : Prop :=
  exists s, td_salary tr = Some s /\ over_long s.

Definition extractable_row (tr : Row) : Prop :=
  complete_row tr /\ ~ over_long_salary tr.

(** The text [Player.__str__] builds around the salary it shows. *)
Definition player_lines (p : Player) (shown : text) : text :=
  txt "Name: " ++ name p ++ chr_newline
  :: txt "Salary: " ++ shown ++ chr_newline
  :: txt "Year: " ++ year p ++ chr_newline
  :: txt "Level: " ++ level p ++ [chr_newline].

(** A page of three rows, the second with a salary that is no amount,
    and the state a run leaves from it. *)
Definition sample_rows : list Row :=
  [mkRow (Some (txt "Ann")) (Some (txt "$1,000")) (Some (txt "2016"))
         (Some (txt "MLB"));
   mkRow (Some (txt "Bob")) (Some (txt "no salary data"))
         (Some (txt "2016")) (Some (txt "MLB"));
   mkRow (Some (txt "Cy")) (Some (txt "$2,500")) (Some (txt "2016"))
         (Some (txt "MLB"))].

Definition sample_app : App :=
  mkApp
    [mkPlayer (txt "Ann") (SalaryInt 1000) (txt "2016") (txt "MLB");
     mkPlayer (txt "Bob") (SalaryStr (txt "No data found"))
              (txt "2016") (txt "MLB");
     mkPlayer (txt "Cy") (SalaryInt 2500) (txt "2016") (txt "MLB")]
    (FloatFinite false 7881299347898368 (-48))
    1
    (Some (mkPlayer (txt "Cy") (SalaryInt 2500) (txt "2016") (txt "MLB"))
     :: Some (mkPlayer (txt "Ann") (SalaryInt 1000) (txt "2016") (txt "MLB"))
     :: repeat None 123).

(* ================================================================= *)
(** * Properties *)

(** ** Fuel *)

Lemma returns_unique {A : Type} (run : nat -> option A) (v w : A) :
  returns run v -> returns run w -> v = w.
Proof.
  intros [f1 H1] [f2 H2].
  specialize (H1 (Nat.max f1 f2) (Nat.le_max_l _ _)).
  specialize (H2 (Nat.max f1 f2) (Nat.le_max_r _ _)).
  congruence.
Qed.

Lemma display_salary_loop_mono (fuel : nat) :
  forall n buffer r fuel',
    display_salary_loop fuel n buffer = Some r ->
    (fuel <= fuel')%nat ->
    display_salary_loop fuel' n buffer = Some r.
Proof.
  induction fuel as [|fuel IH]; intros n buffer r fuel' Hrun Hle.
  - discriminate.
  - destruct fuel' as [|fuel']; [lia|].
    simpl in *. destruct (n =? 0); [assumption|].
    apply IH; [assumption | lia].
Qed.

Lemma display_salary_mono (fuel fuel' : nat) (n : Z) (v : result text) :
  display_salary fuel n = Some v ->
  (fuel <= fuel')%nat ->
  display_salary fuel' n = Some v.
Proof.
  unfold display_salary. intros Hrun Hle.
  destruct (display_salary_loop fuel n []) as [buffer|] eqn:Hloop;
    [|discriminate].
  rewrite (display_salary_loop_mono _ _ _ _ _ Hloop Hle). assumption.
Qed.

Lemma display_salary_returns (fuel : nat) (n : Z) (v : result text) :
  display_salary fuel n = Some v ->
  returns (fun fuel' => display_salary fuel' n) v.
Proof.
  intros Hrun. exists fuel. intros fuel' Hle.
  exact (display_salary_mono _ _ _ _ Hrun Hle).
Qed.

(** ** The groups peeled off by the loop *)

Lemma groups_value_app (gs : list Z) (g : Z) :
  groups_value (gs ++ [g]) = groups_value gs * 1000 + g.
Proof. unfold groups_value. rewrite fold_left_app. reflexivity. Qed.

Lemma groups_value_rev (gs : list Z) :
  groups_value (rev gs) = peeled_value gs.
Proof.
  induction gs as [|g gs IH]; [reflexivity|].
  change (peeled_value (g :: gs)) with (g + 1000 * peeled_value gs).
  simpl rev. rewrite groups_value_app, IH. lia.
Qed.

Lemma display_salary_loop_spec :
  forall n, 0 <= n ->
    exists fuel0 gs,
      (forall fuel buffer, (fuel0 <= fuel)%nat ->
         display_salary_loop fuel n buffer = Some (buffer ++ gs))
      /\ Forall (fun g => 0 <= g <= 999) gs
      /\ peeled_value gs = n
      /\ (0 < n -> exists front top, gs = front ++ [top] /\ 1 <= top).
Proof.
  intros n Hn. revert Hn. pattern n.
  apply (well_founded_induction (Z.lt_wf 0)). clear n.
  intros n IH Hn.
  destruct (Z.eq_dec n 0) as [->|Hnz].
  - exists 1%nat, []. repeat split.
    + intros fuel buffer Hle. destruct fuel; [lia|].
      simpl. now rewrite app_nil_r.
    + constructor.
    + lia.
  - assert (Hdiv : 0 <= n / 1000 < n).
    { split; [apply Z.div_pos; lia | apply Z.div_lt; lia]. }
    destruct (IH (n / 1000)) as (fuel0 & gs & Hrun & Hrange & Hval & Htop);
      [lia | lia |].
    pose proof (Z.mod_pos_bound n 1000 ltac:(lia)) as Hmod.
    pose proof (Z.div_mod n 1000 ltac:(lia)) as Hdm.
    exists (S fuel0), (n mod 1000 :: gs). repeat split.
    + intros fuel buffer Hle. destruct fuel as [|fuel]; [lia|].
      simpl. destruct (n =? 0) eqn:E; [apply Z.eqb_eq in E; lia|].
      rewrite Hrun by lia. now rewrite <- app_assoc.
    + constructor; [lia | assumption].
    + change (peeled_value (n mod 1000 :: gs))
        with (n mod 1000 + 1000 * peeled_value gs).
      rewrite Hval. lia.
    + intros _. destruct (Z.eq_dec (n / 1000) 0) as [Hz|Hz].
      * assert (gs = []) as ->.
        { specialize (Hrun (S fuel0) [] (Nat.le_succ_diag_r _)).
          simpl in Hrun. rewrite Hz in Hrun. simpl in Hrun. congruence. }
        exists [], (n mod 1000). split; [reflexivity|lia].
      * destruct Htop as (front & top & -> & Htop); [lia|].
        exists (n mod 1000 :: front), top. split; [reflexivity|assumption].
Qed.

(** ** The text of one group *)

Lemma groups_below_1000_check :
  forallb
    (fun k =>
       let g := Z.of_nat k in
       padded3 (Py.format_03d g) g
       && ((g =? 0) || unpadded (Py.str g) g))
    (seq 0 1000) = true.
Proof. vm_compute. reflexivity. Qed.

Lemma group_texts (g : Z) :
  0 <= g <= 999 ->
  padded3 (Py.format_03d g) g = true
  /\ (1 <= g -> unpadded (Py.str g) g = true).
Proof.
  intros Hg.
  pose proof groups_below_1000_check as Hall.
  rewrite forallb_forall in Hall.
  specialize (Hall (Z.to_nat g)).
  rewrite Z2Nat.id in Hall by lia.
  assert (Hin : In (Z.to_nat g) (seq 0 1000)) by (apply in_seq; lia).
  apply Hall in Hin. apply andb_true_iff in Hin as [Hpad Hstr].
  split; [assumption|].
  intros Hpos. apply orb_true_iff in Hstr as [Hz|Hstr]; [|assumption].
  apply Z.eqb_eq in Hz. lia.
Qed.

Lemma join_comma (lead : text) (groups : list text) :
  chr_dollar :: Py.join [chr_comma] (lead :: groups)
  = currency_text lead groups.
Proof.
  unfold currency_text. f_equal.
  revert lead. induction groups as [|g groups IH]; intros lead.
  - simpl. now rewrite app_nil_r.
  - change (Py.join [chr_comma] (lead :: g :: groups))
      with (lead ++ [chr_comma] ++ Py.join [chr_comma] (g :: groups)).
    rewrite IH. reflexivity.
Qed.

(** What [display_salary] returns at a positive [int], group by
    group. *)
Lemma display_salary_groups (n : Z) :
  0 < n ->
  exists g0 gs,
    returns (fun fuel => display_salary fuel n)
            (Ok (currency_text (Py.str g0) (map Py.format_03d gs)))
    /\ 1 <= g0 <= 999
    /\ Forall (fun g => 0 <= g <= 999) gs
    /\ groups_value (g0 :: gs) = n.
Proof.
  intros Hn.
  destruct (display_salary_loop_spec n ltac:(lia))
    as (fuel0 & peeled & Hrun & Hrange & Hval & Htop).
  destruct (Htop Hn) as (front & top & -> & Htop1).
  exists top, (rev front).
  apply Forall_app in Hrange as [Hfront Hlast].
  apply Forall_inv in Hlast.
  repeat split; try lia.
  - exists fuel0. intros fuel Hle. unfold display_salary.
    rewrite (Hrun fuel [] Hle). simpl app.
    rewrite rev_app_distr. simpl rev. simpl app.
    cbv iota. rewrite join_comma. reflexivity.
  - apply Forall_rev. assumption.
  - rewrite <- Hval, <- groups_value_rev, rev_app_distr. reflexivity.
Qed.

(** ** Claims on [display_salary] *)

(** C1 (the code departs from it). The claim asks for ["$0"] at the
    amount 0. In the code the [while] loop does not run at 0, the buffer
    stays empty, and [buffer[0]] raises [IndexError]: no string is
    returned. The amount 0 is one the program meets: the salary text
    ["$0"] is accepted and converted to 0, and printing such a record
    raises. *)
Theorem display_salary_zero_raises :
  returns (fun fuel => display_salary fuel 0) (Raise IndexError)
  /\ (forall fuel, display_salary fuel 0 <> Some (Ok (txt "$0")))
  /\ extract_salary (txt "$0") = Ok (SalaryInt 0)
  /\ (forall name year level : text,
        returns (fun fuel =>
                   Player_str fuel (mkPlayer name (SalaryInt 0) year level))
                (Raise IndexError)).
Proof.
  split; [|split; [|split]].
  - exists 1%nat. intros [|fuel] Hle; [lia | reflexivity].
  - intros [|fuel]; discriminate.
  - reflexivity.
  - intros name year level. exists 1%nat.
    intros [|fuel] Hle; [lia | reflexivity].
Qed.

(** At a negative [int] the loop never ends: floor division keeps [n]
    negative. *)
Lemma display_salary_negative_diverges (n : Z) :
  n < 0 -> diverges (fun fuel => display_salary fuel n).
Proof.
  intros Hn fuel. unfold display_salary.
  assert (Hloop : forall buffer, display_salary_loop fuel n buffer = None).
  { revert n Hn. induction fuel as [|fuel IH]; intros n Hn buffer;
      [reflexivity|].
    simpl. destruct (n =? 0) eqn:E; [apply Z.eqb_eq in E; lia|].
    apply IH. apply Z.div_lt_upper_bound; lia. }
  now rewrite Hloop.
Qed.

(** C9. For every positive amount [display_salary] returns [$], then
    the leading group written without padding, then every further group
    behind a comma on exactly three digits; the groups are the base-1000
    digits of the amount. In particular 999 gives ["$999"] and 1234567
    gives ["$1,234,567"]. *)
Theorem display_salary_positive :
  (forall n, 0 < n ->
     exists (lead : text) (groups : list text) (g0 : Z) (gs : list Z),
       returns (fun fuel => display_salary fuel n)
               (Ok (currency_text lead groups))
       /\ 1 <= g0 <= 999
       /\ unpadded lead g0 = true
       /\ Forall2 (fun s g => padded3 s g = true) groups gs
       /\ groups_value (g0 :: gs) = n)
  /\ returns (fun fuel => display_salary fuel 999) (Ok (txt "$999"))
  /\ returns (fun fuel => display_salary fuel 1234567)
             (Ok (txt "$1,234,567")).
Proof.
  split; [|split].
  - intros n Hn.
    destruct (display_salary_groups n Hn) as (g0 & gs & Hret & Hg0 & Hgs & Hval).
    exists (Py.str g0), (map Py.format_03d gs), g0, gs.
    repeat split; try assumption; try lia.
    + apply group_texts; lia.
    + clear Hret Hval. induction gs as [|g gs IH]; [constructor|].
      inversion Hgs; subst. constructor; [|auto].
      apply group_texts; assumption.
  - apply (display_salary_returns 5). reflexivity.
  - apply (display_salary_returns 5). reflexivity.
Qed.

Lemma display_salary_positive_witness :
  exists (lead : text) (groups : list text) (g0 : Z) (gs : list Z),
    returns (fun fuel => display_salary fuel 1234567)
            (Ok (currency_text lead groups))
    /\ 1 <= g0 <= 999
    /\ unpadded lead g0 = true
    /\ Forall2 (fun s g => padded3 s g = true) groups gs
    /\ groups_value (g0 :: gs) = 1234567.
Proof. apply (proj1 display_salary_positive 1234567). reflexivity. Defined.

(* ================================================================= *)
(** ** [insert_in_limited_array]: the loop and the list it leaves *)

Section LimitedArrayFacts.

Context {A : Type} (gt : A -> A -> result bool).

Lemma length_list_insert (i : nat) (x : option A) (l : list (option A)) :
  length (Py.list_insert i x l) = S (length l).
Proof.
  revert i. induction l as [|y l IH]; intros [|i]; simpl; auto.
Qed.

Lemma length_removelast_cons (x : option A) (l : list (option A)) :
  length (removelast (x :: l)) = length l.
Proof.
  revert x. induction l as [|y l IH]; intros x; [reflexivity|].
  change (removelast (x :: y :: l)) with (x :: removelast (y :: l)).
  cbn [length]. f_equal. apply IH.
Qed.

Lemma list_pop_insert (i : nat) (value : A) (l : list (option A)) :
  Py.list_pop (Py.list_insert i (Some value) l) = Ok (inserted_at i value l).
Proof.
  unfold inserted_at.
  destruct (Py.list_insert i (Some value) l) eqn:E; [|reflexivity].
  pose proof (length_list_insert i (Some value) l) as Hlen.
  rewrite E in Hlen. discriminate.
Qed.

Lemma length_inserted_at (i : nat) (value : A) (l : list (option A)) :
  length (inserted_at i value l) = length l.
Proof.
  unfold inserted_at.
  pose proof (length_list_insert i (Some value) l) as Hlen.
  destruct (Py.list_insert i (Some value) l) as [|x l']; [discriminate|].
  rewrite length_removelast_cons. simpl in Hlen. lia.
Qed.

(** The loop is the scan for the first hit followed by the update. *)
Lemma insert_loop_first_hit (value : A) (array : list (option A)) :
  forall remaining i,
    insert_loop value gt array i remaining
    = (h <- first_hit_from value gt array i remaining ;;
       match h with
       | None => Ok array
       | Some j => Ok (inserted_at j value array)
       end).
Proof.
  induction remaining as [|remaining IH]; intros i; [reflexivity|].
  simpl. destruct (nth_error array i) as [item|]; [|reflexivity].
  destruct (match item with None => Ok true | Some o => gt value o end)
    as [[|]|e]; simpl.
  - apply list_pop_insert.
  - apply IH.
  - reflexivity.
Qed.

Lemma insert_in_limited_array_first_hit (value : A)
      (array : list (option A)) :
  insert_in_limited_array value gt array
  = (h <- first_hit value gt array ;;
     match h with
     | None => Ok array
     | Some j => Ok (inserted_at j value array)
     end).
Proof. apply insert_loop_first_hit. Qed.

Lemma insert_in_limited_array_length (value : A)
      (array array' : list (option A)) :
  insert_in_limited_array value gt array = Ok array' ->
  length array' = length array.
Proof.
  rewrite insert_in_limited_array_first_hit.
  destruct (first_hit value gt array) as [[j|]|e]; simpl; intros H;
    inversion H; subst; [apply length_inserted_at | reflexivity].
Qed.

End LimitedArrayFacts.

(* ================================================================= *)
(** ** Insertion of records with [int] salaries *)

Lemma salary_gt_valid (v o : Player) :
  valid v -> valid o -> salary_gt v o = Ok (amount v >? amount o).
Proof.
  unfold valid, salary_gt, amount.
  destruct (salary v), (salary o); simpl; intros; try discriminate.
  reflexivity.
Qed.

Lemma nth_error_middle {X : Type} (pre : list X) (x : X) (rest : list X) :
  nth_error (pre ++ x :: rest) (length pre) = Some x.
Proof.
  rewrite nth_error_app2 by lia. now rewrite Nat.sub_diag.
Qed.

Lemma first_hit_from_place_index (v : Player) :
  valid v ->
  forall l pre,
    Forall slot_valid l ->
    first_hit_from v salary_gt (pre ++ l) (length pre) (length l)
    = Ok (option_map (fun j => (length pre + j)%nat) (place_index v l)).
Proof.
  intros Hv. induction l as [|slot rest IH]; intros pre Hall; [reflexivity|].
  apply Forall_cons_iff in Hall as [Hslot Hrest].
  cbn [length first_hit_from]. rewrite nth_error_middle.
  assert (Hnext :
    first_hit_from v salary_gt (pre ++ slot :: rest) (S (length pre))
                   (length rest)
    = Ok (option_map (fun j => (length pre + S j)%nat) (place_index v rest))).
  { replace (pre ++ slot :: rest) with ((pre ++ [slot]) ++ rest)
      by (now rewrite <- app_assoc).
    replace (S (length pre)) with (length (pre ++ [slot]))
      by (rewrite length_app; simpl; lia).
    rewrite (IH _ Hrest). f_equal.
    destruct (place_index v rest); simpl; [|reflexivity].
    f_equal. rewrite length_app. simpl. lia. }
  destruct slot as [o|]; simpl.
  - rewrite (salary_gt_valid _ _ Hv Hslot). simpl.
    destruct (amount v >? amount o); simpl.
    + now rewrite Nat.add_0_r.
    + rewrite Hnext. destruct (place_index v rest); reflexivity.
  - now rewrite Nat.add_0_r.
Qed.

Lemma first_hit_place_index (v : Player) (l : list (option Player)) :
  valid v -> Forall slot_valid l ->
  first_hit v salary_gt l = Ok (place_index v l).
Proof.
  intros Hv Hall. unfold first_hit.
  pose proof (first_hit_from_place_index v Hv l [] Hall) as H.
  simpl in H. rewrite H.
  destruct (place_index v l); reflexivity.
Qed.

Lemma place_index_lt (v : Player) (l : list (option Player)) (j : nat) :
  place_index v l = Some j -> (j < length l)%nat.
Proof.
  revert j. induction l as [|[o|] rest IH]; intros j; simpl.
  - discriminate.
  - destruct (amount v >? amount o).
    + intros [= <-]. lia.
    + destruct (place_index v rest) as [j'|]; simpl; [|discriminate].
      intros [= <-]. specialize (IH j' eq_refl). lia.
  - intros [= <-]. lia.
Qed.

Lemma inserted_at_cons {X : Type} (j : nat) (v : X) (slot : option X)
      (rest : list (option X)) :
  (j < length rest)%nat ->
  inserted_at (S j) v (slot :: rest) = slot :: inserted_at j v rest.
Proof.
  intros Hj. unfold inserted_at. cbn [Py.list_insert].
  pose proof (length_list_insert j (Some v) rest) as Hlen.
  destruct (Py.list_insert j (Some v) rest); [discriminate|reflexivity].
Qed.

Lemma inserted_at_place (v : Player) (l : list (option Player)) :
  match place_index v l with
  | Some j => inserted_at j v l = place v l
  | None => place v l = l
  end.
Proof.
  induction l as [|[o|] rest IH]; cbn [place_index place]; try reflexivity.
  destruct (amount v >? amount o); [reflexivity|].
  destruct (place_index v rest) as [j|] eqn:Hj; simpl.
  - rewrite inserted_at_cons by (eapply place_index_lt; eassumption).
    now rewrite IH.
  - now rewrite IH.
Qed.

(** With [int] salaries throughout, the insertion never raises and
    leaves [place v l]. *)
Lemma insert_in_limited_array_place (v : Player)
      (l : list (option Player)) :
  valid v -> Forall slot_valid l ->
  insert_in_limited_array v salary_gt l = Ok (place v l).
Proof.
  intros Hv Hall.
  rewrite insert_in_limited_array_first_hit.
  rewrite (first_hit_place_index v l Hv Hall). simpl.
  pose proof (inserted_at_place v l) as H.
  destruct (place_index v l); now rewrite H.
Qed.

(** ** The ranked-set invariant under insertion *)

Lemma In_removelast {X : Type} (x : X) (l : list X) :
  In x (removelast l) -> In x l.
Proof.
  induction l as [|y l IH]; [auto|].
  destruct l as [|z l]; [intros []|].
  change (removelast (y :: z :: l)) with (y :: removelast (z :: l)).
  intros [->|H]; [now left | right; auto].
Qed.

Lemma In_removelast_or_last {X : Type} (x d : X) (l : list X) :
  In x l -> In x (removelast l) \/ x = last l d.
Proof.
  induction l as [|y l IH]; [intros []|].
  destruct l as [|z l].
  - intros [->|[]]. now right.
  - change (removelast (y :: z :: l)) with (y :: removelast (z :: l)).
    change (last (y :: z :: l) d) with (last (z :: l) d).
    intros [->|H]; [left; now left|].
    destruct (IH H) as [H'|H']; [left; now right | now right].
Qed.

Lemma In_last {X : Type} (d : X) (l : list X) :
  l <> [] -> In (last l d) l.
Proof.
  intros Hl. rewrite (app_removelast_last d Hl) at 2.
  apply in_or_app. right. now left.
Qed.

Lemma Forall_removelast {X : Type} (P : X -> Prop) (l : list X) :
  Forall P l -> Forall P (removelast l).
Proof.
  rewrite !Forall_forall. intros H x Hx. apply H, In_removelast, Hx.
Qed.

Lemma all_none_ranked (l : list (option Player)) :
  Forall (fun slot => slot = None) l -> ranked l.
Proof.
  induction 1 as [|slot l Hslot Hl IH]; [exact I|].
  subst slot. exact Hl.
Qed.

Lemma all_none_not_in (l : list (option Player)) (q : Player) :
  Forall (fun slot => slot = None) l -> ~ In (Some q) l.
Proof.
  rewrite Forall_forall. intros H Hin. apply H in Hin. discriminate.
Qed.

Lemma ranked_slot_valid (l : list (option Player)) :
  ranked l -> Forall slot_valid l.
Proof.
  induction l as [|[p|] rest IH]; simpl.
  - constructor.
  - intros (Hp & _ & Hrest). constructor; auto.
  - intros Hnone. constructor; [exact I|].
    eapply Forall_impl; [|exact Hnone]. intros slot ->. exact I.
Qed.

Lemma ranked_removelast (l : list (option Player)) :
  ranked l -> ranked (removelast l).
Proof.
  induction l as [|slot rest IH]; [auto|].
  destruct rest as [|slot' rest]; [intros _; exact I|].
  change (removelast (slot :: slot' :: rest))
    with (slot :: removelast (slot' :: rest)).
  destruct slot as [p|]; cbn [ranked].
  - intros (Hp & Hle & Hrest). repeat split; auto.
    intros q Hq. apply Hle, In_removelast, Hq.
  - apply Forall_removelast.
Qed.

Lemma In_place (v : Player) (l : list (option Player)) (q : Player) :
  In (Some q) (place v l) -> q = v \/ In (Some q) l.
Proof.
  induction l as [|[o|] rest IH]; cbn [place].
  - intros [].
  - destruct (amount v >? amount o).
    + intros [[= <-]|H]; [now left | right; now apply In_removelast].
    + intros [H|H]; [right; now left|].
      destruct (IH H); [now left | right; now right].
  - intros [[= <-]|H]; [now left | right; now apply In_removelast].
Qed.

Lemma place_ranked (v : Player) (l : list (option Player)) :
  valid v -> ranked l -> ranked (place v l).
Proof.
  intros Hv. induction l as [|[o|] rest IH]; cbn [place].
  - auto.
  - intros Hl. pose proof Hl as (Ho & Hle & Hrest).
    destruct (amount v >? amount o) eqn:Hgt.
    + apply Z.gtb_lt in Hgt. cbn [ranked]. repeat split.
      * exact Hv.
      * intros q Hq. apply In_removelast in Hq as [[= <-]|Hq]; [lia|].
        specialize (Hle q Hq). lia.
      * apply ranked_removelast. exact Hl.
    + cbn [ranked]. repeat split; auto.
      intros q Hq. apply In_place in Hq as [->|Hq]; [|auto].
      rewrite Z.gtb_ltb in Hgt. apply Z.ltb_ge in Hgt. exact Hgt.
  - intros Hl. cbn [ranked]. repeat split.
    + exact Hv.
    + intros q Hq. apply In_removelast in Hq.
      exfalso. revert Hq. apply all_none_not_in.
      constructor; [reflexivity | exact Hl].
    + apply ranked_removelast. exact Hl.
Qed.

(** In a ranked list whose last slot is occupied, every slot is occupied
    and the last occupant has the least amount. *)
Lemma ranked_last_min (l : list (option Player)) (q : Player) :
  ranked l -> last l None = Some q -> full_at_least (amount q) l.
Proof.
  unfold full_at_least.
  induction l as [|slot rest IH]; [constructor|].
  destruct rest as [|slot' rest].
  - simpl. intros _ ->. constructor; [|constructor].
    exists q. split; [reflexivity | lia].
  - change (last (slot :: slot' :: rest) None) with (last (slot' :: rest) None).
    destruct slot as [p|]; cbn [ranked].
    + intros (Hp & Hle & Hrest) Hlast. constructor; [|auto].
      exists p. split; [reflexivity|]. apply Hle.
      rewrite <- Hlast. apply In_last. discriminate.
    + intros Hnone Hlast. exfalso.
      assert (Hin : In (Some q) (slot' :: rest)).
      { rewrite <- Hlast. apply In_last. discriminate. }
      revert Hin. now apply all_none_not_in.
Qed.

Lemma full_at_least_weaken (a b : Z) (l : list (option Player)) :
  a <= b -> full_at_least b l -> full_at_least a l.
Proof.
  intros Hab. apply Forall_impl. intros slot (o & -> & Ho).
  exists o. split; [reflexivity | lia].
Qed.

Lemma place_bound (a : Z) (v : Player) (l : list (option Player)) :
  full_at_least a l -> full_at_least a (place v l).
Proof.
  unfold full_at_least.
  induction l as [|slot rest IH]; [auto|].
  intros Hall. pose proof Hall as Hall'.
  apply Forall_cons_iff in Hall' as [(o & -> & Ho) Hrest].
  cbn [place]. destruct (amount v >? amount o) eqn:Hgt.
  - apply Z.gtb_lt in Hgt. constructor.
    + exists v. split; [reflexivity | lia].
    + apply Forall_removelast. exact Hall.
  - constructor; [|auto]. exists o. auto.
Qed.

(** An occupant stays through an insertion unless it is the one that
    falls off the end of a full list, and then nothing smaller is left. *)
Lemma place_keeps (v : Player) (l : list (option Player)) (q : Player) :
  ranked l ->
  In (Some q) l ->
  In (Some q) (place v l) \/ full_at_least (amount q) (place v l).
Proof.
  assert (Hfalls : forall l', ranked l' -> In (Some q) l' ->
            In (Some q) (removelast l') \/ full_at_least (amount q) l').
  { intros l' Hl' Hq.
    destruct (In_removelast_or_last (Some q) None l' Hq) as [H|H]; [now left|].
    right. apply ranked_last_min; auto. }
  induction l as [|[o|] rest IH]; cbn [place].
  - intros _ [].
  - intros Hl Hq. destruct (amount v >? amount o) eqn:Hgt.
    + destruct (Hfalls _ Hl Hq) as [H|H]; [left; now right|].
      right. apply Z.gtb_lt in Hgt.
      pose proof H as Hhead. apply Forall_inv in Hhead as (o' & [= <-] & Ho).
      constructor.
      * exists v. split; [reflexivity | lia].
      * apply Forall_removelast. exact H.
    + destruct Hl as (Ho & Hle & Hrest).
      destruct Hq as [[= ->]|Hq]; [left; now left|].
      destruct (IH Hrest Hq) as [H|H]; [left; now right|].
      right. constructor; [|exact H].
      exists o. split; [reflexivity | auto].
  - intros Hl Hq. destruct (Hfalls _ Hl Hq) as [H|H]; [left; now right|].
    apply Forall_inv in H as (o' & Habs & _). discriminate.
Qed.

(** The incoming record is placed, or the list is full of records at
    least as large and stays as it is. *)
Lemma place_self (v : Player) (l : list (option Player)) :
  In (Some v) (place v l)
  \/ (place v l = l /\ place_index v l = None
      /\ full_at_least (amount v) l).
Proof.
  induction l as [|[o|] rest IH]; cbn [place place_index].
  - right. repeat split. constructor.
  - destruct (amount v >? amount o) eqn:Hgt; [left; now left|].
    destruct IH as [H|(Heq & Hidx & Hfull)]; [left; now right|].
    right. rewrite Heq, Hidx. repeat split.
    constructor; [|exact Hfull].
    exists o. split; [reflexivity|].
    rewrite Z.gtb_ltb in Hgt. now apply Z.ltb_ge in Hgt.
  - left. now left.
Qed.

Lemma length_place (v : Player) (l : list (option Player)) :
  length (place v l) = length l.
Proof.
  induction l as [|[o|] rest IH]; cbn [place]; [reflexivity| |].
  - destruct (amount v >? amount o); cbn [length].
    + now rewrite length_removelast_cons.
    + now rewrite IH.
  - cbn [length]. now rewrite length_removelast_cons.
Qed.

(** ** The loop of [crawl_players] *)

Lemma crawl_players_step_valid (arr : list (option Player)) (n : Z)
      (p : Player) :
  valid p -> ranked arr ->
  crawl_players_step (arr, n) p = Ok (place p arr, n).
Proof.
  intros Hp Harr. unfold crawl_players_step. rewrite Hp.
  rewrite (insert_in_limited_array_place p arr Hp (ranked_slot_valid _ Harr)).
  reflexivity.
Qed.

Lemma crawl_players_step_corrupted (arr : list (option Player)) (n : Z)
      (p : Player) :
  corrupted p -> crawl_players_step (arr, n) p = Ok (arr, n + 1).
Proof.
  intros Hp. unfold crawl_players_step. now rewrite Hp.
Qed.

Lemma valid_or_corrupted (p : Player) : {valid p} + {corrupted p}.
Proof.
  unfold valid, corrupted. destruct (isinstance_int (salary p)); auto.
Qed.

Lemma crawl_players_loop_spec (ps : list Player) :
  forall arr n,
    ranked arr ->
    exists arr' n',
      crawl_players_loop ps (arr, n) = Ok (arr', n')
      /\ ranked arr'
      /\ length arr' = length arr
      /\ n' = n + corrupted_count ps
      /\ (forall p, valid p ->
            In (Some p) arr \/ full_at_least (amount p) arr \/ In p ps ->
            In (Some p) arr' \/ full_at_least (amount p) arr')
      /\ (forall q, In (Some q) arr' -> In (Some q) arr \/ In q ps).
Proof.
  induction ps as [|p ps IH]; intros arr n Harr.
  - exists arr, n. unfold corrupted_count. simpl.
    repeat split; auto; try lia.
    intros q _ [H|[H|[]]]; auto.
  - cbn [crawl_players_loop].
    destruct (valid_or_corrupted p) as [Hp|Hp].
    + rewrite (crawl_players_step_valid arr n p Hp Harr). cbn [bind].
      destruct (IH (place p arr) n (place_ranked p arr Hp Harr))
        as (arr' & n' & Hrun & Hranked & Hlen & Hn & Hkeep & Hfrom).
      exists arr', n'. repeat split; auto.
      * rewrite Hlen. apply length_place.
      * rewrite Hn. unfold corrupted_count. cbn [filter].
        unfold valid in Hp. now rewrite Hp.
      * intros q Hq Hcases. apply (Hkeep q Hq).
        destruct Hcases as [H|[H|[<-|H]]].
        -- destruct (place_keeps p arr q Harr H); auto.
        -- right. left. now apply place_bound.
        -- destruct (place_self p arr) as [H|(Heq & _ & Hfull)]; [auto|].
           right. left. now rewrite Heq.
        -- auto.
      * intros q Hq. destruct (Hfrom q Hq) as [H|H]; [|right; now right].
        apply In_place in H as [->|H]; [right; now left | now left].
    + rewrite (crawl_players_step_corrupted arr n p Hp). cbn [bind].
      destruct (IH arr (n + 1) Harr)
        as (arr' & n' & Hrun & Hranked & Hlen & Hn & Hkeep & Hfrom).
      exists arr', n'. repeat split; auto.
      * rewrite Hn. unfold corrupted_count. cbn [filter].
        unfold corrupted in Hp. rewrite Hp. cbn [negb length]. lia.
      * intros q Hq Hcases. apply (Hkeep q Hq).
        destruct Hcases as [H|[H|[<-|H]]]; auto.
        unfold valid, corrupted in *. congruence.
      * intros q Hq. destruct (Hfrom q Hq) as [H|H]; [now left|right; now right].
Qed.

(** ** [RankedSet] and its structural reading agree *)


Lemma all_none_repeat (l : list (option Player)) :
  Forall (fun slot => slot = None) l -> l = repeat None (length l).
Proof.
  induction 1 as [|slot rest Hslot _ IH]; [reflexivity|].
  subst slot. simpl. now rewrite <- IH.
Qed.


Lemma ranked_RankedSet (l : list (option Player)) :
  ranked l -> RankedSet l.
Proof.
  induction l as [|[p|] rest IH]; cbn [ranked].
  - intros _. exists [], O. repeat split; constructor.
  - intros (Hp & Hle & Hrest).
    destruct (IH Hrest) as (occupants & k & -> & Hvalid & Hsorted).
    exists (p :: occupants), k. repeat split.
    + constructor; assumption.
    + constructor; [assumption|].
      apply Forall_forall. intros q Hq. apply Hle.
      apply in_or_app. left. now apply in_map.
  - intros Hnone. exists [], (S (length rest)). repeat split; try constructor.
    simpl. f_equal. apply all_none_repeat, Hnone.
Qed.

Lemma empty_125_ranked : ranked empty_125.
Proof.
  apply all_none_ranked, Forall_forall.
  intros slot Hslot. now apply repeat_spec in Hslot.
Qed.

Lemma place_full (v : Player) (l : list (option Player)) :
  full_at_least (amount v) l -> place v l = l.
Proof.
  induction 1 as [|slot rest (o & -> & Ho) _ IH]; [reflexivity|].
  cbn [place]. destruct (amount v >? amount o) eqn:Hgt.
  - apply Z.gtb_lt in Hgt. lia.
  - now rewrite IH.
Qed.

(** ** Claims on the ranked set *)

(** C2. After any sequence of records is ingested into the empty set of
    125 slots, the loop has returned, the slots are the occupants in
    descending order of salary followed by the empty slots, and every
    valid record of the sequence is either in the set or faces a set
    whose 125 slots are all occupied by records of salary at least its
    own. In particular a record whose amount equals the salary of every
    occupant of a full set leaves the set as it is. *)
Theorem ranked_set_after_ingestion :
  (forall players : list Player,
     exists highest n,
       crawl_players_loop players (empty_125, 0) = Ok (highest, n)
       /\ length highest = 125%nat
       /\ RankedSet highest
       /\ (forall p, In p players -> valid p ->
             In (Some p) highest \/ full_at_least (amount p) highest))
  /\ (forall (array : list (option Player)) (v : Player),
        valid v ->
        Forall (fun slot => exists o, slot = Some o /\ valid o
                                      /\ amount o = amount v) array ->
        insert_in_limited_array v salary_gt array = Ok array).
Proof.
  split.
  - intros players.
    destruct (crawl_players_loop_spec players empty_125 0 empty_125_ranked)
      as (highest & n & Hrun & Hranked & Hlen & _ & Hkeep & _).
    exists highest, n. repeat split.
    + exact Hrun.
    + rewrite Hlen. reflexivity.
    + apply ranked_RankedSet, Hranked.
    + intros p Hin Hp. apply (Hkeep p Hp). right. right. exact Hin.
  - intros array v Hv Hall.
    rewrite insert_in_limited_array_place; [|exact Hv|].
    + f_equal. apply place_full.
      eapply Forall_impl; [|exact Hall].
      intros slot (o & -> & _ & Heq). exists o. split; [reflexivity|lia].
    + eapply Forall_impl; [|exact Hall].
      intros slot (o & -> & Ho & _). exact Ho.
Qed.

Lemma ranked_set_after_ingestion_witness :
  insert_in_limited_array record_a salary_gt full_of_500 = Ok full_of_500.
Proof.
  apply (proj2 ranked_set_after_ingestion); [reflexivity|].
  apply Forall_forall. intros slot Hslot.
  apply repeat_spec in Hslot. subst slot.
  exists (player_with (SalaryInt 500)). repeat split.
Defined.

(** C6. An insertion leaves the number of slots as it was, whatever the
    comparison; each turn of the ingestion loop keeps the 125 slots; and
    after any sequence of records the set has 125 slots, so at most 125
    occupants. *)
Theorem capacity_invariant :
  (forall (A : Type) (gt : A -> A -> result bool) (value : A)
          (array array' : list (option A)),
      insert_in_limited_array value gt array = Ok array' ->
      length array' = length array)
  /\ (forall (highest highest' : list (option Player)) (n n' : Z)
             (p : Player),
        length highest = 125%nat ->
        crawl_players_step (highest, n) p = Ok (highest', n') ->
        length highest' = 125%nat)
  /\ (forall players : list Player,
        exists highest n,
          crawl_players_loop players (empty_125, 0) = Ok (highest, n)
          /\ length highest = 125%nat
          /\ (occupants_count highest <= 125)%nat).
Proof.
  split; [|split].
  - intros A gt value array array'.
    apply insert_in_limited_array_length.
  - intros highest highest' n n' p Hlen. unfold crawl_players_step.
    destruct (isinstance_int (salary p)).
    + destruct (insert_in_limited_array p salary_gt highest) as [h|e] eqn:E;
        simpl; [|discriminate].
      intros [= <- _]. rewrite <- Hlen.
      eapply insert_in_limited_array_length. exact E.
    + intros [= <- _]. exact Hlen.
  - intros players.
    destruct (crawl_players_loop_spec players empty_125 0 empty_125_ranked)
      as (highest & n & Hrun & _ & Hlen & _).
    exists highest, n. repeat split; [exact Hrun | now rewrite Hlen |].
    unfold occupants_count.
    assert (H125 : length highest = 125%nat) by now rewrite Hlen.
    rewrite <- H125. apply filter_length_le.
Qed.

Lemma capacity_invariant_witness :
  length (Some record_a :: removelast three_occupants)
  = length three_occupants.
Proof.
  apply (proj1 capacity_invariant Player salary_gt record_a).
  reflexivity.
Defined.

(** ** Ties *)






(** ** True division of two [int] *)

Lemma pow2_pos (e : Z) : 0 < 2 ^ Z.max 0 e.
Proof. apply Z.pow_pos_nonneg; lia. Qed.

Lemma pow2_split (e : Z) :
  (0 <= e /\ 2 ^ Z.max 0 e = 2 ^ e /\ 2 ^ Z.max 0 (- e) = 1)
  \/ (e < 0 /\ 2 ^ Z.max 0 e = 1 /\ 2 ^ Z.max 0 (- e) = 2 ^ (- e)).
Proof.
  destruct (Z_lt_le_dec e 0) as [H|H].
  - right. split; [exact H|].
    rewrite (Z.max_l 0 e), (Z.max_r 0 (- e)) by lia. now split.
  - left. split; [exact H|].
    rewrite (Z.max_r 0 e), (Z.max_l 0 (- e)) by lia. now split.
Qed.

(** [2 ^ e2 = 2 ^ (e2 - e1) * 2 ^ e1], on the two halves of the
    exponents. *)
Lemma pow2_shift (e1 e2 : Z) :
  e1 <= e2 ->
  2 ^ Z.max 0 e2 * 2 ^ Z.max 0 (- e1)
  = 2 ^ (e2 - e1) * (2 ^ Z.max 0 e1 * 2 ^ Z.max 0 (- e2)).
Proof.
  intros H.
  destruct (pow2_split e1) as [(H1 & -> & ->)|(H1 & -> & ->)];
    destruct (pow2_split e2) as [(H2 & -> & ->)|(H2 & -> & ->)]; try lia.
  - rewrite !Z.mul_1_r, <- Z.pow_add_r by lia. f_equal; lia.
  - rewrite !Z.mul_1_r, <- Z.pow_add_r by lia. f_equal; lia.
  - rewrite !Z.mul_1_l, <- Z.pow_add_r by lia. f_equal; lia.
Qed.

(** [x * 2 ^ e2 <= n / d] read at the exponent [e1]. *)
Lemma dyadic_le_shift (n d x e1 e2 : Z) :
  0 < d -> e1 <= e2 ->
  (x * (d * 2 ^ Z.max 0 e2) <= n * 2 ^ Z.max 0 (- e2)
   <-> x * 2 ^ (e2 - e1) * (d * 2 ^ Z.max 0 e1) <= n * 2 ^ Z.max 0 (- e1)).
Proof.
  intros Hd He. pose proof (pow2_shift e1 e2 He) as Hs.
  pose proof (pow2_pos e1) as P1. pose proof (pow2_pos (- e1)) as R1.
  pose proof (pow2_pos e2) as P2. pose proof (pow2_pos (- e2)) as R2.
  set (p1 := 2 ^ Z.max 0 e1) in *. set (r1 := 2 ^ Z.max 0 (- e1)) in *.
  set (p2 := 2 ^ Z.max 0 e2) in *. set (r2 := 2 ^ Z.max 0 (- e2)) in *.
  set (t := 2 ^ (e2 - e1)) in *.
  split; intros H.
  - apply (Z.mul_le_mono_pos_r _ _ r2); [exact R2|].
    replace (x * t * (d * p1) * r2) with (x * d * (t * (p1 * r2))) by ring.
    rewrite <- Hs.
    replace (x * d * (p2 * r1)) with (x * (d * p2) * r1) by ring.
    replace (n * r1 * r2) with (n * r2 * r1) by ring.
    apply Z.mul_le_mono_nonneg_r; lia.
  - apply (Z.mul_le_mono_pos_r _ _ r1); [exact R1|].
    replace (x * (d * p2) * r1) with (x * d * (p2 * r1)) by ring.
    rewrite Hs.
    replace (x * d * (t * (p1 * r2))) with (x * t * (d * p1) * r2) by ring.
    replace (n * r2 * r1) with (n * r1 * r2) by ring.
    apply Z.mul_le_mono_nonneg_r; lia.
Qed.

Lemma dyadic_lt_shift (n d x e1 e2 : Z) :
  0 < d -> e1 <= e2 ->
  (n * 2 ^ Z.max 0 (- e2) < x * (d * 2 ^ Z.max 0 e2)
   <-> n * 2 ^ Z.max 0 (- e1) < x * 2 ^ (e2 - e1) * (d * 2 ^ Z.max 0 e1)).
Proof.
  intros Hd He. pose proof (pow2_shift e1 e2 He) as Hs.
  pose proof (pow2_pos e1) as P1. pose proof (pow2_pos (- e1)) as R1.
  pose proof (pow2_pos e2) as P2. pose proof (pow2_pos (- e2)) as R2.
  set (p1 := 2 ^ Z.max 0 e1) in *. set (r1 := 2 ^ Z.max 0 (- e1)) in *.
  set (p2 := 2 ^ Z.max 0 e2) in *. set (r2 := 2 ^ Z.max 0 (- e2)) in *.
  set (t := 2 ^ (e2 - e1)) in *.
  split; intros H.
  - apply (Z.mul_lt_mono_pos_r r2); [exact R2|].
    replace (x * t * (d * p1) * r2) with (x * d * (t * (p1 * r2))) by ring.
    rewrite <- Hs.
    replace (x * d * (p2 * r1)) with (x * (d * p2) * r1) by ring.
    replace (n * r1 * r2) with (n * r2 * r1) by ring.
    apply Z.mul_lt_mono_pos_r; lia.
  - apply (Z.mul_lt_mono_pos_r r1); [exact R1|].
    replace (x * (d * p2) * r1) with (x * d * (p2 * r1)) by ring.
    rewrite Hs.
    replace (x * d * (t * (p1 * r2))) with (x * t * (d * p1) * r2) by ring.
    replace (n * r2 * r1) with (n * r1 * r2) by ring.
    apply Z.mul_lt_mono_pos_r; lia.
Qed.

(** [2 ^ k <= n / d < 2 ^ (k + 1)] at [k = floor_log2_quot n d]. *)
Lemma floor_log2_quot_spec (n d : Z) :
  0 < n -> 0 < d ->
  let k := Py.floor_log2_quot n d in
  1 * (d * 2 ^ Z.max 0 k) <= n * 2 ^ Z.max 0 (- k)
  /\ n * 2 ^ Z.max 0 (- (k + 1)) < 1 * (d * 2 ^ Z.max 0 (k + 1)).
Proof.
  intros Hn Hd. cbv zeta. unfold Py.floor_log2_quot.
  destruct (Z.log2_spec n Hn) as [Hn1 Hn2].
  destruct (Z.log2_spec d Hd) as [Hd1 Hd2].
  pose proof (Z.log2_nonneg n) as Ha. pose proof (Z.log2_nonneg d) as Hb.
  set (a := Z.log2 n) in *. set (b := Z.log2 d) in *.
  rewrite Z.pow_succ_r in Hn2, Hd2 by lia.
  assert (Hpa : 0 < 2 ^ a) by (apply Z.pow_pos_nonneg; lia).
  assert (Hpb : 0 < 2 ^ b) by (apply Z.pow_pos_nonneg; lia).
  cbv zeta.
  destruct (Z.leb_spec (d * 2 ^ Z.max 0 (a - b))
                       (n * 2 ^ Z.max 0 (- (a - b)))) as [Ht|Ht].
  - split; [lia|].
    destruct (pow2_split (a - b + 1)) as [(H1 & -> & ->)|(H1 & -> & ->)].
    + assert (E : 2 ^ (a - b + 1) * 2 ^ b = 2 * 2 ^ a).
      { rewrite <- Z.pow_add_r by lia.
        replace (a - b + 1 + b) with (Z.succ a) by lia.
        now rewrite Z.pow_succ_r by lia. }
      assert (0 < 2 ^ (a - b + 1)) by (apply Z.pow_pos_nonneg; lia).
      nia.
    + assert (E : 2 * 2 ^ a * 2 ^ (- (a - b + 1)) = 2 ^ b).
      { rewrite <- Z.pow_succ_r, <- Z.pow_add_r by lia. f_equal. lia. }
      assert (0 < 2 ^ (- (a - b + 1))) by (apply Z.pow_pos_nonneg; lia).
      nia.
  - replace (a - b - 1 + 1) with (a - b) by lia. split; [|lia].
    destruct (pow2_split (a - b - 1)) as [(H1 & -> & ->)|(H1 & -> & ->)].
    + assert (E : 2 * 2 ^ b * 2 ^ (a - b - 1) = 2 ^ a).
      { rewrite <- Z.pow_succ_r, <- Z.pow_add_r by lia. f_equal. lia. }
      assert (0 < 2 ^ (a - b - 1)) by (apply Z.pow_pos_nonneg; lia).
      nia.
    + assert (E : 2 ^ a * 2 ^ (- (a - b - 1)) = 2 * 2 ^ b).
      { rewrite <- Z.pow_add_r by lia.
        replace (a + - (a - b - 1)) with (Z.succ b) by lia.
        now rewrite Z.pow_succ_r by lia. }
      assert (0 < 2 ^ (- (a - b - 1))) by (apply Z.pow_pos_nonneg; lia).
      nia.
Qed.

(** [round_half_even num den] is an integer nearest to [num / den], and
    the even one of the two when [num / den] is half way. *)
Lemma round_half_even_spec (num den : Z) :
  0 < den -> 0 <= num ->
  let m := Py.round_half_even num den in
  0 <= m
  /\ 2 * Z.abs (m * den - num) <= den
  /\ (2 * Z.abs (m * den - num) = den -> Z.even m = true)
  /\ (forall l, l * den <= num -> l <= m)
  /\ (forall u, num <= u * den -> m <= u).
Proof.
  intros Hden Hnum. cbv zeta. unfold Py.round_half_even.
  pose proof (Z.div_mod num den ltac:(lia)) as Hdm.
  pose proof (Z.mod_pos_bound num den Hden) as Hr.
  pose proof (Z.div_pos num den Hnum Hden) as Hq.
  set (q := num / den) in *. set (r := num mod den) in *.
  assert (Hl : forall l, l * den <= num -> l <= q).
  { intros l Hle. apply Z.div_le_lower_bound; lia. }
  assert (Hu : forall u, num <= u * den -> q + 1 <= u \/ (q = u /\ r = 0)).
  { intros u Hle.
    destruct (Z_lt_le_dec q u) as [H|H]; [left; lia|].
    right. nia. }
  destruct (Z.ltb_spec (2 * r) den) as [H1|H1];
    [|destruct (Z.ltb_spec den (2 * r)) as [H2|H2];
      [|destruct (Z.even q) eqn:E]].
  - split; [lia|]. split; [nia|]. split; [intros H; nia|].
    split; [exact Hl|]. intros u Hle. destruct (Hu u Hle); lia.
  - split; [lia|]. split; [nia|]. split; [intros H; nia|].
    split; [intros l Hle; specialize (Hl l Hle); lia|].
    intros u Hle. destruct (Hu u Hle) as [H|[_ H]]; lia.
  - split; [lia|]. split; [nia|]. split; [intros _; exact E|].
    split; [exact Hl|]. intros u Hle. destruct (Hu u Hle); lia.
  - split; [lia|]. split; [nia|]. split.
    + intros _. rewrite Z.add_1_r, Z.even_succ, <- Z.negb_even, E.
      reflexivity.
    + split; [intros l Hle; specialize (Hl l Hle); lia|].
      intros u Hle. destruct (Hu u Hle) as [H|[_ H]]; lia.
Qed.

(** The exponent and the rounded mantissa that [true_divide] computes
    for a quotient below the overflow threshold. *)
Lemma true_divide_core (n d : Z) :
  0 < n -> 0 < d -> n < Py.overflow_threshold * d ->
  let e := Z.max (-1074) (Py.floor_log2_quot n d - 52) in
  let m := Py.round_half_even (n * 2 ^ Z.max 0 (- e)) (d * 2 ^ Z.max 0 e) in
  -1074 <= e <= 971
  /\ 0 <= m <= 2 ^ 53
  /\ 2 * Z.abs (m * (d * 2 ^ Z.max 0 e) - n * 2 ^ Z.max 0 (- e))
     <= d * 2 ^ Z.max 0 e
  /\ (2 * Z.abs (m * (d * 2 ^ Z.max 0 e) - n * 2 ^ Z.max 0 (- e))
      = d * 2 ^ Z.max 0 e -> Z.even m = true)
  /\ (2 ^ 52 <= m \/ e = -1074)
  /\ (m = 2 ^ 53 -> e < 971).
Proof.
  intros Hn Hd Hfits. cbv zeta.
  destruct (floor_log2_quot_spec n d Hn Hd) as [Hlow Hup].
  set (k := Py.floor_log2_quot n d) in *.
  set (e := Z.max (-1074) (k - 52)).
  pose proof (pow2_pos e) as HP. pose proof (pow2_pos (- e)) as HR.
  assert (HD : 0 < d * 2 ^ Z.max 0 e) by nia.
  assert (HN : 0 <= n * 2 ^ Z.max 0 (- e)) by nia.
  destruct (round_half_even_spec _ _ HD HN) as (Hm0 & Hnear & Heven & Hl & Hu).
  set (m := Py.round_half_even (n * 2 ^ Z.max 0 (- e)) (d * 2 ^ Z.max 0 e))
    in *.
  assert (Hk : k <= 1023).
  { destruct (Z_le_gt_dec k 1023) as [H|H]; [exact H|]. exfalso.
    rewrite (Z.max_r 0 k), (Z.max_l 0 (- k)), Z.pow_0_r in Hlow by lia.
    assert (Hpow : 2 ^ 1024 <= 2 ^ k) by (apply Z.pow_le_mono_r; lia).
    assert (H970 : 0 < 2 ^ 970) by (apply Z.pow_pos_nonneg; lia).
    unfold Py.overflow_threshold in Hfits.
    set (t := 2 ^ 1024) in *. set (u := 2 ^ 970) in *. nia. }
  assert (He : -1074 <= e <= 971) by (unfold e; lia).
  assert (Hupper : n * 2 ^ Z.max 0 (- e) <= 2 ^ 53 * (d * 2 ^ Z.max 0 e)).
  { destruct (Z_le_gt_dec e (k + 1)) as [H|H].
    - apply (dyadic_lt_shift n d 1 e (k + 1) Hd H) in Hup.
      assert (Hpow : 2 ^ (k + 1 - e) <= 2 ^ 53)
        by (apply Z.pow_le_mono_r; unfold e; lia).
      rewrite Z.mul_1_l in Hup.
      apply Z.lt_le_incl. eapply Z.lt_le_trans; [exact Hup|].
      apply Z.mul_le_mono_nonneg_r; lia.
    - assert (Hone : n * 2 ^ Z.max 0 (- e) < 1 * (d * 2 ^ Z.max 0 e)).
      { apply (dyadic_lt_shift n d 1 (k + 1) e Hd ltac:(lia)).
        assert (Hpow : 0 < 2 ^ (e - (k + 1)))
          by (apply Z.pow_pos_nonneg; lia).
        pose proof (pow2_pos (k + 1)). nia. }
      assert (0 < 2 ^ 53) by (apply Z.pow_pos_nonneg; lia).
      set (t := 2 ^ 53) in *. nia. }
  assert (Hm53 : m <= 2 ^ 53) by (apply Hu; lia).
  split; [exact He|]. split; [lia|]. split; [exact Hnear|].
  split; [exact Heven|]. split.
  - destruct (Z.eq_dec e (-1074)) as [E|E]; [now right|]. left.
    assert (Hek : e = k - 52) by (unfold e in *; lia).
    apply Hl.
    apply (dyadic_le_shift n d 1 e k Hd ltac:(lia)) in Hlow.
    replace (k - e) with 52 in Hlow by lia. lia.
  - intros Hmax.
    destruct (Z.eq_dec e 971) as [E|E]; [exfalso|lia].
    rewrite Hmax, E in Hnear.
    change (Z.max 0 971) with 971 in Hnear.
    change (Z.max 0 (- 971)) with 0 in Hnear.
    rewrite Z.pow_0_r, Z.mul_1_r in Hnear.
    assert (Hthr : (2 * 2 ^ 53 - 1) * 2 ^ 971 = 2 * Py.overflow_threshold)
      by (vm_compute; reflexivity).
    assert (H971 : 0 < 2 ^ 971) by (apply Z.pow_pos_nonneg; lia).
    set (t := 2 ^ 971) in *. set (u := 2 ^ 53) in *.
    set (thr := Py.overflow_threshold) in *. nia.
Qed.

(** [true_divide] returns a double, with the sign of the quotient, at
    most half a unit in the last place away from it; when the quotient
    is half way between two doubles the mantissa returned is even. The
    distance is written on integers: [m * 2 ^ e] against [|a| / |b|],
    both multiplied by [|b|] and by a power of two. *)
Lemma true_divide_rounds (a b : Z) (f : float) :
  Py.true_divide a b = Ok f ->
  b <> 0
  /\ Z.abs a < Py.overflow_threshold * Z.abs b
  /\ match f with
     | FloatZero negative =>
         negative = xorb (a <? 0) (b <? 0)
         /\ 2 * (Z.abs a * 2 ^ 1074) <= Z.abs b
     | FloatFinite negative m e =>
         negative = xorb (a <? 0) (b <? 0)
         /\ Z.pos m < 2 ^ 53
         /\ -1074 <= e <= 971
         /\ (2 ^ 52 <= Z.pos m \/ e = -1074)
         /\ 2 * Z.abs (Z.pos m * (Z.abs b * 2 ^ Z.max 0 e)
                       - Z.abs a * 2 ^ Z.max 0 (- e))
            <= Z.abs b * 2 ^ Z.max 0 e
         /\ (2 * Z.abs (Z.pos m * (Z.abs b * 2 ^ Z.max 0 e)
                        - Z.abs a * 2 ^ Z.max 0 (- e))
             = Z.abs b * 2 ^ Z.max 0 e -> Z.even (Z.pos m) = true)
     end.
Proof.
  unfold Py.true_divide. cbv zeta.
  destruct (Z.eqb_spec b 0) as [Hb|Hb]; [discriminate|].
  destruct (Z.leb_spec (Py.overflow_threshold * Z.abs b) (Z.abs a))
    as [Hover|Hfits]; [discriminate|].
  destruct (Z.eqb_spec (Z.abs a) 0) as [Ha|Ha].
  - intros [= <-]. split; [exact Hb|]. split; [exact Hfits|].
    split; [reflexivity|]. rewrite Ha. lia.
  - assert (Hn : 0 < Z.abs a) by lia. assert (Hd : 0 < Z.abs b) by lia.
    destruct (true_divide_core (Z.abs a) (Z.abs b) Hn Hd Hfits)
      as (He & Hm & Hnear & Heven & Hnorm & Htop).
    set (e := Z.max (-1074) (Py.floor_log2_quot (Z.abs a) (Z.abs b) - 52))
      in *.
    destruct (Py.round_half_even _ _) as [|m|m] eqn:Hround.
    + intros [= <-]. split; [exact Hb|]. split; [exact Hfits|].
      split; [reflexivity|].
      destruct Hnorm as [H|H].
      * assert (0 < 2 ^ 52) by (apply Z.pow_pos_nonneg; lia). lia.
      * rewrite H in Hnear.
        change (Z.max 0 (-1074)) with 0 in Hnear.
        change (Z.max 0 (- -1074)) with 1074 in Hnear.
        rewrite Z.pow_0_r in Hnear. lia.
    + destruct (Z.eqb_spec (Z.pos m) (2 ^ 53)) as [Hmax|Hmax].
      * intros [= <-]. split; [exact Hb|]. split; [exact Hfits|].
        split; [reflexivity|].
        specialize (Htop Hmax).
        assert (H52 : Z.pos (2 ^ 52) = 2 ^ 52) by reflexivity.
        assert (H53 : 2 ^ 53 = 2 * 2 ^ 52) by reflexivity.
        rewrite H52. rewrite Hmax, H53 in Hnear.
        assert (Hp : 0 < 2 ^ 52) by (apply Z.pow_pos_nonneg; lia).
        set (t := 2 ^ 52) in *.
        split; [lia|]. split; [lia|]. split; [left; lia|].
        pose proof (pow2_pos e) as HP. pose proof (pow2_pos (- e)) as HR.
        pose proof (pow2_pos (e + 1)) as HP'.
        pose proof (pow2_pos (- (e + 1))) as HR'.
        assert (Hgoal : 2 * Z.abs (t * (Z.abs b * 2 ^ Z.max 0 (e + 1))
                                   - Z.abs a * 2 ^ Z.max 0 (- (e + 1)))
                        < Z.abs b * 2 ^ Z.max 0 (e + 1)).
        { destruct (Z_lt_le_dec e 0) as [Hneg|Hpos].
          - rewrite (Z.max_l 0 (e + 1)), Z.pow_0_r in * by lia.
            rewrite (Z.max_l 0 e), Z.pow_0_r in * by lia.
            rewrite (Z.max_r 0 (- e)) in * by lia.
            rewrite (Z.max_r 0 (- (e + 1))) in * by lia.
            replace (- e) with (Z.succ (- (e + 1))) in Hnear by lia.
            rewrite Z.pow_succ_r in Hnear by lia.
            set (r := 2 ^ (- (e + 1))) in *. nia.
          - rewrite (Z.max_r 0 (e + 1)) in * by lia.
            rewrite (Z.max_r 0 e) in * by lia.
            rewrite (Z.max_l 0 (- e)), Z.pow_0_r in * by lia.
            rewrite (Z.max_l 0 (- (e + 1))), Z.pow_0_r in * by lia.
            replace (e + 1) with (Z.succ e) by lia.
            rewrite Z.pow_succ_r by lia.
            set (p := 2 ^ e) in *. nia. }
        split; [lia|]. intros Heq. lia.
      * intros [= <-]. split; [exact Hb|]. split; [exact Hfits|].
        split; [reflexivity|]. split; [lia|]. split; [exact He|].
        split; [exact Hnorm|]. split; [exact Hnear | exact Heven].
    + intros _. lia.
Qed.

Lemma Qpower2_halves (e : Z) :
  (Qpower 2 e
   == inject_Z (2 ^ Z.max 0 e) / inject_Z (2 ^ Z.max 0 (- e)))%Q.
Proof.
  destruct (pow2_split e) as [(H & -> & ->)|(H & -> & ->)].
  - rewrite (Zpower_Qpower 2 e H). unfold Qdiv.
    change (/ inject_Z 1)%Q with 1%Q. now rewrite Qmult_1_r.
  - rewrite (Zpower_Qpower 2 (- e)) by lia.
    unfold Qdiv. rewrite Qmult_1_l.
    rewrite <- (Qpower_opp (inject_Z 2) (- e)), Z.opp_involutive.
    reflexivity.
Qed.

Lemma Qpower2_pred (e : Z) : (Qpower 2 (e - 1) == Qpower 2 e * (1 # 2))%Q.
Proof.
  unfold Z.sub. rewrite Qpower_plus by discriminate. reflexivity.
Qed.

(** From the distance on integers to the distance on rationals. *)
Lemma dyadic_distance (negative : bool) (m e a b : Z) :
  b <> 0 ->
  negative = xorb (a <? 0) (b <? 0) ->
  2 * Z.abs (m * (Z.abs b * 2 ^ Z.max 0 e) - Z.abs a * 2 ^ Z.max 0 (- e))
  <= Z.abs b * 2 ^ Z.max 0 e ->
  (Qabs ((if negative then -1 else 1) * inject_Z m * Qpower 2 e
         - inject_Z a / inject_Z b)
   <= Qpower 2 e * (1 # 2))%Q.
Proof.
  intros Hb -> Hnear.
  rewrite (Qpower2_halves e).
  pose proof (pow2_pos e) as HP. pose proof (pow2_pos (- e)) as HR.
  destruct (2 ^ Z.max 0 e) as [|p|p]; try lia.
  destruct (2 ^ Z.max 0 (- e)) as [|r|r]; try lia.
  apply Qabs_Qle_condition.
  destruct b as [|bp|bp]; [contradiction| |];
    destruct a as [|ap|ap];
    cbn [Z.ltb Z.compare xorb Z.abs] in *;
    unfold Qle, Qminus, Qplus, Qopp, Qdiv, Qmult, Qinv, inject_Z;
    cbn [Qnum Qden Z.opp]; split; nia.
Qed.

(** The three outcomes of a division of two [int]. *)
Lemma true_divide_cases (a b : Z) :
  (b = 0 /\ Py.true_divide a b = Raise ZeroDivisionError)
  \/ (b <> 0 /\ Py.overflow_threshold * Z.abs b <= Z.abs a
      /\ Py.true_divide a b = Raise OverflowError)
  \/ (b <> 0 /\ Z.abs a < Py.overflow_threshold * Z.abs b
      /\ exists f, Py.true_divide a b = Ok f).
Proof.
  unfold Py.true_divide. cbv zeta.
  destruct (Z.eqb_spec b 0) as [Hb|Hb]; [left; auto|]. right.
  destruct (Z.leb_spec (Py.overflow_threshold * Z.abs b) (Z.abs a))
    as [Hover|Hover]; [left; auto|].
  right. split; [exact Hb|]. split; [exact Hover|].
  destruct (Z.abs a =? 0); [eauto|].
  destruct (Py.round_half_even _ _) as [|m|m]; eauto.
  destruct (Z.pos m =? 2 ^ 53); eauto.
Qed.

(** What [true_divide] returns is a double at most half a unit in the
    last place away from the quotient, and it is not negative when the
    two [int] are not. *)
Lemma true_divide_nearest (a b : Z) (f : float) :
  Py.true_divide a b = Ok f ->
  is_double f
  /\ (Qabs (float_value f - inject_Z a / inject_Z b) <= half_ulp f)%Q
  /\ (0 <= a -> 0 <= b -> (0 <= float_value f)%Q).
Proof.
  intros H. apply true_divide_rounds in H as (Hb & _ & H).
  destruct f as [negative|negative m e].
  - destruct H as [Hsign Hnear]. split; [exact I|]. split.
    + pose proof (dyadic_distance negative 0 (-1074) a b Hb Hsign) as Hq.
      change (Z.max 0 (-1074)) with 0 in Hq.
      change (Z.max 0 (- -1074)) with 1074 in Hq.
      rewrite Z.pow_0_r in Hq. specialize (Hq ltac:(lia)).
      unfold float_value, half_ulp.
      change (-1075) with (-1074 - 1). rewrite Qpower2_pred.
      assert (E : ((if negative then -1 else 1) * inject_Z 0
                   * Qpower 2 (-1074) == 0)%Q).
      { change (inject_Z 0) with 0%Q.
        now rewrite Qmult_0_r, Qmult_0_l. }
      rewrite <- E. exact Hq.
    + intros _ _. apply Qle_refl.
  - destruct H as (Hsign & Hm & He & Hnorm & Hnear & _).
    split; [repeat split; auto; lia|]. split.
    + unfold float_value, half_ulp. rewrite Qpower2_pred.
      now apply dyadic_distance.
    + intros Ha H0. unfold float_value.
      replace negative with false.
      * apply Qmult_le_0_compat; [|apply Qpower_0_le; discriminate].
        discriminate.
      * rewrite Hsign.
        destruct (Z.ltb_spec a 0); destruct (Z.ltb_spec b 0);
          try lia; reflexivity.
Qed.

(** ** [average] *)

Lemma average_total_valid (array : list (option Player)) :
  Forall slot_valid array ->
  forall total,
    average_total array salary total = Ok (total + sum_amounts array).
Proof.
  induction 1 as [|slot rest Hslot _ IH]; intros total; simpl.
  - f_equal. lia.
  - destruct slot as [p|]; [|apply IH].
    unfold slot_valid, valid in Hslot. unfold amount, add_to_total.
    destruct (salary p) as [n|s]; [|discriminate].
    simpl. rewrite IH. f_equal. unfold amount. lia.
Qed.

Lemma average_valid (array : list (option Player)) :
  Forall slot_valid array ->
  average array salary
  = Py.true_divide (sum_amounts array) (Z.of_nat (length array)).
Proof.
  intros Hall. unfold average.
  rewrite (average_total_valid array Hall 0). reflexivity.
Qed.

(** ** A run of [crawl_players] *)

Section CrawlFacts.

Context {BeautifulSoup : Type}.
Variable html_parser : text -> BeautifulSoup.
Variable select_tbody_tr : BeautifulSoup -> list Row.

Lemma crawl_page_ok (get : result Response) (soup : BeautifulSoup) :
  crawl_page html_parser get = Ok soup <->
  exists page,
    get = Ok page /\ status_code page = 200
    /\ soup = html_parser (response_text page).
Proof.
  unfold crawl_page. split.
  - destruct get as [page|e]; simpl; [|discriminate].
    destruct (status_code page =? 200) eqn:E; simpl; [|discriminate].
    intros [= <-]. apply Z.eqb_eq in E. now exists page.
  - intros (page & -> & Hstatus & ->). simpl.
    rewrite Hstatus. reflexivity.
Qed.

Lemma crawl_page_other_status (page : Response) :
  status_code page <> 200 ->
  crawl_page html_parser (Ok page) = Raise Exception.
Proof.
  intros Hstatus. unfold crawl_page. simpl.
  destruct (status_code page =? 200) eqn:E; [|reflexivity].
  apply Z.eqb_eq in E. contradiction.
Qed.

(** What a normal return of [crawl_players] went through. *)
Lemma crawl_players_ok (self app : App) (get : result Response) :
  crawl_players html_parser select_tbody_tr self get = Ok app ->
  exists page ps highest n q,
    get = Ok page /\ status_code page = 200
    /\ extract_players_rows
         (select_tbody_tr (html_parser (response_text page))) = Ok ps
    /\ crawl_players_loop ps (empty_125, 0) = Ok (highest, n)
    /\ average highest salary = Ok q
    /\ app = mkApp ps q n highest.
Proof.
  unfold crawl_players.
  destruct (crawl_page html_parser get) as [soup|e] eqn:Hpage;
    simpl; [|discriminate].
  apply crawl_page_ok in Hpage as (page & -> & Hstatus & ->).
  unfold extract_players.
  destruct (extract_players_rows _) as [ps|e] eqn:Hps; simpl; [|discriminate].
  destruct (crawl_players_loop ps (empty_125, 0)) as [[highest n]|e] eqn:Hloop;
    simpl; [|discriminate].
  destruct (average highest salary) as [q|e] eqn:Havg; simpl; [|discriminate].
  intros [= <-]. exists page, ps, highest, n, q. repeat split; auto.
Qed.

End CrawlFacts.

Lemma average_nearest (array : list (option Player)) (f : float) :
  Forall slot_valid array ->
  average array salary = Ok f ->
  is_double f
  /\ (Qabs (float_value f
            - inject_Z (sum_amounts array)
              / inject_Z (Z.of_nat (length array)))
      <= half_ulp f)%Q
  /\ (0 <= sum_amounts array -> (0 <= float_value f)%Q).
Proof.
  intros Hall Havg. rewrite (average_valid array Hall) in Havg.
  destruct (true_divide_nearest _ _ f Havg) as (Hd & Hnear & Hpos).
  split; [exact Hd|]. split; [exact Hnear|].
  intros Hsum. apply Hpos; lia.
Qed.

(** C3 (as the code has it). [average] over the ranked set divides the
    sum of the amounts in the occupied slots by the 125 slots, not by
    the number of occupants, with Python's true division of two [int].
    When it returns, the result is a double at most half a unit in the
    last place away from the exact quotient [sum / 125]; it raises
    [OverflowError], and nothing else, exactly when the sum is so large
    that the quotient rounds beyond the largest double. The [avg] that a
    run of [crawl_players] stores is that result. With the only
    occupants three records of salaries 300, 200 and 100 the result is
    the double written [4.8], within [2 ^ -51] of 600/125, and it is not
    200. *)
Theorem average_divides_by_capacity :
  (forall array : list (option Player),
     length array = 125%nat ->
     Forall slot_valid array ->
     average array salary = Py.true_divide (sum_amounts array) 125
     /\ (forall f : float,
           average array salary = Ok f ->
           is_double f
           /\ (Qabs (float_value f
                     - inject_Z (sum_amounts array) / inject_Z 125)
               <= half_ulp f)%Q)
     /\ (average array salary = Raise OverflowError <->
         Py.overflow_threshold * 125 <= Z.abs (sum_amounts array))
     /\ (forall e : exn,
           average array salary = Raise e -> e = OverflowError))
  /\ (forall (BeautifulSoup : Type) (html_parser : text -> BeautifulSoup)
             (select_tbody_tr : BeautifulSoup -> list Row)
             (self app : App) (get : result Response),
        crawl_players html_parser select_tbody_tr self get = Ok app ->
        Py.true_divide (sum_amounts (highest_salaries_125 app)) 125
        = Ok (avg app)
        /\ is_double (avg app)
        /\ (Qabs (float_value (avg app)
                  - inject_Z (sum_amounts (highest_salaries_125 app))
                    / inject_Z 125)
            <= half_ulp (avg app))%Q)
  /\ (exists f : float,
        average three_occupants salary = Ok f
        /\ f = FloatFinite false 5404319552844595 (-50)
        /\ (Qabs (float_value f - 4.8) <= 1 / 2 ^ 51)%Q
        /\ ~ (float_value f == 200)%Q
        /\ occupants_count three_occupants = 3%nat).
Proof.
  split; [|split].
  - intros array Hlen Hall.
    assert (Hdiv : average array salary
                   = Py.true_divide (sum_amounts array) 125)
      by (rewrite (average_valid array Hall), Hlen; reflexivity).
    split; [exact Hdiv|]. split; [|split].
    + intros f Hf. rewrite Hdiv in Hf.
      destruct (true_divide_nearest _ _ f Hf) as (Hd & Hnear & _).
      now split.
    + rewrite Hdiv.
      destruct (true_divide_cases (sum_amounts array) 125)
        as [[Hz _]|[(_ & Hover & ->)|(_ & Hfits & f & ->)]];
        [discriminate| |].
      * change (Z.abs 125) with 125 in Hover. now split.
      * change (Z.abs 125) with 125 in Hfits.
        split; [discriminate | lia].
    + intros e. rewrite Hdiv.
      destruct (true_divide_cases (sum_amounts array) 125)
        as [[Hz _]|[(_ & _ & ->)|(_ & _ & f & ->)]];
        [discriminate| |discriminate].
      now intros [= <-].
  - intros BeautifulSoup html_parser select_tbody_tr self app get Hrun.
    apply crawl_players_ok in Hrun
      as (page & ps & highest & n & q & _ & _ & _ & Hloop & Havg & ->).
    cbn [highest_salaries_125 avg].
    destruct (crawl_players_loop_spec ps empty_125 0 empty_125_ranked)
      as (highest' & n' & Hrun & Hranked & Hlen & _).
    rewrite Hloop in Hrun. injection Hrun as <- <-.
    rewrite (average_valid highest (ranked_slot_valid _ Hranked)) in Havg.
    rewrite Hlen in Havg. split; [exact Havg|].
    destruct (true_divide_nearest _ _ q Havg) as (Hd & Hnear & _).
    now split.
  - exists (FloatFinite false 5404319552844595 (-50)).
    split; [vm_compute; reflexivity|]. split; [reflexivity|].
    split; [|split; [|reflexivity]].
    + vm_compute. discriminate.
    + intros H. vm_compute in H. discriminate.
Qed.

Lemma average_divides_by_capacity_witness :
  average three_occupants salary
  = Py.true_divide (sum_amounts three_occupants) 125.
Proof.
  apply (proj1 average_divides_by_capacity three_occupants);
    [reflexivity | repeat constructor].
Defined.

(** C3, the claim as stated fails. With one record of salary
    [10 ^ 400] in the ranked set, the sum divided by 125 is beyond the
    range of a float: [average] raises [OverflowError] and returns
    nothing. *)
Lemma average_overflows :
  RankedSet one_huge_salary
  /\ length one_huge_salary = 125%nat
  /\ average one_huge_salary salary = Raise OverflowError.
Proof.
  split; [|split].
  - exists [player_with (SalaryInt (10 ^ 400))], 124%nat.
    split; [reflexivity|]. split; repeat constructor.
  - reflexivity.
  - vm_compute. reflexivity.
Qed.

(** C7 (as the code has it). [crawl_page] returns the parsed document
    exactly when the request produced a response whose status is 200;
    with any other status it raises, and so does [crawl_players], which
    then assigns nothing: no result of the run exists. *)
Theorem crawl_page_succeeds_exactly_on_200
        (BeautifulSoup : Type) (html_parser : text -> BeautifulSoup)
        (select_tbody_tr : BeautifulSoup -> list Row)
        (self : App) (page : Response) :
  (status_code page = 200 <->
   crawl_page html_parser (Ok page)
   = Ok (html_parser (response_text page)))
  /\ (status_code page <> 200 <->
      crawl_page html_parser (Ok page) = Raise Exception)
  /\ (crawl_page html_parser (Ok page) = Raise Exception ->
      crawl_players html_parser select_tbody_tr self (Ok page)
      = Raise Exception).
Proof.
  split; [|split].
  - split.
    + intros Hstatus. apply crawl_page_ok. now exists page.
    + intros H. apply crawl_page_ok in H as (page' & [= <-] & Hstatus & _).
      exact Hstatus.
  - split.
    + apply crawl_page_other_status.
    + intros H Hstatus.
      assert (Hok : crawl_page html_parser (Ok page)
                    = Ok (html_parser (response_text page))).
      { apply crawl_page_ok. now exists page. }
      congruence.
  - intros H. unfold crawl_players. now rewrite H.
Qed.

Lemma crawl_page_succeeds_exactly_on_200_witness :
  crawl_players (fun body : text => body) (fun _ : text => [])
                (mkApp [] (FloatZero false) 0 empty_125) (Ok (mkResponse 404 []))
  = Raise Exception.
Proof.
  apply (proj2 (proj2 (crawl_page_succeeds_exactly_on_200
                         text (fun body => body) (fun _ => [])
                         (mkApp [] (FloatZero false) 0 empty_125) (mkResponse 404 [])))).
  reflexivity.
Defined.

(** C7, the claim as stated fails: 204 is a 2xx status, and [crawl_page]
    raises on it. *)
Lemma crawl_page_raises_on_204 :
  200 <= status_code (mkResponse 204 []) < 300
  /\ crawl_page (fun body : text => body) (Ok (mkResponse 204 []))
     = Raise Exception.
Proof. split; [simpl; lia | reflexivity]. Qed.

(* ================================================================= *)
(** ** The pattern: derivatives decide the language *)

Lemma matches_nil_app (r1 r2 : regex) :
  matches r1 [] -> matches r2 [] -> matches (Cat r1 r2) [].
Proof. intros H1 H2. exact (MCat r1 r2 [] [] H1 H2). Qed.

Lemma matches_cat_inv (r1 r2 : regex) (s : text) :
  matches (Cat r1 r2) s ->
  exists s1 s2, s = s1 ++ s2 /\ matches r1 s1 /\ matches r2 s2.
Proof. inversion 1; subst; eauto. Qed.

Lemma matches_alt_inv (r1 r2 : regex) (s : text) :
  matches (Alt r1 r2) s -> matches r1 s \/ matches r2 s.
Proof. inversion 1; subst; auto. Qed.

Lemma nullable_spec (r : regex) : nullable r = true <-> matches r [].
Proof.
  induction r as [| |c| |r1 IH1 r2 IH2|r1 IH1 r2 IH2|r IH]; simpl.
  - split; [discriminate | inversion 1].
  - split; [constructor | reflexivity].
  - split; [discriminate | inversion 1].
  - split; [discriminate | inversion 1].
  - rewrite andb_true_iff, IH1, IH2. split.
    + intros [H1 H2]. now apply matches_nil_app.
    + intros H. apply matches_cat_inv in H as (s1 & s2 & Hs & H1 & H2).
      symmetry in Hs. apply app_eq_nil in Hs as [-> ->]. auto.
  - rewrite orb_true_iff, IH1, IH2. split.
    + intros [H|H]; [now apply MAltL | now apply MAltR].
    + inversion 1; subst; auto.
  - split; [constructor | reflexivity].
Qed.

(** A non-empty match of [Star r] starts with a non-empty match of
    [r]. *)
Lemma matches_star_cons (r : regex) (c : codepoint) (s : text) :
  matches (Star r) (c :: s) ->
  exists s1 s2,
    s = s1 ++ s2 /\ matches r (c :: s1) /\ matches (Star r) s2.
Proof.
  intros H. remember (Star r) as r' eqn:Hr. remember (c :: s) as t eqn:Ht.
  revert s Ht.
  induction H as [| | | | | | |r0 s1 s2 H1 _ H2 IH2]; intros tl Ht;
    try discriminate.
  injection Hr as ->.
  destruct s1 as [|c' s1]; simpl in Ht.
  - now apply IH2.
  - injection Ht as -> <-. exists s1, s2. auto.
Qed.

Lemma regex_eqb_eq (r : regex) :
  forall s : regex, regex_eqb r s = true -> r = s.
Proof.
  induction r as [| |c| |r1 IH1 r2 IH2|r1 IH1 r2 IH2|r IH];
    intros [| |c'| |s1 s2|s1 s2|s]; cbn [regex_eqb];
    try discriminate; try reflexivity.
  - intros H. apply N.eqb_eq in H. now subst.
  - intros H. apply andb_true_iff in H as [H1 H2].
    now rewrite (IH1 s1 H1), (IH2 s2 H2).
  - intros H. apply andb_true_iff in H as [H1 H2].
    now rewrite (IH1 s1 H1), (IH2 s2 H2).
  - intros H. now rewrite (IH s H).
Qed.

Lemma matches_cat (r1 r2 : regex) (s : text) :
  matches (cat r1 r2) s <-> matches (Cat r1 r2) s.
Proof.
  destruct r1; cbv beta iota delta [cat]; try reflexivity.
  - split; [inversion 1|].
    intros H. apply matches_cat_inv in H as (s1 & s2 & _ & H1 & _).
    inversion H1.
  - split.
    + intros H. exact (MCat Eps r2 [] s MEps H).
    + intros H. apply matches_cat_inv in H as (s1 & s2 & -> & H1 & H2).
      inversion H1; subst. exact H2.
Qed.

Lemma matches_alt (r1 r2 : regex) (s : text) :
  matches (alt r1 r2) s <-> matches (Alt r1 r2) s.
Proof.
  assert (Hleft : forall r, matches r s <-> matches (Alt Void r) s).
  { intros r. split; [apply MAltR|].
    intros H. apply matches_alt_inv in H as [H|H]; [inversion H | exact H]. }
  assert (Hright : forall r, matches r s <-> matches (Alt r Void) s).
  { intros r. split; [apply MAltL|].
    intros H. apply matches_alt_inv in H as [H|H]; [exact H | inversion H]. }
  assert (Hsame : regex_eqb r1 r2 = true ->
                  (matches r1 s <-> matches (Alt r1 r2) s)).
  { intros E. apply regex_eqb_eq in E as <-. split; [apply MAltL|].
    intros H. now apply matches_alt_inv in H as [H|H]. }
  destruct r1; [apply Hleft|..];
    (destruct r2; [apply Hright|..]);
    cbv beta iota delta [alt];
    match goal with
    | |- context [regex_eqb ?a ?b] =>
        destruct (regex_eqb a b) eqn:E; [now apply Hsame | reflexivity]
    end.
Qed.

Lemma der_spec (r : regex) :
  forall (c : codepoint) (s : text),
    matches (der c r) s <-> matches r (c :: s).
Proof.
  induction r as [| |c'| |r1 IH1 r2 IH2|r1 IH1 r2 IH2|r IH];
    intros c s; cbn [der].
  - split; inversion 1.
  - split; inversion 1.
  - destruct (N.eqb_spec c c') as [->|Hne]; split.
    + inversion 1; subst. constructor.
    + inversion 1; subst. constructor.
    + inversion 1.
    + inversion 1; subst. contradiction.
  - destruct (is_decimal c) eqn:Hc; split.
    + inversion 1; subst. now constructor.
    + inversion 1; subst. constructor.
    + inversion 1.
    + inversion 1; subst. congruence.
  - assert (Hleft : forall s', matches (cat (der c r1) r2) s' ->
                              matches (Cat r1 r2) (c :: s')).
    { intros s' H. apply matches_cat in H.
      apply matches_cat_inv in H as (s1 & s2 & -> & H1 & H2).
      apply IH1 in H1. exact (MCat r1 r2 (c :: s1) s2 H1 H2). }
    assert (Hsplit : matches (Cat r1 r2) (c :: s) ->
                     matches (cat (der c r1) r2) s
                     \/ (matches r1 [] /\ matches r2 (c :: s))).
    { intros H. apply matches_cat_inv in H as (s1 & s2 & Hs & H1 & H2).
      destruct s1 as [|c1 s1]; simpl in Hs.
      - right. subst. auto.
      - injection Hs as <- ->. left. apply matches_cat.
        apply MCat; [now apply IH1 | exact H2]. }
    destruct (nullable r1) eqn:Hn; split.
    + intros H. apply matches_alt in H.
      apply matches_alt_inv in H as [H|H]; [now apply Hleft|].
      apply nullable_spec in Hn. apply IH2 in H.
      exact (MCat r1 r2 [] (c :: s) Hn H).
    + intros H. apply matches_alt. destruct (Hsplit H) as [H'|[_ H']];
        [now apply MAltL | apply MAltR; now apply IH2].
    + apply Hleft.
    + intros H. destruct (Hsplit H) as [H'|[H' _]]; [exact H'|].
      apply nullable_spec in H'. congruence.
  - split; intros H.
    + apply matches_alt in H. apply matches_alt_inv in H as [H|H];
        [apply MAltL; now apply IH1 | apply MAltR; now apply IH2].
    + apply matches_alt. apply matches_alt_inv in H as [H|H];
        [apply MAltL; now apply IH1 | apply MAltR; now apply IH2].
  - split.
    + intros H. apply matches_cat in H.
      apply matches_cat_inv in H as (s1 & s2 & -> & H1 & H2).
      apply IH in H1. exact (MStarApp r (c :: s1) s2 H1 H2).
    + intros H. apply matches_star_cons in H as (s1 & s2 & -> & H1 & H2).
      apply matches_cat. apply MCat; [now apply IH | exact H2].
Qed.

Lemma accepts_spec (s : text) :
  forall r : regex, accepts r s = true <-> matches r s.
Proof.
  unfold accepts. induction s as [|c s IH]; intros r; simpl.
  - apply nullable_spec.
  - rewrite IH. apply der_spec.
Qed.

(** ** The language of the pattern *)

Lemma matches_star_concat (r : regex) (s : text) :
  matches (Star r) s <->
  exists pieces, s = concat pieces /\ Forall (matches r) pieces.
Proof.
  split.
  - intros H. remember (Star r) as r' eqn:Hr.
    induction H as [| | | | | | |r0 s1 s2 H1 _ H2 IH2]; try discriminate.
    + exists []. split; [reflexivity | constructor].
    + injection Hr as ->. destruct (IH2 eq_refl) as (pieces & -> & Hall).
      exists (s1 :: pieces). split; [reflexivity | now constructor].
  - intros (pieces & -> & Hall).
    induction Hall as [|p pieces Hp _ IH]; simpl.
    + constructor.
    + now apply MStarApp.
Qed.

Lemma matches_lit_inv (c : codepoint) (s : text) : matches (Lit c) s -> s = [c].
Proof. inversion 1; reflexivity. Qed.

Lemma matches_digit_inv (s : text) :
  matches Digit s -> exists c, s = [c] /\ is_decimal c = true.
Proof. inversion 1; subst; eauto. Qed.

Lemma matches_star_lit (c : codepoint) (s : text) :
  matches (Star (Lit c)) s <-> exists k, s = repeat c k.
Proof.
  rewrite matches_star_concat. split.
  - intros (pieces & -> & Hall).
    induction Hall as [|p pieces Hp _ [k IH]].
    + now exists O.
    + apply matches_lit_inv in Hp as ->. exists (S k). simpl. now rewrite IH.
  - intros [k ->]. exists (repeat [c] k). split.
    + induction k as [|k IH]; simpl; [reflexivity | now rewrite IH].
    + apply Forall_forall. intros p Hp. apply repeat_spec in Hp as ->.
      constructor.
Qed.

Lemma matches_star_digit (s : text) :
  matches (Star Digit) s <-> Forall (fun c => is_decimal c = true) s.
Proof.
  rewrite matches_star_concat. split.
  - intros (pieces & -> & Hall).
    induction Hall as [|p pieces Hp _ IH]; simpl; [constructor|].
    apply matches_digit_inv in Hp as (c & -> & Hc). now constructor.
  - intros Hall. exists (map (fun c => [c]) s). split.
    + clear Hall. induction s as [|c s IH]; simpl; [reflexivity | now f_equal].
    + induction Hall as [|c s Hc _ IH]; simpl; constructor; auto.
      now constructor.
Qed.

Lemma matches_plus_digit (s : text) :
  matches (Plus Digit) s <-> decimals1 s.
Proof.
  unfold Plus, decimals1. split.
  - intros H. apply matches_cat_inv in H as (s1 & s2 & -> & H1 & H2).
    apply matches_digit_inv in H1 as (c & -> & Hc).
    apply matches_star_digit in H2.
    split; [discriminate | now constructor].
  - intros [Hne Hall]. destruct s as [|c s]; [contradiction|].
    apply Forall_cons_iff in Hall as [Hc Hall].
    apply (MCat Digit (Star Digit) [c] s); [now constructor|].
    now apply matches_star_digit.
Qed.

Lemma matches_group (s : text) :
  matches (Cat (Opt (Lit chr_comma)) (Plus Digit)) s <->
  exists g, s = group_text g /\ decimals1 (snd g).
Proof.
  unfold Opt, group_text. split.
  - intros H. apply matches_cat_inv in H as (s1 & s2 & -> & H1 & H2).
    apply matches_plus_digit in H2.
    apply matches_alt_inv in H1 as [H1|H1].
    + apply matches_lit_inv in H1 as ->. now exists (true, s2).
    + inversion H1; subst. now exists (false, s2).
  - intros ([comma d] & -> & Hd). simpl in *.
    apply MCat; [|now apply matches_plus_digit].
    destruct comma; [apply MAltL | apply MAltR]; constructor.
Qed.

Lemma groups_of_pieces (pieces : list text) :
  Forall (matches (Cat (Opt (Lit chr_comma)) (Plus Digit))) pieces <->
  exists groups,
    pieces = map group_text groups /\ Forall (fun g => decimals1 (snd g)) groups.
Proof.
  split.
  - induction 1 as [|p pieces Hp _ (groups & -> & Hall)].
    + exists []. split; [reflexivity | constructor].
    + apply matches_group in Hp as (g & -> & Hg).
      exists (g :: groups). split; [reflexivity | now constructor].
  - intros (groups & -> & Hall).
    induction Hall as [|g groups Hg _ IH]; simpl; constructor; auto.
    apply matches_group. now exists g.
Qed.

(** The body of the pattern denotes the grammar read with the decimal
    digits of every script. *)
Lemma SALARY_RE_body_language (s : text) :
  accepts SALARY_RE_body s = true <-> salary_language s.
Proof.
  rewrite accepts_spec. unfold SALARY_RE_body, salary_language. split.
  - intros H. apply matches_cat_inv in H as (s1 & s23 & -> & H1 & H23).
    apply matches_cat_inv in H23 as (s2 & s3 & -> & H2 & H3).
    apply matches_star_lit in H1 as [k ->].
    apply matches_plus_digit in H2.
    apply matches_star_concat in H3 as (pieces & -> & Hpieces).
    apply groups_of_pieces in Hpieces as (groups & -> & Hgroups).
    now exists k, s2, groups.
  - intros (k & ds & groups & -> & Hds & Hgroups).
    apply MCat; [apply matches_star_lit; now exists k|].
    apply MCat; [now apply matches_plus_digit|].
    apply matches_star_concat. exists (map group_text groups).
    split; [reflexivity|]. apply groups_of_pieces. now exists groups.
Qed.

Lemma rev_cons_iff {X : Type} (s : list X) (c : X) (before : list X) :
  rev s = c :: before <-> s = rev before ++ [c].
Proof.
  split.
  - intros H. rewrite <- (rev_involutive s), H. reflexivity.
  - intros ->. rewrite rev_app_distr, rev_involutive. reflexivity.
Qed.

(** What [SALARY_RE.search] accepts: that language, and its strings
    followed by one final newline. *)
Lemma SALARY_RE_search_spec (s : text) :
  SALARY_RE_search s = true <->
  salary_language s \/ exists t, s = t ++ [chr_newline] /\ salary_language t.
Proof.
  unfold SALARY_RE_search, anchored_search.
  rewrite orb_true_iff, SALARY_RE_body_language. split.
  - intros [H|H]; [now left|]. right.
    destruct (rev s) as [|c before] eqn:Hrev; [discriminate|].
    apply andb_true_iff in H as [Hc H].
    apply N.eqb_eq in Hc as ->. apply SALARY_RE_body_language in H.
    apply rev_cons_iff in Hrev. now exists (rev before).
  - intros [H|(t & -> & H)]; [now left|]. right.
    rewrite rev_app_distr. simpl. rewrite rev_involutive.
    now apply SALARY_RE_body_language.
Qed.

(** ** The decimal digits *)

Lemma to_decimal_range (c : codepoint) (d : Z) :
  to_decimal c = Some d -> 0 <= d <= 9.
Proof.
  unfold to_decimal.
  match goal with
  | |- context [find ?f ?l] => destruct (find f l) as [z|] eqn:Hz
  end; [|discriminate].
  apply find_some in Hz as [_ Hz]. intros [= <-].
  apply andb_true_iff in Hz as [H1 H2].
  apply N.leb_le in H1, H2. lia.
Qed.

Lemma to_decimal_ascii (c : codepoint) :
  is_digit c = true -> to_decimal c = Some (digit_val c).
Proof.
  unfold is_digit, to_decimal, digit_val. intros H.
  unfold unicode_decimal_zeros. cbn [find].
  apply andb_true_iff in H as [H1 H2].
  replace (c <=? 48 + 9)%N with true
    by (symmetry; apply N.leb_le; apply N.leb_le in H2; lia).
  rewrite H1. cbn [andb]. f_equal. apply N.leb_le in H1. lia.
Qed.

Lemma is_digit_decimal (c : codepoint) :
  is_digit c = true -> is_decimal c = true.
Proof.
  intros H. unfold is_decimal. now rewrite (to_decimal_ascii c H).
Qed.

(** No decimal digit is a whitespace character or one of the marks the
    program looks for. *)
Lemma decimal_runs_check :
  forallb
    (fun z =>
       forallb (fun x => negb ((z <=? x) && (x <=? z + 9))%N)
               (chr_dollar :: chr_comma :: chr_minus :: chr_plus
                :: chr_underscore :: whitespace_points))
    unicode_decimal_zeros = true.
Proof. vm_compute. reflexivity. Qed.

Lemma decimal_is_plain (c : codepoint) :
  is_decimal c = true ->
  is_space c = false
  /\ N.eqb c chr_dollar = false
  /\ N.eqb c chr_comma = false
  /\ N.eqb c chr_space = false
  /\ N.eqb c chr_minus = false
  /\ N.eqb c chr_plus = false
  /\ N.eqb c chr_underscore = false
  /\ N.eqb c chr_newline = false.
Proof.
  unfold is_decimal, to_decimal.
  match goal with
  | |- context [find ?f ?l] => destruct (find f l) as [z|] eqn:Hz
  end; [intros _|discriminate].
  apply find_some in Hz as [Hin Hz].
  pose proof decimal_runs_check as Hcheck.
  rewrite forallb_forall in Hcheck. specialize (Hcheck z Hin).
  rewrite forallb_forall in Hcheck.
  assert (Hnot : forall x,
            In x (chr_dollar :: chr_comma :: chr_minus :: chr_plus
                  :: chr_underscore :: whitespace_points) ->
            N.eqb c x = false).
  { intros x Hx. specialize (Hcheck x Hx).
    destruct (N.eqb_spec c x) as [->|]; [|reflexivity].
    rewrite Hz in Hcheck. discriminate. }
  assert (Hspace : is_space c = false).
  { unfold is_space. apply not_true_is_false. intros Hex.
    apply existsb_exists in Hex as (x & Hx & Hcx).
    rewrite Hnot in Hcx; [discriminate|].
    do 5 right. exact Hx. }
  split; [exact Hspace|].
  repeat split; apply Hnot; simpl; auto 12.
Qed.

(** The grammar of the specification is part of that language. *)
Lemma digits1_decimals1 (d : text) : digits1 d -> decimals1 d.
Proof.
  intros [Hne Hall]. split; [exact Hne|].
  eapply Forall_impl; [|exact Hall]. apply is_digit_decimal.
Qed.

Lemma salary_grammar_language (s : text) :
  salary_grammar s -> salary_language s.
Proof.
  intros (k & ds & groups & -> & Hds & Hgroups).
  exists k, ds, groups. split; [reflexivity|].
  split; [now apply digits1_decimals1|].
  eapply Forall_impl; [|exact Hgroups].
  intros g. apply digits1_decimals1.
Qed.

Lemma salary_grammar_accepted (s : text) :
  salary_grammar s -> SALARY_RE_search s = true.
Proof.
  intros H. apply SALARY_RE_search_spec. left.
  now apply salary_grammar_language.
Qed.

(** ** Conversion of an accepted salary text *)

Lemma filter_twice {X : Type} (f g : X -> bool) (l : list X) :
  filter f (filter g l) = filter (fun x => g x && f x) l.
Proof.
  induction l as [|x l IH]; [reflexivity|].
  simpl. destruct (g x); simpl; [destruct (f x)|]; now rewrite IH.
Qed.

Lemma strip_salary_chars (s : text) :
  Forall (fun c => salary_char c = true) s ->
  strip_salary s = filter is_decimal s.
Proof.
  intros Hall. unfold strip_salary, Py.replace_with_empty.
  rewrite !filter_twice. apply filter_ext_in.
  intros c Hc. rewrite Forall_forall in Hall. specialize (Hall c Hc).
  unfold salary_char in Hall. destruct (is_decimal c) eqn:Hd.
  - destruct (decimal_is_plain c Hd) as (_ & -> & -> & -> & _). reflexivity.
  - simpl in Hall. apply orb_true_iff in Hall as [-> | ->]; [reflexivity|].
    simpl. now rewrite andb_false_r.
Qed.

Lemma strip_salary_app (s t : text) :
  strip_salary (s ++ t) = strip_salary s ++ strip_salary t.
Proof.
  unfold strip_salary, Py.replace_with_empty. now rewrite !filter_app.
Qed.

Lemma decimals1_chars (d : text) :
  decimals1 d -> Forall (fun c => salary_char c = true) d.
Proof.
  intros [_ H]. eapply Forall_impl; [|exact H].
  intros c Hc. unfold salary_char. now rewrite Hc.
Qed.

Lemma salary_language_chars (s : text) :
  salary_language s -> Forall (fun c => salary_char c = true) s.
Proof.
  intros (k & ds & groups & -> & Hds & Hgroups).
  apply Forall_app. split; [|apply Forall_app; split].
  - apply Forall_forall. intros c Hc. apply repeat_spec in Hc as ->.
    reflexivity.
  - now apply decimals1_chars.
  - induction Hgroups as [|[comma d] groups Hd _ IH]; simpl; [constructor|].
    apply Forall_app. split; [|exact IH].
    unfold group_text. simpl. apply Forall_app. split.
    + destruct comma; repeat constructor.
    + now apply decimals1_chars.
Qed.

Lemma filter_decimals_all (d : text) :
  Forall (fun c => is_decimal c = true) d -> filter is_decimal d = d.
Proof.
  induction 1 as [|c d Hc _ IH]; simpl; [reflexivity|].
  now rewrite Hc, IH.
Qed.

Lemma filter_digits_all (d : text) :
  Forall (fun c => is_digit c = true) d -> filter is_digit d = d.
Proof.
  induction 1 as [|c d Hc _ IH]; simpl; [reflexivity|].
  now rewrite Hc, IH.
Qed.

Lemma salary_language_decimals (s : text) :
  salary_language s -> decimals1 (filter is_decimal s).
Proof.
  intros (k & ds & groups & -> & [Hne Hds] & _). split.
  - rewrite !filter_app, (filter_decimals_all ds Hds).
    destruct ds; [contradiction|].
    intros H. apply app_eq_nil in H as [_ H]. discriminate.
  - apply Forall_forall. intros c Hc. now apply filter_In in Hc.
Qed.

Lemma salary_grammar_digits (s : text) :
  salary_grammar s -> digits1 (filter is_digit s).
Proof.
  intros (k & ds & groups & -> & [Hne Hds] & _). split.
  - rewrite !filter_app, (filter_digits_all ds Hds).
    destruct ds; [contradiction|].
    intros H. apply app_eq_nil in H as [_ H]. discriminate.
  - apply Forall_forall. intros c Hc. now apply filter_In in Hc.
Qed.

(** On a string of the grammar of the specification, the decimal digits
    are the ten ASCII digits. *)
Lemma salary_grammar_ascii (s : text) :
  salary_grammar s ->
  Forall (fun c => is_decimal c = is_digit c) s.
Proof.
  assert (Hd : forall d, digits1 d ->
                 Forall (fun c => is_decimal c = is_digit c) d).
  { intros d [_ H]. eapply Forall_impl; [|exact H].
    intros c Hc. now rewrite Hc, (is_digit_decimal c Hc). }
  intros (k & ds & groups & -> & Hds & Hgroups).
  apply Forall_app. split; [|apply Forall_app; split].
  - apply Forall_forall. intros c Hc. apply repeat_spec in Hc as ->.
    reflexivity.
  - now apply Hd.
  - induction Hgroups as [|[comma d] groups Hg _ IH]; simpl; [constructor|].
    apply Forall_app. split; [|exact IH].
    unfold group_text. simpl. apply Forall_app. split.
    + destruct comma; repeat constructor.
    + now apply Hd.
Qed.

Lemma filter_decimal_ascii (s : text) :
  salary_grammar s -> filter is_decimal s = filter is_digit s.
Proof.
  intros H. apply salary_grammar_ascii in H.
  apply filter_ext_in. intros c Hc.
  rewrite Forall_forall in H. now apply H.
Qed.

Lemma decimal_number_ascii (d : text) :
  Forall (fun c => is_digit c = true) d ->
  decimal_number d = decimal_value d.
Proof.
  intros H.
  assert (Hacc : forall acc,
            fold_left (fun a c => a * 10 + match to_decimal c with
                                           | Some v => v
                                           | None => 0
                                           end) d acc
            = fold_left (fun a c => a * 10 + digit_val c) d acc).
  { induction H as [|c d Hc _ IH]; intros acc; [reflexivity|].
    cbn [fold_left]. rewrite (to_decimal_ascii c Hc). apply IH. }
  apply Hacc.
Qed.

Lemma lstrip_decimals (d : text) : decimals1 d -> Py.lstrip d = d.
Proof.
  intros [Hne Hall]. destruct d as [|c d]; [contradiction|].
  apply Forall_inv in Hall. simpl.
  now rewrite (proj1 (decimal_is_plain c Hall)).
Qed.

Lemma rstrip_decimals (d : text) :
  Forall (fun c => is_decimal c = true) d ->
  Py.rstrip d = d /\ Py.rstrip (d ++ [chr_newline]) = d.
Proof.
  induction 1 as [|c d Hc _ [IH1 IH2]]; [split; reflexivity|].
  cbn [Py.rstrip app]. rewrite IH1, IH2.
  rewrite (proj1 (decimal_is_plain c Hc)). destruct d; split; reflexivity.
Qed.

Lemma parse_digits_all (d : text) :
  Forall (fun c => is_decimal c = true) d ->
  forall acc after_digit,
    d <> [] \/ after_digit = true ->
    Py.parse_digits d acc after_digit
    = Some (fold_left
              (fun a c => a * 10 + match to_decimal c with
                                   | Some v => v
                                   | None => 0
                                   end) d acc).
Proof.
  induction 1 as [|c d Hc _ IH]; intros acc after_digit Hstart.
  - destruct Hstart as [H| ->]; [contradiction | reflexivity].
  - cbn [Py.parse_digits fold_left]. unfold is_decimal in Hc.
    destruct (to_decimal c) as [v|]; [|discriminate].
    apply IH. now right.
Qed.

(** [int] on a run of decimal digits, with or without a final newline:
    the number they denote, unless there are too many of them. *)
Lemma int_decimals (d : text) :
  decimals1 d ->
  Py.int d
  = (if (Py.int_max_str_digits <? length d)%nat then Raise ValueError
     else Ok (decimal_number d))
  /\ Py.int (d ++ [chr_newline]) = Py.int d.
Proof.
  intros Hd. pose proof Hd as [Hne Hall].
  assert (Hl : Py.lstrip (d ++ [chr_newline]) = d ++ [chr_newline]).
  { destruct d as [|c d]; [contradiction|]. apply Forall_inv in Hall.
    simpl. now rewrite (proj1 (decimal_is_plain c Hall)). }
  destruct (rstrip_decimals d Hall) as [Hr1 Hr2].
  assert (Hsign : Py.split_sign d = (1, d)).
  { destruct d as [|c d']; [reflexivity|].
    pose proof (Forall_inv Hall) as Hc. unfold Py.split_sign.
    now destruct (decimal_is_plain c Hc) as (_ & _ & _ & _ & -> & -> & _). }
  unfold Py.int. rewrite (lstrip_decimals d Hd), Hl, Hr1, Hr2, Hsign.
  cbn [fst snd].
  rewrite (parse_digits_all d Hall 0 false) by now left.
  fold (decimal_number d). rewrite (filter_decimals_all d Hall).
  rewrite Z.mul_1_l. split; reflexivity.
Qed.

(** Lines 65 to 69 on a text that the pattern accepts. *)
Lemma extract_salary_accepted (s : text) :
  SALARY_RE_search s = true ->
  Py.int (strip_salary s)
  = (if (Py.int_max_str_digits <? length (filter is_decimal s))%nat
     then Raise ValueError
     else Ok (decimal_number (filter is_decimal s))).
Proof.
  intros Hacc.
  apply SALARY_RE_search_spec in Hacc as [Hg|(t & -> & Hg)].
  - rewrite (strip_salary_chars s (salary_language_chars s Hg)).
    exact (proj1 (int_decimals _ (salary_language_decimals s Hg))).
  - rewrite strip_salary_app, filter_app.
    rewrite (strip_salary_chars t (salary_language_chars t Hg)).
    change (strip_salary [chr_newline]) with [chr_newline].
    change (filter is_decimal [chr_newline]) with (@nil codepoint).
    rewrite app_nil_r.
    destruct (int_decimals _ (salary_language_decimals t Hg)) as [H1 H2].
    now rewrite H2.
Qed.

Lemma extract_salary_within_limit (s : text) :
  SALARY_RE_search s = true ->
  (length (filter is_decimal s) <= Py.int_max_str_digits)%nat ->
  extract_salary s = Ok (SalaryInt (decimal_number (filter is_decimal s))).
Proof.
  intros Hacc Hlen. unfold extract_salary. rewrite Hacc.
  fold (strip_salary s). rewrite (extract_salary_accepted s Hacc).
  apply Nat.ltb_ge in Hlen. now rewrite Hlen.
Qed.

Lemma extract_salary_beyond_limit (s : text) :
  SALARY_RE_search s = true ->
  (Py.int_max_str_digits < length (filter is_decimal s))%nat ->
  extract_salary s = Raise ValueError.
Proof.
  intros Hacc Hlen. unfold extract_salary. rewrite Hacc.
  fold (strip_salary s). rewrite (extract_salary_accepted s Hacc).
  apply Nat.ltb_lt in Hlen. now rewrite Hlen.
Qed.

Lemma extract_salary_rejected (s : text) :
  SALARY_RE_search s = false ->
  extract_salary s = Ok (SalaryStr (txt "No data found")).
Proof. intros Hrej. unfold extract_salary. now rewrite Hrej. Qed.

(** A string of the grammar of the specification with no more digits
    than [int] takes. *)
Lemma extract_salary_grammar (s : text) :
  salary_grammar s ->
  (length (filter is_digit s) <= Py.int_max_str_digits)%nat ->
  extract_salary s = Ok (SalaryInt (decimal_value (filter is_digit s))).
Proof.
  intros Hg Hlen.
  rewrite <- (decimal_number_ascii (filter is_digit s))
    by apply (salary_grammar_digits s Hg).
  rewrite <- (filter_decimal_ascii s Hg) in *.
  apply extract_salary_within_limit; [|exact Hlen].
  now apply salary_grammar_accepted.
Qed.

Lemma decimal_number_nonneg (s : text) : 0 <= decimal_number s.
Proof.
  unfold decimal_number.
  assert (H : forall acc, 0 <= acc ->
            0 <= fold_left
                   (fun a c => a * 10 + match to_decimal c with
                                        | Some d => d
                                        | None => 0
                                        end) s acc).
  { induction s as [|c s IH]; intros acc Hacc; [exact Hacc|].
    cbn [fold_left]. apply IH.
    destruct (to_decimal c) as [d|] eqn:E; [|lia].
    apply to_decimal_range in E. lia. }
  apply H. lia.
Qed.

Lemma extract_player_salary (tr : Row) (p : Player) :
  extract_player tr = Ok p ->
  exists s, td_salary tr = Some s /\ extract_salary s = Ok (salary p).
Proof.
  unfold extract_player.
  destruct (td_name tr) as [n|]; simpl; [|discriminate].
  destruct (td_salary tr) as [s|]; simpl; [|discriminate].
  destruct (td_year tr) as [y|]; simpl; [|discriminate].
  destruct (td_level tr) as [l|]; simpl; [|discriminate].
  destruct (extract_salary s) as [v|e] eqn:E; simpl; [|discriminate].
  intros [= <-]. exists s. split; [reflexivity | exact E].
Qed.

(** ** Claims on the salary grammar *)

(** C4 (as the code has it). The pattern accepts exactly the strings
    made of zero or more [$], one or more decimal digits, then groups of
    an optional comma and one or more decimal digits, and those strings
    followed by one final newline; the decimal digits are those of every
    script, so each string of the grammar written with the digits 0 to 9
    is accepted. An accepted string with at most 4300 digits converts to
    the integer its digits denote once [$], commas and spaces are
    stripped, which for a string of the grammar is the decimal value of
    its digits; an accepted string with more digits makes [int] raise
    [ValueError]. Any string that is not accepted becomes the corrupted
    marker. The four valid and the three corrupted examples behave as
    listed. *)
Theorem salary_grammar_acceptance :
  (forall s : text,
     SALARY_RE_search s = true <->
     salary_language s
     \/ exists t, s = t ++ [chr_newline] /\ salary_language t)
  /\ (forall s : text, salary_grammar s -> SALARY_RE_search s = true)
  /\ (forall s : text,
        SALARY_RE_search s = true ->
        (length (filter is_decimal s) <= Py.int_max_str_digits)%nat ->
        Py.int (strip_salary s) = Ok (decimal_number (filter is_decimal s))
        /\ extract_salary s
           = Ok (SalaryInt (decimal_number (filter is_decimal s))))
  /\ (forall s : text,
        SALARY_RE_search s = true ->
        (Py.int_max_str_digits < length (filter is_decimal s))%nat ->
        Py.int (strip_salary s) = Raise ValueError
        /\ extract_salary s = Raise ValueError)
  /\ (forall s : text,
        salary_grammar s ->
        (length (filter is_digit s) <= Py.int_max_str_digits)%nat ->
        extract_salary s
        = Ok (SalaryInt (decimal_value (filter is_digit s))))
  /\ (forall s : text,
        SALARY_RE_search s = false ->
        extract_salary s = Ok (SalaryStr (txt "No data found")))
  /\ extract_salary (txt "$1,234,567") = Ok (SalaryInt 1234567)
  /\ extract_salary (txt "12345") = Ok (SalaryInt 12345)
  /\ extract_salary (txt "$$123") = Ok (SalaryInt 123)
  /\ extract_salary (txt "$1,23,456") = Ok (SalaryInt 123456)
  /\ extract_salary (txt "N/A") = Ok (SalaryStr (txt "No data found"))
  /\ extract_salary (txt "$-100") = Ok (SalaryStr (txt "No data found"))
  /\ extract_salary (txt "") = Ok (SalaryStr (txt "No data found")).
Proof.
  split; [exact SALARY_RE_search_spec|].
  split; [exact salary_grammar_accepted|].
  split.
  { intros s Hacc Hlen. split.
    - rewrite (extract_salary_accepted s Hacc).
      apply Nat.ltb_ge in Hlen. now rewrite Hlen.
    - now apply extract_salary_within_limit. }
  split.
  { intros s Hacc Hlen. split.
    - rewrite (extract_salary_accepted s Hacc).
      apply Nat.ltb_lt in Hlen. now rewrite Hlen.
    - now apply extract_salary_beyond_limit. }
  split; [exact extract_salary_grammar|].
  split; [exact extract_salary_rejected|].
  repeat split.
Qed.

Lemma salary_grammar_acceptance_witness :
  Py.int (strip_salary (txt "$1,234,567")) = Ok 1234567
  /\ extract_salary (txt "$1,234,567") = Ok (SalaryInt 1234567).
Proof.
  apply (proj1 (proj2 (proj2 salary_grammar_acceptance)) (txt "$1,234,567")).
  - reflexivity.
  - apply Nat.leb_le. reflexivity.
Defined.

(** C4, the claim as stated fails. ["123\n"] is not a string of the
    grammar, yet the pattern accepts it and it converts to 123. *)
Lemma pattern_accepts_final_newline :
  ~ salary_grammar digits_then_newline
  /\ SALARY_RE_search digits_then_newline = true
  /\ extract_salary digits_then_newline = Ok (SalaryInt 123).
Proof.
  split; [|split; reflexivity].
  intros H. apply salary_grammar_language, SALARY_RE_body_language in H.
  vm_compute in H. discriminate.
Qed.

(** C8 (as the code has it). A record whose salary is not an [int]
    adds exactly one to the corrupted count and leaves every slot of
    the set as it was; over a whole sequence the count is the number of
    corrupted records and every occupant is a valid record of the
    sequence. A salary text that the pattern does not accept, that is
    one that is neither a string of the grammar read with the decimal
    digits of every script nor such a string followed by one final
    newline, is not converted: the record gets the corrupted marker, a
    [str]. *)
Theorem corrupted_counted_not_ranked :
  (forall (highest : list (option Player)) (n : Z) (p : Player),
     corrupted p ->
     crawl_players_step (highest, n) p = Ok (highest, n + 1))
  /\ (forall players : list Player,
        exists highest n,
          crawl_players_loop players (empty_125, 0) = Ok (highest, n)
          /\ n = corrupted_count players
          /\ forall q, In (Some q) highest -> valid q /\ In q players)
  /\ (forall s : text,
        ~ salary_language s ->
        (forall t, s = t ++ [chr_newline] -> ~ salary_language t) ->
        extract_salary s = Ok (SalaryStr (txt "No data found")))
  /\ (forall (tr : Row) (p : Player) (s : text),
        extract_player tr = Ok p ->
        td_salary tr = Some s ->
        SALARY_RE_search s = false ->
        corrupted p /\ salary p = SalaryStr (txt "No data found")).
Proof.
  split; [|split; [|split]].
  - intros highest n p Hp. now apply crawl_players_step_corrupted.
  - intros players.
    destruct (crawl_players_loop_spec players empty_125 0 empty_125_ranked)
      as (highest & n & Hrun & Hranked & _ & Hn & _ & Hfrom).
    exists highest, n. split; [exact Hrun|]. split; [exact Hn|].
    intros q Hq. split.
    + apply ranked_slot_valid in Hranked. rewrite Forall_forall in Hranked.
      exact (Hranked (Some q) Hq).
    + destruct (Hfrom q Hq) as [H|H]; [|exact H].
      apply repeat_spec in H. discriminate.
  - intros s Hs Hnl. apply extract_salary_rejected.
    destruct (SALARY_RE_search s) eqn:E; [|reflexivity].
    apply SALARY_RE_search_spec in E as [H|(t & Ht & H)].
    + contradiction.
    + exfalso. exact (Hnl t Ht H).
  - intros tr p s Hp Hs Hrej.
    apply extract_player_salary in Hp as (s' & Hs' & Hconv).
    rewrite Hs in Hs'. injection Hs' as <-.
    rewrite (extract_salary_rejected s Hrej) in Hconv.
    injection Hconv as Hsal. unfold corrupted. rewrite <- Hsal.
    split; reflexivity.
Qed.

Lemma corrupted_counted_not_ranked_witness :
  crawl_players_step
    (three_occupants, 4) (player_with (SalaryStr (txt "No data found")))
  = Ok (three_occupants, 4 + 1).
Proof.
  apply (proj1 corrupted_counted_not_ranked). reflexivity.
Defined.

(** C8, the claim as stated fails. ["$1,000\n"] does not match the
    grammar, and it is converted to the integer 1000. *)
Lemma final_newline_is_converted :
  ~ salary_grammar amount_then_newline
  /\ extract_salary amount_then_newline = Ok (SalaryInt 1000).
Proof.
  split; [|reflexivity].
  intros H. apply salary_grammar_language, SALARY_RE_body_language in H.
  vm_compute in H. discriminate.
Qed.

(** ** Formatting, then classifying *)

Lemma all_digits_Forall (s : text) :
  all_digits s = true -> Forall (fun c => is_digit c = true) s.
Proof.
  unfold all_digits. rewrite forallb_forall, Forall_forall. auto.
Qed.

Lemma unpadded_digits1 (s : text) (g : Z) :
  unpadded s g = true -> digits1 s /\ decimal_value s = g.
Proof.
  unfold unpadded. rewrite !andb_true_iff. intros [[Hd Hv] Hhead].
  apply Z.eqb_eq in Hv. apply all_digits_Forall in Hd.
  repeat split; auto. intros ->. discriminate.
Qed.

Lemma unpadded_head (s : text) (g : Z) :
  unpadded s g = true -> exists c r, s = c :: r /\ c <> chr_zero.
Proof.
  unfold unpadded. rewrite !andb_true_iff. intros [_ Hhead].
  destruct s as [|c r]; [discriminate|]. exists c, r.
  split; [reflexivity|]. intros ->. discriminate.
Qed.

Lemma padded3_digits1 (s : text) (g : Z) :
  padded3 s g = true ->
  digits1 s /\ decimal_value s = g /\ length s = 3%nat.
Proof.
  unfold padded3. rewrite !andb_true_iff. intros [[Hl Hd] Hv].
  apply Z.eqb_eq in Hv. apply Nat.eqb_eq in Hl.
  apply all_digits_Forall in Hd.
  repeat split; auto. intros ->. discriminate.
Qed.

Lemma fold_three_digits (s : text) (acc : Z) :
  length s = 3%nat ->
  fold_left (fun a c => a * 10 + digit_val c) s acc
  = acc * 1000 + decimal_value s.
Proof.
  destruct s as [|c1 [|c2 [|c3 [|c4 s]]]]; try discriminate.
  intros _. unfold decimal_value. simpl. lia.
Qed.

Lemma decimal_value_groups (groups : list text) (gs : list Z) :
  Forall2 (fun s g => padded3 s g = true) groups gs ->
  forall acc,
    fold_left (fun a c => a * 10 + digit_val c) (concat groups) acc
    = fold_left (fun a g => a * 1000 + g) gs acc.
Proof.
  induction 1 as [|s g groups gs Hs _ IH]; intros acc; [reflexivity|].
  apply padded3_digits1 in Hs as (_ & Hv & Hl).
  simpl. rewrite fold_left_app, (fold_three_digits s acc Hl), Hv.
  apply IH.
Qed.

Lemma currency_text_grammar (lead : text) (groups : list text) :
  digits1 lead ->
  Forall digits1 groups ->
  salary_grammar (currency_text lead groups)
  /\ filter is_digit (currency_text lead groups) = lead ++ concat groups.
Proof.
  intros Hlead Hgroups. split.
  - exists 1%nat, lead, (map (fun g => (true, g)) groups).
    repeat split; try apply Hlead.
    + unfold currency_text. simpl. do 2 f_equal.
      rewrite map_map. reflexivity.
    + apply Forall_map. exact Hgroups.
  - unfold currency_text. cbn [filter].
    change (is_digit chr_dollar) with false. cbv iota.
    rewrite filter_app, (filter_digits_all lead (proj2 Hlead)). f_equal.
    induction Hgroups as [|g groups [_ Hg] _ IH]; [reflexivity|].
    cbn [map concat]. rewrite filter_app. cbn [filter].
    change (is_digit chr_comma) with false. cbv iota.
    now rewrite (filter_digits_all g Hg), IH.
Qed.

(** *** How many digits a number takes *)

Lemma digit_val_range (c : codepoint) :
  is_digit c = true -> 0 <= digit_val c <= 9.
Proof.
  unfold is_digit, digit_val. rewrite andb_true_iff, !N.leb_le. lia.
Qed.

Lemma fold_digits_acc (s : text) :
  forall acc,
    fold_left (fun a c => a * 10 + digit_val c) s acc
    = acc * 10 ^ Z.of_nat (length s) + decimal_value s.
Proof.
  unfold decimal_value. induction s as [|c s IH]; intros acc.
  - simpl. lia.
  - cbn [fold_left length]. rewrite (IH (acc * 10 + digit_val c)).
    rewrite (IH (0 * 10 + digit_val c)).
    rewrite Nat2Z.inj_succ, Z.pow_succ_r by lia. ring.
Qed.

Lemma decimal_value_cons (c : codepoint) (s : text) :
  decimal_value (c :: s)
  = digit_val c * 10 ^ Z.of_nat (length s) + decimal_value s.
Proof.
  unfold decimal_value at 1. cbn [fold_left].
  rewrite fold_digits_acc. lia.
Qed.

Lemma decimal_value_bounds (s : text) :
  Forall (fun c => is_digit c = true) s ->
  0 <= decimal_value s < 10 ^ Z.of_nat (length s).
Proof.
  induction 1 as [|c s Hc _ IH].
  - unfold decimal_value. simpl. lia.
  - rewrite decimal_value_cons. cbn [length].
    rewrite Nat2Z.inj_succ, Z.pow_succ_r by lia.
    pose proof (digit_val_range c Hc).
    assert (0 < 10 ^ Z.of_nat (length s)) by (apply Z.pow_pos_nonneg; lia).
    nia.
Qed.

Lemma decimal_value_nonneg (s : text) :
  Forall (fun c => is_digit c = true) s -> 0 <= decimal_value s.
Proof. intros H. apply (decimal_value_bounds s H). Qed.

(** A numeral without a leading zero is no longer than its value
    allows, and a numeral is at least as long as its value asks. *)
Lemma digits_length_within (c : codepoint) (r : text) (k : nat) :
  Forall (fun c => is_digit c = true) (c :: r) ->
  c <> chr_zero ->
  decimal_value (c :: r) < 10 ^ Z.of_nat k ->
  (length (c :: r) <= k)%nat.
Proof.
  intros Hall Hc Hv.
  pose proof (Forall_inv Hall) as Hd.
  apply Forall_inv_tail in Hall.
  pose proof (decimal_value_bounds r Hall) as Hr.
  rewrite decimal_value_cons in Hv.
  assert (Hhead : 1 <= digit_val c).
  { unfold is_digit in Hd. apply andb_true_iff in Hd as [H1 H2].
    apply N.leb_le in H1, H2. unfold digit_val.
    assert (c <> 48%N) by exact Hc. lia. }
  assert (Hpow : 10 ^ Z.of_nat (length r) < 10 ^ Z.of_nat k) by nia.
  apply Z.pow_lt_mono_r_iff in Hpow; [|lia|lia].
  cbn [length]. lia.
Qed.

Lemma digits_length_beyond (s : text) (k : nat) :
  Forall (fun c => is_digit c = true) s ->
  10 ^ Z.of_nat k <= decimal_value s ->
  (k < length s)%nat.
Proof.
  intros Hall Hv. pose proof (decimal_value_bounds s Hall) as Hs.
  assert (Hpow : 10 ^ Z.of_nat k < 10 ^ Z.of_nat (length s)) by lia.
  apply Z.pow_lt_mono_r_iff in Hpow; lia.
Qed.

(** What [display_salary] returns on a positive amount, read as a
    numeral: a string of the grammar whose digits, the leading one not a
    zero, denote the amount. *)
Lemma display_salary_numeral (n : Z) :
  0 < n ->
  exists (s : text) (c : codepoint) (r : text),
    returns (fun fuel => display_salary fuel n) (Ok s)
    /\ salary_grammar s
    /\ filter is_digit s = c :: r
    /\ c <> chr_zero
    /\ decimal_value (c :: r) = n.
Proof.
  intros Hn.
  destruct (display_salary_groups n Hn) as (g0 & gs & Hret & Hg0 & Hgs & Hval).
  set (lead := Py.str g0) in *. set (groups := map Py.format_03d gs) in *.
  assert (Hlead : unpadded lead g0 = true) by (apply group_texts; lia).
  assert (Hgroups : Forall2 (fun s g => padded3 s g = true) groups gs).
  { subst groups. clear Hret Hval.
    induction Hgs as [|g gs Hg _ IH]; constructor; [|exact IH].
    now apply group_texts. }
  assert (Hdigits : Forall digits1 groups).
  { clear - Hgroups. induction Hgroups as [|s g groups gs Hs _ IH];
      constructor; [|exact IH].
    now apply padded3_digits1 in Hs. }
  destruct (unpadded_head lead g0 Hlead) as (c & r & Hcr & Hc).
  apply unpadded_digits1 in Hlead as [Hlead Hleadv].
  destruct (currency_text_grammar lead groups Hlead Hdigits) as [Hg Hfilter].
  exists (currency_text lead groups), c, (r ++ concat groups).
  split; [exact Hret|]. split; [exact Hg|].
  split; [now rewrite Hfilter, Hcr|]. split; [exact Hc|].
  change (c :: r ++ concat groups) with ((c :: r) ++ concat groups).
  rewrite <- Hcr.
  unfold decimal_value. rewrite fold_left_app.
  fold (decimal_value lead). rewrite Hleadv.
  rewrite (decimal_value_groups groups gs Hgroups g0).
  rewrite <- Hval. unfold groups_value. reflexivity.
Qed.

(** C10 (as the code has it). For every positive amount,
    [display_salary] returns a text that the pattern accepts, a string
    of the grammar. The conversion of [extract_player] turns that text
    back into the amount when the amount has at most 4300 digits, and
    raises [ValueError] when it has more. *)
Theorem format_then_classify (n : Z) :
  0 < n ->
  exists s : text,
    returns (fun fuel => display_salary fuel n) (Ok s)
    /\ salary_grammar s
    /\ SALARY_RE_search s = true
    /\ (n < 10 ^ Z.of_nat Py.int_max_str_digits ->
        extract_salary s = Ok (SalaryInt n))
    /\ (10 ^ Z.of_nat Py.int_max_str_digits <= n ->
        extract_salary s = Raise ValueError).
Proof.
  intros Hn.
  destruct (display_salary_numeral n Hn)
    as (s & c & r & Hret & Hg & Hfilter & Hc & Hval).
  pose proof (proj2 (salary_grammar_digits s Hg)) as Hall.
  rewrite Hfilter in Hall.
  exists s. split; [exact Hret|]. split; [exact Hg|].
  split; [now apply salary_grammar_accepted|]. split.
  - intros Hsmall.
    rewrite (extract_salary_grammar s Hg).
    + now rewrite Hfilter, Hval.
    + rewrite Hfilter. apply digits_length_within; auto.
      now rewrite Hval.
  - intros Hlarge. apply extract_salary_beyond_limit.
    + now apply salary_grammar_accepted.
    + rewrite (filter_decimal_ascii s Hg), Hfilter.
      apply digits_length_beyond; [exact Hall|]. now rewrite Hval.
Qed.

Lemma format_then_classify_witness :
  exists s : text,
    returns (fun fuel => display_salary fuel 1234567) (Ok s)
    /\ salary_grammar s
    /\ SALARY_RE_search s = true
    /\ extract_salary s = Ok (SalaryInt 1234567).
Proof.
  destruct (format_then_classify 1234567 eq_refl)
    as (s & Hret & Hg & Hacc & Hsmall & _).
  exists s. repeat split; auto.
  apply Hsmall. vm_compute. reflexivity.
Defined.

(** C10, the claim as stated fails. The amount [10 ^ 4300] is positive
    and has 4301 digits: [display_salary] formats it, the pattern
    accepts the text, and its conversion raises [ValueError] instead of
    giving the amount back. *)
Lemma format_then_classify_fails_on_4301_digits :
  0 < 10 ^ 4300
  /\ exists s : text,
       returns (fun fuel => display_salary fuel (10 ^ 4300)) (Ok s)
       /\ salary_grammar s
       /\ SALARY_RE_search s = true
       /\ extract_salary s = Raise ValueError.
Proof.
  assert (Hpos : 0 < 10 ^ 4300) by (apply Z.pow_pos_nonneg; lia).
  split; [exact Hpos|].
  destruct (display_salary_numeral (10 ^ 4300) Hpos)
    as (s & c & r & Hret & Hg & Hfilter & Hc & Hval).
  pose proof (proj2 (salary_grammar_digits s Hg)) as Hall.
  rewrite Hfilter in Hall.
  exists s. split; [exact Hret|]. split; [exact Hg|].
  split; [now apply salary_grammar_accepted|].
  apply extract_salary_beyond_limit.
  - now apply salary_grammar_accepted.
  - rewrite (filter_decimal_ascii s Hg), Hfilter.
    apply digits_length_beyond; [exact Hall|].
    rewrite Hval. apply Z.pow_le_mono_r; [lia|].
    unfold Py.int_max_str_digits. lia.
Qed.

(* ================================================================= *)
(** ** The models of [str] and [int] agree *)

Lemma digit_char_val (d : Z) :
  0 <= d <= 9 ->
  digit_val (digit_char d) = d /\ is_digit (digit_char d) = true.
Proof.
  intros Hd.
  assert (H : d = 0 \/ d = 1 \/ d = 2 \/ d = 3 \/ d = 4
              \/ d = 5 \/ d = 6 \/ d = 7 \/ d = 8 \/ d = 9) by lia.
  repeat (destruct H as [->|H]; [split; reflexivity|]).
  subst d. split; reflexivity.
Qed.

Lemma str_loop_step (fuel : nat) (n : Z) (acc : text) :
  Py.str_loop (S fuel) n acc
  = if n / 10 =? 0 then digit_char (n mod 10) :: acc
    else Py.str_loop fuel (n / 10) (digit_char (n mod 10) :: acc).
Proof. reflexivity. Qed.

Lemma str_loop_spec (fuel : nat) :
  forall n acc,
    0 <= n < 2 ^ Z.of_nat (S fuel) ->
    Forall (fun c => is_digit c = true) acc ->
    let s := Py.str_loop (S fuel) n acc in
    decimal_value s = n * 10 ^ Z.of_nat (length acc) + decimal_value acc
    /\ Forall (fun c => is_digit c = true) s
    /\ s <> []
    /\ (0 < n -> exists c r, s = c :: r /\ c <> chr_zero).
Proof.
  induction fuel as [|fuel IH]; intros n acc Hn Hacc;
    cbv zeta; rewrite str_loop_step;
    pose proof (Z.mod_pos_bound n 10 ltac:(lia)) as Hmod;
    pose proof (Z.div_mod n 10 ltac:(lia)) as Hdm;
    destruct (digit_char_val (n mod 10) ltac:(lia)) as [Hval Hdig];
    assert (Hcons : decimal_value (digit_char (n mod 10) :: acc)
                    = n mod 10 * 10 ^ Z.of_nat (length acc)
                      + decimal_value acc)
      by (rewrite decimal_value_cons, Hval; reflexivity);
    destruct (n / 10 =? 0) eqn:E;
    try (apply Z.eqb_eq in E; repeat split;
         [ rewrite Hcons; replace n with (n mod 10) at 2 by lia; reflexivity
         | now constructor
         | discriminate
         | intros Hpos; exists (digit_char (n mod 10)), acc;
           split; [reflexivity|];
           intros Hzero; rewrite Hzero in Hval;
           change (digit_val chr_zero) with 0 in Hval; lia ]).
  - apply Z.eqb_neq in E. exfalso. apply E.
    apply Z.div_small. change (2 ^ Z.of_nat 1) with 2 in Hn. lia.
  - apply Z.eqb_neq in E.
    assert (Hdiv : 0 <= n / 10 < 2 ^ Z.of_nat (S fuel)).
    { split; [apply Z.div_pos; lia|].
      apply Z.div_lt_upper_bound; [lia|].
      rewrite (Nat2Z.inj_succ (S fuel)), Z.pow_succ_r in Hn by lia. lia. }
    destruct (IH (n / 10) (digit_char (n mod 10) :: acc) Hdiv
                (Forall_cons _ Hdig Hacc)) as (Hv & Hd & Hne & Hhead).
    repeat split; auto.
    + rewrite Hv, Hcons. cbn [length].
      rewrite Nat2Z.inj_succ, Z.pow_succ_r by lia. nia.
    + intros _. apply Hhead.
      assert (0 <= n / 10) by (apply Z.div_pos; lia). lia.
Qed.

Lemma str_nonneg_spec (n : Z) :
  0 <= n ->
  digits1 (Py.str_nonneg n)
  /\ decimal_value (Py.str_nonneg n) = n
  /\ (0 < n -> exists c r, Py.str_nonneg n = c :: r /\ c <> chr_zero).
Proof.
  intros Hn. unfold Py.str_nonneg.
  assert (Hbound : 0 <= n < 2 ^ Z.of_nat (S (Z.to_nat (Z.log2 n)))).
  { split; [exact Hn|].
    rewrite Nat2Z.inj_succ, Z2Nat.id by apply Z.log2_nonneg.
    destruct (Z.eq_dec n 0) as [->|Hnz]; [reflexivity|].
    apply Z.log2_spec. lia. }
  destruct (str_loop_spec (Z.to_nat (Z.log2 n)) n [] Hbound
              (Forall_nil _)) as (Hv & Hd & Hne & Hhead).
  repeat split; auto.
  rewrite Hv. unfold decimal_value. simpl. lia.
Qed.

(** [str] of a number below [10 ^ k] has at most [k] digits. *)
Lemma str_nonneg_length (n : Z) (k : nat) :
  0 <= n < 10 ^ Z.of_nat k ->
  (0 < k)%nat ->
  (length (Py.str_nonneg n) <= k)%nat.
Proof.
  intros Hn Hk.
  destruct (str_nonneg_spec n (proj1 Hn)) as ([_ Hall] & Hv & Hhead).
  destruct (Z.eq_dec n 0) as [->|Hnz].
  - change (length (Py.str_nonneg 0)) with 1%nat. lia.
  - destruct (Hhead ltac:(lia)) as (c & r & Hs & Hc).
    rewrite Hs in *. apply digits_length_within; auto. lia.
Qed.

(** [int] on a minus sign and a run of decimal digits. *)
Lemma int_minus_decimals (d : text) :
  decimals1 d ->
  Py.int (chr_minus :: d)
  = (if (Py.int_max_str_digits <? length d)%nat then Raise ValueError
     else Ok (- decimal_number d)).
Proof.
  intros [Hne Hall].
  unfold Py.int. cbn [Py.lstrip].
  change (is_space chr_minus) with false. cbv iota.
  cbn [Py.rstrip]. rewrite (proj1 (rstrip_decimals _ Hall)).
  destruct d as [|c d]; [contradiction|].
  cbn [Py.split_sign].
  change (N.eqb chr_minus chr_minus) with true. cbv iota.
  cbn [fst snd].
  rewrite (parse_digits_all (c :: d) Hall 0 false) by (left; discriminate).
  fold (decimal_number (c :: d)). rewrite (filter_decimals_all _ Hall).
  destruct (Py.int_max_str_digits <? length (c :: d))%nat; [reflexivity|].
  f_equal; lia.
Qed.

(** [int(str(n)) == n] in the model, for every [int] of at most
    [int_max_str_digits] digits. *)
Lemma int_str (n : Z) :
  Z.abs n < 10 ^ Z.of_nat Py.int_max_str_digits ->
  Py.int (Py.str n) = Ok n.
Proof.
  intros Hsmall.
  assert (Hk : (0 < Py.int_max_str_digits)%nat)
    by (unfold Py.int_max_str_digits; lia).
  unfold Py.str. destruct (n <? 0) eqn:E.
  - apply Z.ltb_lt in E.
    destruct (str_nonneg_spec (- n) ltac:(lia)) as (Hd & Hv & _).
    pose proof (str_nonneg_length (- n) Py.int_max_str_digits
                  ltac:(lia) Hk) as Hlen.
    rewrite (int_minus_decimals _ (digits1_decimals1 _ Hd)).
    apply Nat.ltb_ge in Hlen. rewrite Hlen.
    rewrite (decimal_number_ascii _ (proj2 Hd)), Hv. f_equal. lia.
  - apply Z.ltb_ge in E.
    destruct (str_nonneg_spec n E) as (Hd & Hv & _).
    pose proof (str_nonneg_length n Py.int_max_str_digits
                  ltac:(lia) Hk) as Hlen.
    rewrite (proj1 (int_decimals _ (digits1_decimals1 _ Hd))).
    apply Nat.ltb_ge in Hlen. rewrite Hlen.
    now rewrite (decimal_number_ascii _ (proj2 Hd)), Hv.
Qed.

(* ================================================================= *)
(** ** Concrete runs *)

Example display_salary_1000000 :
  display_salary 5 1000000 = Some (Ok (txt "$1,000,000")).
Proof. reflexivity. Qed.

Example display_salary_1000 :
  display_salary 5 1000 = Some (Ok (txt "$1,000")).
Proof. reflexivity. Qed.

Example extract_salary_arabic_indic_digits :
  SALARY_RE_search [1633; 1634; 1635]%N = true
  /\ extract_salary [1633; 1634; 1635]%N = Ok (SalaryInt 123).
Proof. split; reflexivity. Qed.

Example extract_salary_mixed_scripts :
  extract_salary (chr_dollar :: 49 :: chr_comma :: [2407; 65298; 51])%N
  = Ok (SalaryInt 1123).
Proof. reflexivity. Qed.

Example extract_salary_4300_digits :
  extract_salary (repeat (ord "1"%char) 4300)
  = Ok (SalaryInt (decimal_value (repeat (ord "1"%char) 4300))).
Proof.
  assert (Hd : digits1 (repeat (ord "1"%char) 4300)).
  { split.
    - intros H. apply (f_equal (@length _)) in H.
      rewrite repeat_length in H. discriminate.
    - apply Forall_forall. intros c Hc. apply repeat_spec in Hc as ->.
      reflexivity. }
  assert (Hg : salary_grammar (repeat (ord "1"%char) 4300)).
  { exists 0%nat, (repeat (ord "1"%char) 4300), [].
    split; [exact (eq_sym (app_nil_r _))|].
    split; [exact Hd | constructor]. }
  rewrite (extract_salary_grammar _ Hg);
    rewrite (filter_digits_all _ (proj2 Hd)); [reflexivity|].
  rewrite repeat_length. apply Nat.le_refl.
Qed.

Example extract_salary_4301_digits :
  extract_salary (repeat (ord "1"%char) 4301) = Raise ValueError.
Proof.
  assert (Hd : digits1 (repeat (ord "1"%char) 4301)).
  { split.
    - intros H. apply (f_equal (@length _)) in H.
      rewrite repeat_length in H. discriminate.
    - apply Forall_forall. intros c Hc. apply repeat_spec in Hc as ->.
      reflexivity. }
  assert (Hg : salary_grammar (repeat (ord "1"%char) 4301)).
  { exists 0%nat, (repeat (ord "1"%char) 4301), [].
    split; [exact (eq_sym (app_nil_r _))|].
    split; [exact Hd | constructor]. }
  apply extract_salary_beyond_limit; [now apply salary_grammar_accepted|].
  rewrite (filter_decimal_ascii _ Hg), (filter_digits_all _ (proj2 Hd)).
  rewrite repeat_length. apply Nat.lt_succ_diag_r.
Qed.

(** A salary text of 401 digits is accepted and converted. *)
Example extract_salary_401_digits :
  extract_salary (ord "1"%char :: repeat chr_zero 400)
  = Ok (SalaryInt (10 ^ 400)).
Proof.
  assert (Hd : digits1 (ord "1"%char :: repeat chr_zero 400)).
  { split; [discriminate|]. constructor; [reflexivity|].
    apply Forall_forall. intros c Hc. apply repeat_spec in Hc as ->.
    reflexivity. }
  assert (Hg : salary_grammar (ord "1"%char :: repeat chr_zero 400)).
  { exists 0%nat, (ord "1"%char :: repeat chr_zero 400), [].
    split; [exact (eq_sym (app_nil_r _))|].
    split; [exact Hd | constructor]. }
  rewrite (extract_salary_grammar _ Hg);
    rewrite (filter_digits_all _ (proj2 Hd)).
  - apply (f_equal (fun z => Ok (SalaryInt z))). vm_compute. reflexivity.
  - cbn [length]. rewrite repeat_length.
    unfold Py.int_max_str_digits. lia.
Qed.

Example int_leading_zeros_count :
  Py.int (repeat chr_zero 4300 ++ [ord "7"%char]) = Raise ValueError.
Proof. vm_compute. reflexivity. Qed.

Example int_sign_and_underscores :
  Py.int (txt " -1_000 ") = Ok (-1000)
  /\ Py.int (txt "1__0") = Raise ValueError
  /\ Py.int (txt "+ 1") = Raise ValueError.
Proof. repeat split. Qed.

Example true_divide_samples :
  Py.true_divide 1 3 = Ok (FloatFinite false 6004799503160661 (-54))
  /\ Py.true_divide 1 10 = Ok (FloatFinite false 7205759403792794 (-56))
  /\ Py.true_divide (-7) 2 = Ok (FloatFinite true 7881299347898368 (-51))
  /\ Py.true_divide 0 (-5) = Ok (FloatZero true)
  /\ Py.true_divide (2 ^ 53 + 1) 1
     = Ok (FloatFinite false 4503599627370496 1)
  /\ Py.true_divide (2 ^ 53 + 3) 1
     = Ok (FloatFinite false 4503599627370498 1)
  /\ Py.true_divide 1 (2 ^ 1074) = Ok (FloatFinite false 1 (-1074))
  /\ Py.true_divide 1 (2 ^ 1075) = Ok (FloatZero false)
  /\ Py.true_divide 3 (2 ^ 1075) = Ok (FloatFinite false 2 (-1074))
  /\ Py.true_divide (2 ^ 1024 - 2 ^ 970 - 1) 1
     = Ok (FloatFinite false 9007199254740991 971)
  /\ Py.true_divide (2 ^ 1024 - 2 ^ 970) 1 = Raise OverflowError
  /\ Py.true_divide 1 0 = Raise ZeroDivisionError.
Proof. vm_compute. repeat split. Qed.

Example search_double_comma : SALARY_RE_search (txt "1,,2") = false.
Proof. reflexivity. Qed.

Example search_trailing_comma : SALARY_RE_search (txt "$100,") = false.
Proof. reflexivity. Qed.

Example search_inner_space : SALARY_RE_search (txt "$1 000") = false.
Proof. reflexivity. Qed.

Example insert_between :
  insert_in_limited_array (player_with (SalaryInt 250)) salary_gt
    [Some (player_with (SalaryInt 300)); Some (player_with (SalaryInt 200));
     Some (player_with (SalaryInt 100))]
  = Ok [Some (player_with (SalaryInt 300)); Some (player_with (SalaryInt 250));
        Some (player_with (SalaryInt 200))].
Proof. reflexivity. Qed.

Example insert_too_small :
  insert_in_limited_array (player_with (SalaryInt 50)) salary_gt
    [Some (player_with (SalaryInt 300)); Some (player_with (SalaryInt 200))]
  = Ok [Some (player_with (SalaryInt 300)); Some (player_with (SalaryInt 200))].
Proof. reflexivity. Qed.

Example insert_mixed_raises :
  insert_in_limited_array (player_with (SalaryInt 50)) salary_gt
    [Some (player_with (SalaryStr (txt "No data found")))]
  = Raise TypeError.
Proof. reflexivity. Qed.

Example extract_player_missing_cell :
  extract_player (mkRow (Some (txt "Ann")) None (Some (txt "2016"))
                        (Some (txt "MLB")))
  = Raise AttributeError.
Proof. reflexivity. Qed.

Example crawl_three_rows :
  crawl_players (fun body : text => body)
    (fun _ : text =>
       [mkRow (Some (txt "Ann")) (Some (txt "$1,000")) (Some (txt "2016"))
              (Some (txt "MLB"));
        mkRow (Some (txt "Bob")) (Some (txt "no salary data"))
              (Some (txt "2016")) (Some (txt "MLB"));
        mkRow (Some (txt "Cy")) (Some (txt "$2,500")) (Some (txt "2016"))
              (Some (txt "MLB"))])
    (mkApp [] (FloatZero false) 0 empty_125) (Ok (mkResponse 200 []))
  = Ok (mkApp
          [mkPlayer (txt "Ann") (SalaryInt 1000) (txt "2016") (txt "MLB");
           mkPlayer (txt "Bob") (SalaryStr (txt "No data found"))
                    (txt "2016") (txt "MLB");
           mkPlayer (txt "Cy") (SalaryInt 2500) (txt "2016") (txt "MLB")]
          (FloatFinite false 7881299347898368 (-48))
          1
          (Some (mkPlayer (txt "Cy") (SalaryInt 2500) (txt "2016") (txt "MLB"))
           :: Some (mkPlayer (txt "Ann") (SalaryInt 1000) (txt "2016")
                             (txt "MLB"))
           :: repeat None 123)).
Proof. reflexivity. Qed.

(* ================================================================= *)
(** * Further properties of the program *)

(** ** Extraction of records *)

Lemma over_long_dec (s : text) : over_long s \/ ~ over_long s.
Proof.
  unfold over_long.
  destruct (SALARY_RE_search s);
    [|right; intros [H _]; discriminate].
  destruct (Nat.ltb_spec Py.int_max_str_digits
              (length (filter is_decimal s))) as [H|H].
  - left. now split.
  - right. intros [_ H']. lia.
Qed.

Lemma extract_salary_cases (s : text) :
  (SALARY_RE_search s = false
   /\ extract_salary s = Ok (SalaryStr (txt "No data found")))
  \/ (SALARY_RE_search s = true
      /\ (length (filter is_decimal s) <= Py.int_max_str_digits)%nat
      /\ exists n, 0 <= n /\ extract_salary s = Ok (SalaryInt n))
  \/ (over_long s /\ extract_salary s = Raise ValueError).
Proof.
  destruct (SALARY_RE_search s) eqn:E.
  - right.
    destruct (Nat.ltb_spec Py.int_max_str_digits
                (length (filter is_decimal s))) as [H|H].
    + right. split; [now split|]. now apply extract_salary_beyond_limit.
    + left. split; [reflexivity|]. split; [exact H|].
      exists (decimal_number (filter is_decimal s)).
      split; [apply decimal_number_nonneg|].
      now apply extract_salary_within_limit.
  - left. split; [reflexivity | now apply extract_salary_rejected].
Qed.

Lemma extract_salary_over_long (s : text) :
  over_long s <-> extract_salary s = Raise ValueError.
Proof.
  split.
  - intros [Hacc Hlen]. now apply extract_salary_beyond_limit.
  - intros Hraise.
    destruct (extract_salary_cases s)
      as [[_ H]|[(_ & _ & n & _ & H)|[H _]]]; [congruence|congruence|exact H].
Qed.

Lemma extract_salary_returns (s : text) :
  ~ over_long s <-> exists v, extract_salary s = Ok v.
Proof.
  split.
  - intros Hnot.
    destruct (extract_salary_cases s)
      as [[_ H]|[(_ & _ & n & _ & H)|[H _]]]; eauto. contradiction.
  - intros [v Hv] Hlong. apply extract_salary_over_long in Hlong. congruence.
Qed.

(** X1. The salary conversion of [extract_player] has three outcomes.
    When the pattern does not match, the result is the marker
    ['No data found']. When the pattern matches a text of at most 4300
    digits, the result is an [int] that is not negative. When the
    pattern matches a text of more than 4300 digits, [int] raises
    [ValueError], and this is the only way the conversion raises. *)
Theorem extract_salary_outcomes (s : text) :
  ((SALARY_RE_search s = false
    /\ extract_salary s = Ok (SalaryStr (txt "No data found")))
   \/ (SALARY_RE_search s = true
       /\ (length (filter is_decimal s) <= Py.int_max_str_digits)%nat
       /\ exists n, 0 <= n /\ extract_salary s = Ok (SalaryInt n))
   \/ (SALARY_RE_search s = true
       /\ (Py.int_max_str_digits < length (filter is_decimal s))%nat
       /\ extract_salary s = Raise ValueError))
  /\ (forall e, extract_salary s = Raise e -> e = ValueError /\ over_long s).
Proof.
  split.
  - destruct (extract_salary_cases s) as [H|[H|[[H1 H2] H3]]]; auto.
  - intros e He.
    destruct (extract_salary_cases s)
      as [[_ H]|[(_ & _ & n & _ & H)|[H H']]]; try congruence.
    split; [congruence | exact H].
Qed.

Lemma extract_player_complete (tr : Row) :
  complete_row tr ->
  exists n s y l,
    tr = mkRow (Some n) (Some s) (Some y) (Some l)
    /\ extract_player tr
       = (v <- extract_salary s ;; Ok (mkPlayer n v y l)).
Proof.
  destruct tr as [[n|] [s|] [y|] [l|]]; unfold complete_row; simpl;
    intros (H1 & H2 & H3 & H4); try contradiction.
  exists n, s, y, l. split; reflexivity.
Qed.

Lemma extract_player_extractable (tr : Row) :
  extractable_row tr ->
  exists n s y l v,
    tr = mkRow (Some n) (Some s) (Some y) (Some l)
    /\ extract_salary s = Ok v
    /\ extract_player tr = Ok (mkPlayer n v y l).
Proof.
  intros [Hc Hlong].
  destruct (extract_player_complete tr Hc) as (n & s & y & l & -> & Hp).
  assert (Hv : exists v, extract_salary s = Ok v).
  { apply extract_salary_returns. intros H. apply Hlong.
    exists s. now split. }
  destruct Hv as [v Hv]. exists n, s, y, l, v.
  rewrite Hp, Hv. repeat split.
Qed.

Lemma extract_player_incomplete (tr : Row) :
  ~ complete_row tr -> extract_player tr = Raise AttributeError.
Proof.
  destruct tr as [[n|] [s|] [y|] [l|]]; unfold complete_row; simpl;
    intros H; try reflexivity.
  exfalso. apply H. repeat split; discriminate.
Qed.

Lemma extract_player_over_long (tr : Row) :
  complete_row tr -> over_long_salary tr ->
  extract_player tr = Raise ValueError.
Proof.
  intros Hc (s' & Hs' & Hlong).
  destruct (extract_player_complete tr Hc) as (n & s & y & l & -> & Hp).
  simpl in Hs'. injection Hs' as <-.
  apply extract_salary_over_long in Hlong. now rewrite Hp, Hlong.
Qed.

Lemma complete_row_dec (tr : Row) : complete_row tr \/ ~ complete_row tr.
Proof.
  destruct tr as [[n|] [s|] [y|] [l|]]; unfold complete_row; simpl;
    try (left; repeat split; discriminate);
    right; intros (H1 & H2 & H3 & H4); contradiction.
Qed.

Lemma over_long_salary_dec (tr : Row) :
  over_long_salary tr \/ ~ over_long_salary tr.
Proof.
  unfold over_long_salary. destruct (td_salary tr) as [s|].
  - destruct (over_long_dec s) as [H|H].
    + left. now exists s.
    + right. intros (s' & [= <-] & H'). contradiction.
  - right. intros (s' & H & _). discriminate.
Qed.

(** The three outcomes of [extract_player]. *)
Lemma extract_player_cases (tr : Row) :
  (~ complete_row tr /\ extract_player tr = Raise AttributeError)
  \/ (complete_row tr /\ over_long_salary tr
      /\ extract_player tr = Raise ValueError)
  \/ (extractable_row tr /\ exists p, extract_player tr = Ok p).
Proof.
  destruct (complete_row_dec tr) as [Hc|Hc].
  - right. destruct (over_long_salary_dec tr) as [Hl|Hl].
    + left. split; [exact Hc|]. split; [exact Hl|].
      now apply extract_player_over_long.
    + right. split; [now split|].
      destruct (extract_player_extractable tr (conj Hc Hl))
        as (n & s & y & l & v & _ & _ & Hp). eauto.
  - left. split; [exact Hc | now apply extract_player_incomplete].
Qed.

Lemma extract_player_returns (tr : Row) :
  extractable_row tr <-> exists p, extract_player tr = Ok p.
Proof.
  split.
  - intros H. destruct (extract_player_extractable tr H)
      as (n & s & y & l & v & _ & _ & Hp). eauto.
  - intros [p Hp].
    destruct (extract_player_cases tr) as [[_ H]|[(_ & _ & H)|[H _]]];
      [congruence|congruence|exact H].
Qed.

(** X2. [extract_player] raises [AttributeError] exactly when one of the
    four cells is missing, raises [ValueError] exactly when the four
    cells are there and the salary text is accepted by the pattern with
    more than 4300 digits, and returns a record exactly in the remaining
    case. The record carries the name, year and level texts as they
    stand in the row, and its salary is the conversion of the salary
    text. *)
Theorem extract_player_cells (tr : Row) :
  (~ complete_row tr <-> extract_player tr = Raise AttributeError)
  /\ (complete_row tr /\ over_long_salary tr <->
      extract_player tr = Raise ValueError)
  /\ (extractable_row tr <-> exists p, extract_player tr = Ok p)
  /\ (forall p,
        extract_player tr = Ok p ->
        td_name tr = Some (name p)
        /\ td_year tr = Some (year p)
        /\ td_level tr = Some (level p)
        /\ exists s, td_salary tr = Some s
                     /\ extract_salary s = Ok (salary p)).
Proof.
  pose proof (extract_player_cases tr) as Hcases.
  split; [|split; [|split]].
  - split; [apply extract_player_incomplete|].
    intros Hraise Hc.
    destruct Hcases as [[H _]|[(_ & _ & H)|[_ [p H]]]];
      [contradiction|congruence|congruence].
  - split; [intros [Hc Hl]; now apply extract_player_over_long|].
    intros Hraise.
    destruct Hcases as [[_ H]|[(Hc & Hl & _)|[_ [p H]]]];
      [congruence|now split|congruence].
  - apply extract_player_returns.
  - intros p Hp.
    destruct Hcases as [[_ H]|[(_ & _ & H)|[H _]]]; [congruence|congruence|].
    destruct (extract_player_extractable tr H)
      as (n & s & y & l & v & -> & Hv & Hp').
    rewrite Hp' in Hp. injection Hp as <-. simpl.
    repeat split. now exists s.
Qed.

Lemma extract_players_rows_Forall2 (rows : list Row) :
  forall ps,
    extract_players_rows rows = Ok ps <->
    Forall2 (fun tr p => extract_player tr = Ok p) rows ps.
Proof.
  induction rows as [|tr rows IH]; intros ps; simpl.
  - split.
    + intros [= <-]. constructor.
    + inversion 1. reflexivity.
  - split.
    + destruct (extract_player tr) as [p|e] eqn:Hp; simpl; [|discriminate].
      destruct (extract_players_rows rows) as [ps'|e] eqn:Hps; simpl;
        [|discriminate].
      intros [= <-]. constructor; [exact Hp | now apply IH].
    + inversion 1 as [|tr' p rows' ps' Hp Hrest]; subst.
      rewrite Hp. simpl. apply IH in Hrest. now rewrite Hrest.
Qed.

Lemma extract_players_rows_extractable (rows : list Row) :
  Forall extractable_row rows -> exists ps, extract_players_rows rows = Ok ps.
Proof.
  induction 1 as [|tr rows Hc _ [ps IH]]; simpl; [now exists []|].
  destruct (extract_player_extractable tr Hc)
    as (n & s & y & l & v & _ & _ & ->). simpl.
  rewrite IH. simpl. eauto.
Qed.

(** The call raises what the first row that cannot be extracted
    raises. *)
Lemma extract_players_rows_raises (rows : list Row) (e : exn) :
  extract_players_rows rows = Raise e <->
  exists front tr back,
    rows = front ++ tr :: back
    /\ Forall extractable_row front
    /\ extract_player tr = Raise e.
Proof.
  induction rows as [|tr rows IH]; simpl.
  - split; [discriminate|].
    intros (front & tr & back & H & _). now destruct front.
  - destruct (extract_player tr) as [p|e'] eqn:Hp; simpl.
    + assert (Hext : extractable_row tr).
      { apply extract_player_returns. eauto. }
      destruct (extract_players_rows rows) as [ps|e'] eqn:Hps; simpl.
      * split; [discriminate|].
        intros (front & tr' & back & Hrows & Hfront & Hraise).
        destruct front as [|tr0 front]; simpl in Hrows;
          injection Hrows as <- ->; [congruence|].
        assert (Hno : Ok ps = Raise e); [|discriminate].
        { apply IH. exists front, tr', back.
          split; [reflexivity|]. split; [now inversion Hfront | exact Hraise]. }
      * split.
        -- intros [= ->]. destruct (proj1 IH eq_refl)
             as (front & tr' & back & -> & Hfront & Hraise).
           exists (tr :: front), tr', back.
           split; [reflexivity|]. split; [now constructor | exact Hraise].
        -- intros (front & tr' & back & Hrows & Hfront & Hraise).
           destruct front as [|tr0 front]; simpl in Hrows;
             injection Hrows as <- ->; [congruence|].
           apply IH. exists front, tr', back.
           split; [reflexivity|]. split; [now inversion Hfront | exact Hraise].
    + split.
      * intros [= ->]. exists [], tr, rows.
        split; [reflexivity|]. split; [constructor | exact Hp].
      * intros (front & tr' & back & Hrows & Hfront & Hraise).
        destruct front as [|tr0 front]; simpl in Hrows;
          injection Hrows as <- ->; [congruence|].
        exfalso. apply Forall_inv in Hfront.
        apply extract_player_returns in Hfront as [p Hp']. congruence.
Qed.

Lemma extract_players_rows_errors (rows : list Row) (e : exn) :
  extract_players_rows rows = Raise e ->
  e = AttributeError \/ e = ValueError.
Proof.
  intros H. apply extract_players_rows_raises in H
    as (front & tr & back & _ & _ & Hraise).
  destruct (extract_player_cases tr) as [[_ H]|[(_ & _ & H)|[_ [p H]]]];
    [left|right|exfalso]; congruence.
Qed.

(** X3. [extract_players] turns the rows into records one for one and in
    order: it returns a list exactly when every row has its four cells
    and a salary text that [int] takes, the list then has one record per
    row, each the extraction of its row; otherwise the whole call raises
    what the first row that cannot be extracted raises, an
    [AttributeError] or a [ValueError]. *)
Theorem extract_players_row_by_row (rows : list Row) :
  (forall ps,
     extract_players_rows rows = Ok ps <->
     Forall2 (fun tr p => extract_player tr = Ok p) rows ps)
  /\ (forall ps, extract_players_rows rows = Ok ps ->
                 length ps = length rows)
  /\ (Forall extractable_row rows <->
      exists ps, extract_players_rows rows = Ok ps)
  /\ (forall e,
        extract_players_rows rows = Raise e <->
        exists front tr back,
          rows = front ++ tr :: back
          /\ Forall extractable_row front
          /\ extract_player tr = Raise e)
  /\ (forall e,
        extract_players_rows rows = Raise e ->
        e = AttributeError \/ e = ValueError).
Proof.
  split; [apply extract_players_rows_Forall2|]. split; [|split; [|split]].
  - intros ps Hps. apply extract_players_rows_Forall2 in Hps.
    symmetry. eapply Forall2_length. exact Hps.
  - split; [apply extract_players_rows_extractable|].
    intros [ps Hps]. apply extract_players_rows_Forall2 in Hps.
    clear - Hps. induction Hps as [|tr p rows ps Hp _ IH]; constructor.
    + apply extract_player_returns. eauto.
    + exact IH.
  - apply extract_players_rows_raises.
  - apply extract_players_rows_errors.
Qed.

(** X4. A text that the pattern accepts holds no space, so the third
    replacement of [extract_player], [.replace(' ', '')], never changes
    anything: the text handed to [int] is the salary text without its
    [$] and commas. *)
Theorem space_replacement_is_idle (s : text) :
  SALARY_RE_search s = true ->
  ~ In chr_space s
  /\ strip_salary s
     = Py.replace_with_empty chr_comma
         (Py.replace_with_empty chr_dollar s).
Proof.
  intros Hacc.
  assert (Hno : ~ In chr_space s).
  { apply SALARY_RE_search_spec in Hacc as [Hg|(t & -> & Hg)].
    - intros Hin. apply salary_language_chars in Hg.
      rewrite Forall_forall in Hg. apply Hg in Hin. discriminate.
    - intros Hin. apply in_app_or in Hin as [Hin|[Hin|[]]]; [|discriminate].
      apply salary_language_chars in Hg.
      rewrite Forall_forall in Hg. apply Hg in Hin. discriminate. }
  split; [exact Hno|].
  unfold strip_salary. unfold Py.replace_with_empty at 1.
  set (t := Py.replace_with_empty chr_comma
              (Py.replace_with_empty chr_dollar s)).
  assert (Hsub : forall c, In c t -> In c s).
  { intros c Hc. unfold t, Py.replace_with_empty in Hc.
    apply filter_In in Hc as [Hc _]. now apply filter_In in Hc as [Hc _]. }
  clearbody t. induction t as [|c t IH]; [reflexivity|].
  cbn [filter]. destruct (N.eqb_spec c chr_space) as [->|Hne]; cbn [negb].
  - exfalso. apply Hno, Hsub. now left.
  - apply (f_equal (cons c)). apply IH. intros c' Hc'. apply Hsub. now right.
Qed.

Lemma space_replacement_is_idle_witness :
  ~ In chr_space (txt "$1,234,567")
  /\ strip_salary (txt "$1,234,567")
     = Py.replace_with_empty chr_comma
         (Py.replace_with_empty chr_dollar (txt "$1,234,567")).
Proof. apply space_replacement_is_idle. reflexivity. Defined.

(** ** [insert_in_limited_array] with any comparison *)

Section AnyComparison.

Context {A : Type} (gt : A -> A -> result bool).

(** What the scan has passed over, and where it stopped. *)
Lemma first_hit_from_spec (value : A) (array : list (option A)) :
  forall remaining i h,
    first_hit_from value gt array i remaining = Ok h ->
    match h with
    | Some j =>
        (i <= j < i + remaining)%nat
        /\ (nth_error array j = Some None
            \/ exists o, nth_error array j = Some (Some o)
                         /\ gt value o = Ok true)
        /\ forall k, (i <= k < j)%nat ->
                     exists o, nth_error array k = Some (Some o)
                               /\ gt value o = Ok false
    | None =>
        forall k, (i <= k < i + remaining)%nat ->
                  exists o, nth_error array k = Some (Some o)
                            /\ gt value o = Ok false
    end.
Proof.
  induction remaining as [|remaining IH]; intros i h; simpl.
  - intros [= <-]. intros k Hk. lia.
  - destruct (nth_error array i) as [item|] eqn:Hi; [|discriminate].
    destruct item as [o|].
    + destruct (gt value o) as [[|]|e] eqn:Hgt; simpl; try discriminate.
      * intros [= <-]. split; [lia|]. split; [right; eauto|].
        intros k Hk. lia.
      * intros Hrest. specialize (IH (S i) h Hrest).
        destruct h as [j|].
        -- destruct IH as (Hj & Hat & Hbefore).
           split; [lia|]. split; [exact Hat|].
           intros k Hk. destruct (Nat.eq_dec k i) as [->|Hne]; [eauto|].
           apply Hbefore. lia.
        -- intros k Hk. destruct (Nat.eq_dec k i) as [->|Hne]; [eauto|].
           apply IH. lia.
    + simpl. intros [= <-]. split; [lia|]. split; [now left|].
      intros k Hk. lia.
Qed.

Lemma inserted_at_split (value : A) :
  forall (j : nat) (array : list (option A)),
    (j < length array)%nat ->
    inserted_at j value array
    = firstn j array ++ Some value :: removelast (skipn j array).
Proof.
  induction j as [|j IH]; intros [|slot rest] Hj; simpl in Hj; try lia.
  - reflexivity.
  - rewrite inserted_at_cons by lia. rewrite IH by lia. reflexivity.
Qed.

Lemma insert_in_limited_array_shape (value : A)
      (array array' : list (option A)) :
  insert_in_limited_array value gt array = Ok array' ->
  array' = array
  \/ exists j,
       (j < length array)%nat
       /\ array' = firstn j array ++ Some value :: removelast (skipn j array).
Proof.
  rewrite insert_in_limited_array_first_hit. unfold first_hit.
  destruct (first_hit_from value gt array 0 (length array)) as [h|e] eqn:Hh;
    simpl; [|discriminate].
  pose proof (first_hit_from_spec value array (length array) 0 h Hh) as Hspec.
  destruct h as [j|]; intros [= <-]; [|now left].
  right. destruct Hspec as (Hj & _). exists j.
  split; [lia | apply inserted_at_split; lia].
Qed.

Lemma occupied_slots_app (l1 l2 : list (option A)) :
  occupied_slots (l1 ++ l2) = (occupied_slots l1 + occupied_slots l2)%nat.
Proof. unfold occupied_slots. now rewrite filter_app, length_app. Qed.

Lemma occupied_slots_removelast (l : list (option A)) :
  l <> [] ->
  (occupied_slots (removelast l) <= occupied_slots l
   <= S (occupied_slots (removelast l)))%nat.
Proof.
  intros Hl.
  assert (Hsum : occupied_slots l
                 = (occupied_slots (removelast l)
                    + occupied_slots [last l None])%nat).
  { rewrite <- occupied_slots_app. f_equal.
    now apply app_removelast_last. }
  rewrite Hsum. unfold occupied_slots at 3 5.
  simpl. destruct (last l None); simpl; lia.
Qed.

(** X5. With any comparison that does not raise, the insertion either
    leaves the array as it is, when every slot holds an occupant the
    value does not beat, or acts at the first index [j] whose slot is
    empty or holds an occupant the value beats: the slots before [j]
    stay, the value takes slot [j], the later slots move one place
    toward the end and the last one is dropped. *)
Theorem insert_acts_at_first_hit (value : A) (array array' : list (option A)) :
  insert_in_limited_array value gt array = Ok array' ->
  (array' = array
   /\ Forall (fun slot => exists o, slot = Some o /\ gt value o = Ok false)
             array)
  \/ exists j,
       (j < length array)%nat
       /\ (nth_error array j = Some None
           \/ exists o, nth_error array j = Some (Some o)
                        /\ gt value o = Ok true)
       /\ (forall k, (k < j)%nat ->
                     exists o, nth_error array k = Some (Some o)
                               /\ gt value o = Ok false)
       /\ array' = firstn j array ++ Some value :: removelast (skipn j array).
Proof.
  rewrite insert_in_limited_array_first_hit. unfold first_hit.
  destruct (first_hit_from value gt array 0 (length array)) as [h|e] eqn:Hh;
    simpl; [|discriminate].
  pose proof (first_hit_from_spec value array (length array) 0 h Hh) as Hspec.
  destruct h as [j|]; intros [= <-].
  - right. destruct Hspec as (Hj & Hat & Hbefore). exists j.
    split; [lia|]. split; [exact Hat|]. split.
    + intros k Hk. apply Hbefore. lia.
    + apply inserted_at_split. lia.
  - left. split; [reflexivity|]. apply Forall_forall. intros slot Hin.
    apply In_nth_error in Hin as [k Hk].
    assert (Hlt : (k < length array)%nat).
    { apply nth_error_Some. congruence. }
    destruct (Hspec k ltac:(lia)) as (o & Ho & Hgt).
    exists o. split; [congruence | exact Hgt].
Qed.

(** X6. An insertion loses at most the last slot: every slot of the
    array but its last is still in the result, every occupant of the
    result is the value or an occupant of the array, and the number of
    occupied slots never goes down and grows by at most one. *)
Theorem insert_loses_only_the_last (value : A)
        (array array' : list (option A)) :
  insert_in_limited_array value gt array = Ok array' ->
  (forall slot, In slot (removelast array) -> In slot array')
  /\ (forall o, In (Some o) array' -> o = value \/ In (Some o) array)
  /\ (occupied_slots array <= occupied_slots array'
      <= S (occupied_slots array))%nat.
Proof.
  intros Hins.
  destruct (insert_in_limited_array_shape value array array' Hins)
    as [->|(j & Hj & ->)].
  - split; [intros slot; apply In_removelast|].
    split; [intros o Ho; now right | lia].
  - assert (Hne : skipn j array <> []).
    { intros H. apply (f_equal (@length _)) in H.
      rewrite length_skipn in H. simpl in H. lia. }
    assert (Harr : array = firstn j array ++ skipn j array)
      by (symmetry; apply firstn_skipn).
    split; [|split].
    + intros slot Hslot. rewrite Harr in Hslot.
      rewrite removelast_app in Hslot by exact Hne.
      apply in_app_or in Hslot as [H|H]; apply in_or_app;
        [now left | right; now right].
    + intros o Ho. apply in_app_or in Ho as [H|[[= <-]|H]].
      * right. rewrite Harr. apply in_or_app. now left.
      * now left.
      * right. rewrite Harr. apply in_or_app. right.
        now apply In_removelast.
    + assert (Hocc : occupied_slots array
                     = (occupied_slots (firstn j array)
                        + occupied_slots (skipn j array))%nat).
      { rewrite <- occupied_slots_app. now rewrite firstn_skipn. }
      rewrite Hocc, occupied_slots_app.
      change (Some value :: removelast (skipn j array))
        with ([Some value] ++ removelast (skipn j array)).
      rewrite occupied_slots_app.
      change (occupied_slots [Some value]) with 1%nat.
      pose proof (occupied_slots_removelast (skipn j array) Hne). lia.
Qed.

End AnyComparison.

Lemma insert_acts_at_first_hit_witness :
  ([Some (player_with (SalaryInt 500)); Some record_a; None] = tied_set
   /\ Forall (fun slot => exists o, slot = Some o
                                    /\ salary_gt record_a o = Ok false)
             tied_set)
  \/ exists j,
       (j < length tied_set)%nat
       /\ (nth_error tied_set j = Some None
           \/ exists o, nth_error tied_set j = Some (Some o)
                        /\ salary_gt record_a o = Ok true)
       /\ (forall k, (k < j)%nat ->
                     exists o, nth_error tied_set k = Some (Some o)
                               /\ salary_gt record_a o = Ok false)
       /\ [Some (player_with (SalaryInt 500)); Some record_a; None]
          = firstn j tied_set
            ++ Some record_a :: removelast (skipn j tied_set).
Proof.
  apply (insert_acts_at_first_hit salary_gt record_a tied_set).
  reflexivity.
Defined.

Lemma insert_loses_only_the_last_witness :
  (forall slot, In slot (removelast tied_set) ->
                In slot [Some (player_with (SalaryInt 500));
                         Some record_a; None])
  /\ (forall o, In (Some o) [Some (player_with (SalaryInt 500));
                             Some record_a; None] ->
                 o = record_a \/ In (Some o) tied_set)
  /\ (occupied_slots tied_set
      <= occupied_slots [Some (player_with (SalaryInt 500));
                         Some record_a; None]
      <= S (occupied_slots tied_set))%nat.
Proof.
  apply (insert_loses_only_the_last salary_gt record_a tied_set).
  reflexivity.
Defined.

(** ** The ranked set as a prefix of the sorted records *)

Lemma removelast_repeat {X : Type} (x : X) (n : nat) :
  removelast (repeat x (S n)) = repeat x n.
Proof.
  induction n as [|n IH]; [reflexivity|].
  change (repeat x (S (S n))) with (x :: repeat x (S n)).
  change (removelast (x :: repeat x (S n)))
    with (x :: removelast (repeat x (S n))).
  now rewrite IH.
Qed.

Lemma slots_of_nil (k : nat) : slots_of k [] = repeat None k.
Proof. unfold slots_of. now rewrite firstn_nil, Nat.sub_0_r. Qed.

Lemma slots_of_cons (k : nat) (o : Player) (l : list Player) :
  slots_of (S k) (o :: l) = Some o :: slots_of k l.
Proof. reflexivity. Qed.

Lemma removelast_slots_of (k : nat) :
  forall l, removelast (slots_of (S k) l) = slots_of k l.
Proof.
  induction k as [|k IH]; intros [|o l].
  - reflexivity.
  - reflexivity.
  - rewrite !slots_of_nil. apply removelast_repeat.
  - rewrite (slots_of_cons (S k)), (slots_of_cons k).
    rewrite <- IH.
    destruct (slots_of (S k) l) eqn:E; [|reflexivity].
    destruct l; discriminate.
Qed.

Lemma place_slots_of (v : Player) (l : list Player) :
  forall k, place v (slots_of k l) = slots_of k (sorted_insert v l).
Proof.
  induction l as [|o l IH]; intros [|k]; try reflexivity.
  - rewrite slots_of_nil. cbn [repeat place].
    change (None :: repeat None k) with (repeat (@None Player) (S k)).
    rewrite removelast_repeat. cbn [sorted_insert].
    rewrite slots_of_cons, slots_of_nil. reflexivity.
  - rewrite slots_of_cons. cbn [place sorted_insert].
    destruct (amount v >? amount o).
    + rewrite slots_of_cons. f_equal.
      rewrite <- slots_of_cons. apply removelast_slots_of.
    + rewrite slots_of_cons. f_equal. apply IH.
Qed.

Lemma In_firstn {X : Type} (k : nat) (x : X) (l : list X) :
  In x (firstn k l) -> In x l.
Proof.
  intros H. rewrite <- (firstn_skipn k l). apply in_or_app. now left.
Qed.

Lemma slots_of_valid (k : nat) (l : list Player) :
  Forall valid l -> Forall slot_valid (slots_of k l).
Proof.
  intros Hl. apply Forall_app. split.
  - apply Forall_map. apply Forall_forall. intros p Hp.
    apply In_firstn in Hp. rewrite Forall_forall in Hl. now apply Hl.
  - apply Forall_forall. intros slot Hslot.
    apply repeat_spec in Hslot as ->. exact I.
Qed.

Lemma sorted_insert_perm (v : Player) (l : list Player) :
  Permutation (sorted_insert v l) (v :: l).
Proof.
  induction l as [|o l IH]; simpl; [reflexivity|].
  destruct (amount v >? amount o); [reflexivity|].
  rewrite IH. apply perm_swap.
Qed.

Lemma sorted_insert_sorted (v : Player) (l : list Player) :
  StronglySorted (fun a b => amount b <= amount a) l ->
  StronglySorted (fun a b => amount b <= amount a) (sorted_insert v l).
Proof.
  induction 1 as [|o l Hl IH Ho]; simpl.
  - repeat constructor.
  - destruct (amount v >? amount o) eqn:Hgt.
    + apply Z.gtb_lt in Hgt. constructor; [now constructor|].
      constructor; [lia|].
      eapply Forall_impl; [|exact Ho]. intros q Hq. simpl in Hq. lia.
    + rewrite Z.gtb_ltb in Hgt. apply Z.ltb_ge in Hgt.
      constructor; [exact IH|].
      eapply Permutation_Forall;
        [apply Permutation_sym, sorted_insert_perm|].
      now constructor.
Qed.

Lemma filter_none {X : Type} (f : X -> bool) (l : list X) :
  (forall x, In x l -> f x = false) -> filter f l = [].
Proof.
  induction l as [|x l IH]; intros H; [reflexivity|]. simpl.
  rewrite (H x (or_introl eq_refl)). apply IH.
  intros y Hy. apply H. now right.
Qed.

Lemma sorted_insert_stable (a : Z) (v : Player) (l : list Player) :
  StronglySorted (fun x y => amount y <= amount x) l ->
  filter (fun p => amount p =? a) (sorted_insert v l)
  = filter (fun p => amount p =? a) l
    ++ (if amount v =? a then [v] else []).
Proof.
  induction 1 as [|o l Hl IH Ho]; simpl.
  - destruct (amount v =? a); reflexivity.
  - destruct (amount v >? amount o) eqn:Hgt.
    + apply Z.gtb_lt in Hgt. cbn [filter].
      destruct (amount v =? a) eqn:Hva; [|now rewrite app_nil_r].
      apply Z.eqb_eq in Hva.
      assert (Hnone : filter (fun p => amount p =? a) (o :: l) = []).
      { apply filter_none.
        intros q [<-|Hq].
        - apply Z.eqb_neq. lia.
        - rewrite Forall_forall in Ho. specialize (Ho q Hq).
          apply Z.eqb_neq. lia. }
      cbn [filter] in Hnone. rewrite Hnone. reflexivity.
    + cbn [filter]. rewrite IH.
      destruct (amount o =? a); reflexivity.
Qed.

Lemma ranking_from_spec (ps : list Player) :
  forall acc,
    StronglySorted (fun x y => amount y <= amount x) acc ->
    Permutation (ranking_from acc ps) (acc ++ ps)
    /\ StronglySorted (fun x y => amount y <= amount x) (ranking_from acc ps)
    /\ forall a,
         filter (fun p => amount p =? a) (ranking_from acc ps)
         = filter (fun p => amount p =? a) acc
           ++ filter (fun p => amount p =? a) ps.
Proof.
  unfold ranking_from.
  induction ps as [|p ps IH]; intros acc Hacc; simpl.
  - rewrite app_nil_r. repeat split; auto.
    intros a. now rewrite app_nil_r.
  - destruct (IH (sorted_insert p acc) (sorted_insert_sorted p acc Hacc))
      as (Hperm & Hsorted & Hstable).
    repeat split; auto.
    + rewrite Hperm, (sorted_insert_perm p acc).
      apply (Permutation_middle acc ps p).
    + intros a. rewrite Hstable, (sorted_insert_stable a p acc Hacc).
      rewrite <- app_assoc. f_equal.
      destruct (amount p =? a); reflexivity.
Qed.

Lemma corrupted_count_cons (p : Player) (ps : list Player) :
  corrupted_count (p :: ps)
  = (if isinstance_int (salary p) then 0 else 1) + corrupted_count ps.
Proof.
  unfold corrupted_count. cbn [filter].
  destruct (isinstance_int (salary p)); cbn [negb length]; lia.
Qed.


(** The loop of [crawl_players] on any number of slots: the slots show
    the sorted valid records seen so far. *)
Lemma crawl_players_loop_slots (k : nat) (ps : list Player) :
  forall acc n,
    Forall valid acc ->
    crawl_players_loop ps (slots_of k acc, n)
    = Ok (slots_of k (ranking_from acc (valid_records ps)),
          n + corrupted_count ps).
Proof.
  induction ps as [|p ps IH]; intros acc n Hacc.
  - unfold corrupted_count. simpl. now rewrite Z.add_0_r.
  - cbn [crawl_players_loop]. unfold crawl_players_step.
    rewrite corrupted_count_cons. unfold valid_records. cbn [filter].
    destruct (isinstance_int (salary p)) eqn:Hp.
    + rewrite (insert_in_limited_array_place p (slots_of k acc) Hp
                 (slots_of_valid k acc Hacc)).
      cbn [bind]. rewrite place_slots_of.
      rewrite IH.
      * reflexivity.
      * eapply Permutation_Forall;
          [apply Permutation_sym, sorted_insert_perm|].
        now constructor.
    + cbn [bind]. rewrite IH by exact Hacc.
      unfold ranking_from, valid_records. do 2 f_equal. lia.
Qed.

Lemma crawl_players_loop_ranking (ps : list Player) :
  crawl_players_loop ps (empty_125, 0)
  = Ok (slots_of 125 (ranking_from [] (valid_records ps)),
        corrupted_count ps).
Proof.
  change empty_125 with (slots_of 125 []).
  now rewrite (crawl_players_loop_slots 125 ps [] 0 (Forall_nil _)).
Qed.

(** X7. After any sequence of records, the ranked set shows the first
    125 entries of the stable descending sort of the valid records: a
    rearrangement of the valid records, in descending order of amount,
    in which records of equal amount keep the order in which they came;
    the slots beyond the valid records are empty. The counter is the
    number of corrupted records. *)
Theorem ranked_set_is_sorted_prefix (players : list Player) :
  exists sorted : list Player,
    Permutation sorted (valid_records players)
    /\ StronglySorted (fun a b => amount b <= amount a) sorted
    /\ (forall a,
          filter (fun p => amount p =? a) sorted
          = filter (fun p => amount p =? a) (valid_records players))
    /\ crawl_players_loop players (empty_125, 0)
       = Ok (map Some (firstn 125 sorted)
               ++ repeat None (125 - length sorted),
             corrupted_count players).
Proof.
  exists (ranking_from [] (valid_records players)).
  destruct (ranking_from_spec (valid_records players) []
              (SSorted_nil _)) as (Hperm & Hsorted & Hstable).
  repeat split; auto.
  apply crawl_players_loop_ranking.
Qed.

Lemma occupants_count_slots_of (k : nat) (l : list Player) :
  occupants_count (slots_of k l) = Nat.min k (length l).
Proof.
  unfold occupants_count, slots_of. rewrite filter_app, length_app.
  rewrite (filter_none _ (repeat None (k - length l))).
  - simpl. rewrite Nat.add_0_r, <- length_firstn.
    generalize (firstn k l). intros f.
    induction f as [|x f IH]; simpl; [reflexivity | now rewrite IH].
  - intros slot Hslot. now apply repeat_spec in Hslot as ->.
Qed.

Lemma valid_plus_corrupted (ps : list Player) :
  Z.of_nat (length (valid_records ps)) + corrupted_count ps
  = Z.of_nat (length ps).
Proof.
  induction ps as [|p ps IH]; [reflexivity|].
  rewrite corrupted_count_cons. unfold valid_records in *. cbn [filter].
  destruct (isinstance_int (salary p)); cbn [length]; lia.
Qed.

(** X8. After any sequence of records the number of occupied slots is
    the number of valid records, capped at 125, and every record is
    accounted for: the valid records and the corrupted count add up to
    the length of the sequence. *)
Theorem records_are_accounted_for (players : list Player) :
  exists highest n,
    crawl_players_loop players (empty_125, 0) = Ok (highest, n)
    /\ occupants_count highest
       = Nat.min 125 (length (valid_records players))
    /\ 0 <= n
    /\ Z.of_nat (length (valid_records players)) + n
       = Z.of_nat (length players).
Proof.
  exists (slots_of 125 (ranking_from [] (valid_records players))),
         (corrupted_count players).
  split; [apply crawl_players_loop_ranking|]. split; [|split].
  - rewrite occupants_count_slots_of. f_equal.
    destruct (ranking_from_spec (valid_records players) [] (SSorted_nil _))
      as (Hperm & _). now rewrite (Permutation_length Hperm).
  - unfold corrupted_count. lia.
  - apply valid_plus_corrupted.
Qed.

(** ** The order of the rows *)

Lemma Permutation_filter {X : Type} (f : X -> bool) (l1 l2 : list X) :
  Permutation l1 l2 -> Permutation (filter f l1) (filter f l2).
Proof.
  induction 1 as [|x l1 l2 _ IH|x y l|l1 l2 l3 _ IH1 _ IH2]; simpl.
  - constructor.
  - destruct (f x); [now constructor | exact IH].
  - destruct (f x), (f y); try reflexivity. apply perm_swap.
  - now rewrite IH1.
Qed.

Lemma sorted_amounts (l : list Player) :
  StronglySorted (fun a b => amount b <= amount a) l ->
  StronglySorted (fun x y => y <= x) (map amount l).
Proof.
  induction 1 as [|p l _ IH Hp]; simpl; constructor; [exact IH|].
  apply Forall_map. exact Hp.
Qed.

(** Two descending lists of integers with the same elements are the
    same list. *)
Lemma descending_unique (l1 : list Z) :
  forall l2,
    StronglySorted (fun x y => y <= x) l1 ->
    StronglySorted (fun x y => y <= x) l2 ->
    Permutation l1 l2 ->
    l1 = l2.
Proof.
  induction l1 as [|a l1 IH]; intros l2 H1 H2 Hperm.
  - apply Permutation_nil in Hperm. now subst.
  - destruct l2 as [|b l2].
    + apply Permutation_sym, Permutation_nil in Hperm. discriminate.
    + apply StronglySorted_inv in H1 as [H1 Ha].
      apply StronglySorted_inv in H2 as [H2 Hb].
      assert (Hab : a = b).
      { assert (Hin1 : In a (b :: l2))
          by (eapply Permutation_in; [exact Hperm | now left]).
        assert (Hin2 : In b (a :: l1))
          by (eapply Permutation_in;
              [apply Permutation_sym; exact Hperm | now left]).
        rewrite Forall_forall in Ha, Hb.
        destruct Hin1 as [->|Hin1]; [reflexivity|].
        destruct Hin2 as [->|Hin2]; [reflexivity|].
        specialize (Ha b Hin2). specialize (Hb a Hin1). lia. }
      subst b. f_equal. apply (IH l2 H1 H2).
      eapply Permutation_cons_inv. exact Hperm.
Qed.

Lemma slots_of_amounts (k : nat) (l : list Player) :
  map (option_map amount) (slots_of k l)
  = map Some (firstn k (map amount l)) ++ repeat None (k - length l).
Proof.
  unfold slots_of. rewrite map_app, map_map, map_repeat.
  rewrite firstn_map, map_map. reflexivity.
Qed.

(** X9. The salaries shown by the ranked set, slot by slot, and the
    corrupted count depend only on which records came, not on their
    order: two sequences that are rearrangements of each other give the
    same column of amounts and the same count. *)
Theorem ranking_ignores_row_order (players1 players2 : list Player) :
  Permutation players1 players2 ->
  exists highest1 highest2 n,
    crawl_players_loop players1 (empty_125, 0) = Ok (highest1, n)
    /\ crawl_players_loop players2 (empty_125, 0) = Ok (highest2, n)
    /\ map (option_map amount) highest1 = map (option_map amount) highest2.
Proof.
  intros Hperm.
  exists (slots_of 125 (ranking_from [] (valid_records players1))),
         (slots_of 125 (ranking_from [] (valid_records players2))),
         (corrupted_count players1).
  split; [apply crawl_players_loop_ranking|]. split.
  - rewrite crawl_players_loop_ranking. do 2 f_equal.
    unfold corrupted_count. f_equal.
    apply Permutation_length, Permutation_filter, Permutation_sym, Hperm.
  - destruct (ranking_from_spec (valid_records players1) [] (SSorted_nil _))
      as (Hp1 & Hs1 & _).
    destruct (ranking_from_spec (valid_records players2) [] (SSorted_nil _))
      as (Hp2 & Hs2 & _).
    simpl in Hp1, Hp2.
    assert (Hboth : Permutation (ranking_from [] (valid_records players1))
                                (ranking_from [] (valid_records players2))).
    { rewrite Hp1, Hp2. unfold valid_records.
      now apply Permutation_filter. }
    rewrite !slots_of_amounts.
    rewrite (Permutation_length Hboth).
    rewrite (descending_unique
               (map amount (ranking_from [] (valid_records players1)))
               (map amount (ranking_from [] (valid_records players2)))
               (sorted_amounts _ Hs1) (sorted_amounts _ Hs2)
               (Permutation_map amount Hboth)).
    reflexivity.
Qed.

Lemma ranking_ignores_row_order_witness :
  exists highest1 highest2 n,
    crawl_players_loop [record_a; player_with (SalaryInt 7)] (empty_125, 0)
    = Ok (highest1, n)
    /\ crawl_players_loop [player_with (SalaryInt 7); record_a] (empty_125, 0)
       = Ok (highest2, n)
    /\ map (option_map amount) highest1 = map (option_map amount) highest2.
Proof.
  apply (ranking_ignores_row_order
           [record_a; player_with (SalaryInt 7)]
           [player_with (SalaryInt 7); record_a]).
  apply perm_swap.
Defined.

(** ** [top_highest_salaries] *)

Lemma firstn_slots_of (k' : nat) :
  forall k l, (k' <= k)%nat -> firstn k' (slots_of k l) = slots_of k' l.
Proof.
  induction k' as [|k' IH]; intros k l Hk; [reflexivity|].
  destruct k as [|k]; [lia|]. destruct l as [|o l].
  - rewrite !slots_of_nil. cbn [repeat firstn]. f_equal.
    rewrite <- !slots_of_nil. apply IH. lia.
  - rewrite !slots_of_cons. cbn [firstn]. f_equal. apply IH. lia.
Qed.

(** X10. After a run of [crawl_players] that returned,
    [top_highest_salaries] is three slots showing the first three
    entries of the stable descending sort of the run's valid records,
    with empty slots when fewer than three records are valid. *)
Theorem top_three_of_a_run
        (BeautifulSoup : Type) (html_parser : text -> BeautifulSoup)
        (select_tbody_tr : BeautifulSoup -> list Row)
        (self app : App) (get : result Response) :
  crawl_players html_parser select_tbody_tr self get = Ok app ->
  exists sorted : list Player,
    Permutation sorted (valid_records (players app))
    /\ StronglySorted (fun a b => amount b <= amount a) sorted
    /\ (forall a,
          filter (fun p => amount p =? a) sorted
          = filter (fun p => amount p =? a) (valid_records (players app)))
    /\ top_highest_salaries app
       = map Some (firstn 3 sorted) ++ repeat None (3 - length sorted).
Proof.
  intros Hrun.
  apply crawl_players_ok in Hrun
    as (page & ps & highest & n & q & _ & _ & _ & Hloop & _ & ->).
  rewrite crawl_players_loop_ranking in Hloop. injection Hloop as <- <-.
  exists (ranking_from [] (valid_records ps)).
  destruct (ranking_from_spec (valid_records ps) [] (SSorted_nil _))
    as (Hperm & Hsorted & Hstable).
  repeat split; auto.
  unfold top_highest_salaries. cbn [highest_salaries_125].
  apply (firstn_slots_of 3 125). unfold N_FIRST_N_HIGHEST_EARNERS. lia.
Qed.

Lemma top_three_of_a_run_witness :
  exists sorted : list Player,
    Permutation sorted (valid_records (players sample_app))
    /\ StronglySorted (fun a b => amount b <= amount a) sorted
    /\ (forall a,
          filter (fun p => amount p =? a) sorted
          = filter (fun p => amount p =? a)
                   (valid_records (players sample_app)))
    /\ top_highest_salaries sample_app
       = map Some (firstn 3 sorted) ++ repeat None (3 - length sorted).
Proof.
  apply (top_three_of_a_run text (fun body => body) (fun _ => sample_rows)
           (mkApp [] (FloatZero false) 0 empty_125) sample_app (Ok (mkResponse 200 []))).
  reflexivity.
Defined.

(** ** Errors and accuracy of [average] *)

Lemma average_total_cases {A : Type} (get_value : A -> Salary)
      (array : list (option A)) :
  forall total,
    (exists t, average_total array get_value total = Ok t)
    \/ (average_total array get_value total = Raise TypeError
        /\ exists x s, In (Some x) array /\ get_value x = SalaryStr s).
Proof.
  induction array as [|[x|] rest IH]; intros total; simpl.
  - left. eauto.
  - destruct (get_value x) as [n|s] eqn:Hx; simpl.
    + destruct (IH (total + n)) as [H|(H & y & s & Hy & Hs)]; [now left|].
      right. split; [exact H|]. exists y, s. auto.
    + right. split; [reflexivity|]. exists x, s. auto.
  - destruct (IH total) as [H|(H & y & s & Hy & Hs)]; [now left|].
    right. split; [exact H|]. exists y, s. auto.
Qed.

Lemma average_total_ok {A : Type} (get_value : A -> Salary)
      (array : list (option A)) :
  forall total t,
    average_total array get_value total = Ok t ->
    forall x, In (Some x) array -> exists n, get_value x = SalaryInt n.
Proof.
  induction array as [|[y|] rest IH]; intros total t Hok x Hin; simpl in *.
  - contradiction.
  - destruct (get_value y) as [n|s] eqn:Hy; simpl in Hok; [|discriminate].
    destruct Hin as [[= <-]|Hin]; [eauto|]. eapply IH; eassumption.
  - destruct Hin as [Hin|Hin]; [discriminate|]. eapply IH; eassumption.
Qed.

(** X11. [average] raises in three cases only: [TypeError] exactly when
    some occupied slot yields a [str] through [get_value];
    [ZeroDivisionError] exactly when the array has no slot at all; and
    [OverflowError] exactly when every occupied slot yields an [int],
    the array has a slot, and the total is too large for its quotient by
    the number of slots to be a float. Empty slots are skipped and never
    raise. *)
Theorem average_raises (A : Type) (get_value : A -> Salary)
        (array : list (option A)) :
  (average array get_value = Raise TypeError <->
   exists x s, In (Some x) array /\ get_value x = SalaryStr s)
  /\ (average array get_value = Raise ZeroDivisionError <-> array = [])
  /\ (average array get_value = Raise OverflowError <->
      array <> []
      /\ exists total,
           average_total array get_value 0 = Ok total
           /\ Py.overflow_threshold * Z.of_nat (length array)
              <= Z.abs total)
  /\ (forall e, average array get_value = Raise e ->
                e = TypeError \/ e = ZeroDivisionError
                \/ e = OverflowError).
Proof.
  unfold average.
  destruct (average_total_cases get_value array 0)
    as [[t Ht]|(Hraise & x & s & Hx & Hs)].
  - rewrite Ht. cbn [bind].
    pose proof (average_total_ok get_value array 0 t Ht) as Hints.
    assert (Hstr : ~ exists y s, In (Some y) array
                                 /\ get_value y = SalaryStr s).
    { intros (y & s & Hy & Hs). destruct (Hints y Hy) as [n Hn].
      congruence. }
    assert (Hnil : Z.of_nat (length array) = 0 <-> array = []).
    { split; [|now intros ->].
      destruct array; [reflexivity | cbn [length]; lia]. }
    assert (Habs : Z.abs (Z.of_nat (length array)) = Z.of_nat (length array))
      by lia.
    destruct (true_divide_cases t (Z.of_nat (length array)))
      as [[Hz ->]|[(Hnz & Hover & ->)|(Hnz & Hfits & f & ->)]];
      rewrite ?Habs in *.
    + apply Hnil in Hz. split; [|split; [|split]].
      * split; [discriminate | intros H; now destruct Hstr].
      * split; [now intros _ | reflexivity].
      * split; [discriminate | intros [Hne _]; contradiction].
      * intros e [= <-]. auto.
    + split; [|split; [|split]].
      * split; [discriminate | intros H; now destruct Hstr].
      * split; [discriminate | intros H; apply Hnil in H; contradiction].
      * split; [|reflexivity]. intros _. split.
        -- intros H. apply Hnil in H. contradiction.
        -- exists t. split; [reflexivity | exact Hover].
      * intros e [= <-]. auto.
    + split; [|split; [|split]].
      * split; [discriminate | intros H; now destruct Hstr].
      * split; [discriminate | intros H; apply Hnil in H; contradiction].
      * split; [discriminate|].
        intros (_ & t' & [= <-] & Hover). lia.
      * discriminate.
  - rewrite Hraise. cbn [bind]. split; [|split; [|split]].
    + split; [intros _; eauto | reflexivity].
    + split; [discriminate | intros ->; destruct Hx].
    + split; [discriminate | intros (_ & t & Ht & _); discriminate].
    + intros e [= <-]. now left.
Qed.

Lemma sum_amounts_nonneg (array : list (option Player)) :
  Forall (fun slot => forall o, slot = Some o -> 0 <= amount o) array ->
  0 <= sum_amounts array.
Proof.
  unfold sum_amounts.
  induction 1 as [|[o|] rest Ho _ IH]; cbn [fold_right]; try lia.
  specialize (Ho o eq_refl). lia.
Qed.

Lemma Qdiv_le_smaller_divisor (s c d : Z) :
  0 <= s -> 0 < c <= d ->
  (inject_Z s / inject_Z d <= inject_Z s / inject_Z c)%Q.
Proof.
  intros Hs [Hc Hd].
  destruct c as [|c|c]; try lia. destruct d as [|d|d]; try lia.
  unfold Qle, Qdiv, Qmult, Qinv, inject_Z. simpl. nia.
Qed.

(** X12. On an array of valid records with amounts that are not
    negative and at least one occupant, [average] returns unless the sum
    is beyond the range of a float. What it returns is a double that is
    not negative, at most half a unit in the last place away from the
    sum divided by the number of slots; since that quotient is at most
    the mean of the occupants, the result exceeds the mean of the
    occupants by no more than the rounding. *)
Theorem average_against_mean (array : list (option Player)) :
  Forall slot_valid array ->
  Forall (fun slot => forall o, slot = Some o -> 0 <= amount o) array ->
  (0 < occupants_count array)%nat ->
  (sum_amounts array < Py.overflow_threshold * Z.of_nat (length array) ->
   exists f, average array salary = Ok f)
  /\ (forall f : float,
        average array salary = Ok f ->
        is_double f
        /\ (0 <= float_value f)%Q
        /\ (Qabs (float_value f
                  - inject_Z (sum_amounts array)
                    / inject_Z (Z.of_nat (length array)))
            <= half_ulp f)%Q
        /\ (inject_Z (sum_amounts array)
            / inject_Z (Z.of_nat (length array))
            <= inject_Z (sum_amounts array)
               / inject_Z (Z.of_nat (occupants_count array)))%Q
        /\ (float_value f
            <= inject_Z (sum_amounts array)
               / inject_Z (Z.of_nat (occupants_count array))
               + half_ulp f)%Q).
Proof.
  intros Hvalid Hnonneg Hocc.
  assert (Hle : (occupants_count array <= length array)%nat)
    by apply filter_length_le.
  pose proof (sum_amounts_nonneg array Hnonneg) as Hsum.
  assert (Hmean : (inject_Z (sum_amounts array)
                   / inject_Z (Z.of_nat (length array))
                   <= inject_Z (sum_amounts array)
                      / inject_Z (Z.of_nat (occupants_count array)))%Q)
    by (apply Qdiv_le_smaller_divisor; lia).
  split.
  - intros Hfits. rewrite (average_valid array Hvalid).
    destruct (true_divide_cases (sum_amounts array)
                (Z.of_nat (length array)))
      as [[Hz _]|[(_ & Hover & _)|(_ & _ & H)]]; [lia|lia|exact H].
  - intros f Hf.
    destruct (average_nearest array f Hvalid Hf) as (Hd & Hnear & Hpos).
    split; [exact Hd|]. split; [now apply Hpos|].
    split; [exact Hnear|]. split; [exact Hmean|].
    apply Qabs_diff_Qle_condition in Hnear as [Hlow _].
    revert Hlow Hmean.
    generalize (inject_Z (sum_amounts array)
                / inject_Z (Z.of_nat (length array)))%Q.
    generalize (inject_Z (sum_amounts array)
                / inject_Z (Z.of_nat (occupants_count array)))%Q.
    generalize (half_ulp f). generalize (float_value f).
    intros x h mean q Hlow Hmean. lra.
Qed.

Lemma average_against_mean_witness :
  exists f : float,
    average three_occupants salary = Ok f
    /\ is_double f
    /\ (float_value f
        <= inject_Z (sum_amounts three_occupants)
           / inject_Z (Z.of_nat (occupants_count three_occupants))
           + half_ulp f)%Q.
Proof.
  assert (Hvalid : Forall slot_valid three_occupants)
    by repeat constructor.
  assert (Hnonneg : Forall (fun slot => forall o, slot = Some o ->
                                                  0 <= amount o)
                           three_occupants).
  { apply Forall_forall. intros slot Hslot o ->.
    repeat (destruct Hslot as [[= <-]|Hslot]; [vm_compute; discriminate|]).
    apply repeat_spec in Hslot. discriminate. }
  assert (Hocc : (0 < occupants_count three_occupants)%nat)
    by (vm_compute; repeat constructor).
  destruct (average_against_mean three_occupants Hvalid Hnonneg Hocc)
    as [_ Hall].
  exists (FloatFinite false 5404319552844595 (-50)).
  destruct (Hall (FloatFinite false 5404319552844595 (-50)) eq_refl)
    as (Hd & _ & _ & _ & Hup).
  split; [reflexivity|]. split; [exact Hd | exact Hup].
Defined.

(** ** The outcomes of a run *)





Section RunOutcomes.

Context {BeautifulSoup : Type}.
Variable html_parser : text -> BeautifulSoup.
Variable select_tbody_tr : BeautifulSoup -> list Row.



End RunOutcomes.

(** ** [display_salary] and [Player.__str__] on what the program holds *)

(** X14. At a negative [int] [display_salary] never returns: floor
    division by 1000 keeps [n] negative, so the test of the [while]
    loop never fails, whatever the buffer holds; and [Player.__str__]
    of a record with such a salary never returns either. *)
Theorem display_salary_hangs_on_negative (n : Z) :
  n < 0 ->
  diverges (fun fuel => display_salary fuel n)
  /\ (forall fuel buffer, display_salary_loop fuel n buffer = None)
  /\ (forall name year level : text,
        diverges (fun fuel =>
                    Player_str fuel (mkPlayer name (SalaryInt n) year level))).
Proof.
  intros Hn.
  assert (Hloop : forall fuel m buffer,
            m < 0 -> display_salary_loop fuel m buffer = None).
  { induction fuel as [|fuel IH]; intros m buffer Hm; [reflexivity|].
    simpl. destruct (m =? 0) eqn:E; [apply Z.eqb_eq in E; lia|].
    apply IH. apply Z.div_lt_upper_bound; lia. }
  split; [|split].
  - intros fuel. unfold display_salary. now rewrite Hloop.
  - intros fuel buffer. now apply Hloop.
  - intros name year level fuel. unfold Player_str, display_salary.
    cbn [salary]. now rewrite Hloop.
Qed.

Lemma display_salary_hangs_on_negative_witness :
  diverges (fun fuel => display_salary fuel (-1))
  /\ (forall fuel buffer, display_salary_loop fuel (-1) buffer = None)
  /\ (forall name year level : text,
        diverges (fun fuel =>
                    Player_str fuel
                      (mkPlayer name (SalaryInt (-1)) year level))).
Proof. apply (display_salary_hangs_on_negative (-1)). reflexivity. Defined.

Lemma display_salary_ok_positive (n : Z) (s : text) :
  returns (fun fuel => display_salary fuel n) (Ok s) -> 0 < n.
Proof.
  intros Hret. destruct (Z.lt_trichotomy n 0) as [Hneg|[->|Hpos]].
  - destruct Hret as [fuel0 Hret].
    specialize (Hret fuel0 (Nat.le_refl _)).
    rewrite (display_salary_negative_diverges n Hneg fuel0) in Hret.
    discriminate.
  - assert (Hzero : returns (fun fuel => display_salary fuel 0)
                            (Raise IndexError)).
    { exists 1%nat. intros [|fuel] Hle; [lia | reflexivity]. }
    pose proof (returns_unique _ _ _ Hret Hzero). discriminate.
  - exact Hpos.
Qed.

(** X15. [display_salary] never shows two amounts the same way: if it
    returns the same text at two [int]s, they are equal. A returned
    text also fixes the sign: the amount was positive. *)
Theorem display_salary_injective (n m : Z) (s : text) :
  returns (fun fuel => display_salary fuel n) (Ok s) ->
  returns (fun fuel => display_salary fuel m) (Ok s) ->
  n = m /\ 0 < n.
Proof.
  intros Hn Hm.
  pose proof (display_salary_ok_positive n s Hn) as Hnpos.
  pose proof (display_salary_ok_positive m s Hm) as Hmpos.
  destruct (display_salary_numeral n Hnpos)
    as (sn & cn & rn & Hsn & _ & Hfn & _ & Hvn).
  destruct (display_salary_numeral m Hmpos)
    as (sm & cm & rm & Hsm & _ & Hfm & _ & Hvm).
  assert (Ok sn = Ok s) as [= ->] by exact (returns_unique _ _ _ Hsn Hn).
  assert (Ok sm = Ok s) as [= ->] by exact (returns_unique _ _ _ Hsm Hm).
  split; [|exact Hnpos].
  rewrite <- Hvn, <- Hvm, <- Hfn, <- Hfm. reflexivity.
Qed.

Lemma display_salary_injective_witness :
  1234567 = 1234567 /\ 0 < 1234567.
Proof.
  apply (display_salary_injective 1234567 1234567 (txt "$1,234,567"));
    apply (display_salary_returns 5); reflexivity.
Defined.

(** X16. Printing a record that [extract_player] built never hangs. Its
    salary is an [int] that is not negative or the marker
    ['No data found']. With the marker the four lines show it; with a
    positive amount they show the text of [display_salary]; with the
    amount 0 [Player.__str__] raises [IndexError]. *)
Theorem printing_an_extracted_record (tr : Row) (p : Player) :
  extract_player tr = Ok p ->
  match salary p with
  | SalaryInt n =>
      0 <= n
      /\ (n = 0 ->
          returns (fun fuel => Player_str fuel p) (Raise IndexError))
      /\ (0 < n ->
          exists shown,
            returns (fun fuel => display_salary fuel n) (Ok shown)
            /\ returns (fun fuel => Player_str fuel p)
                       (Ok (player_lines p shown)))
  | SalaryStr s =>
      s = txt "No data found"
      /\ forall fuel, Player_str fuel p = Some (Ok (player_lines p s))
  end.
Proof.
  intros Hp. apply extract_player_salary in Hp as (s & _ & Hs).
  destruct (extract_salary_cases s)
    as [[_ Hconv]|[(_ & _ & n & Hn & Hconv)|[_ Hconv]]];
    rewrite Hconv in Hs; [| |discriminate]; injection Hs as Hs.
  - rewrite <- Hs. split; [reflexivity|].
    intros fuel. unfold Player_str. rewrite <- Hs. reflexivity.
  - rewrite <- Hs. split; [exact Hn|]. split.
    + intros ->. exists 1%nat. intros [|fuel] Hle; [lia|].
      unfold Player_str. rewrite <- Hs. reflexivity.
    + intros Hpos.
      destruct (display_salary_groups n Hpos) as (g0 & gs & Hret & _).
      eexists. split; [exact Hret|].
      destruct Hret as [fuel0 Hret]. exists fuel0. intros fuel Hle.
      unfold Player_str. rewrite <- Hs, (Hret fuel Hle). reflexivity.
Qed.

Lemma printing_an_extracted_record_witness :
  0 <= 1000
  /\ (1000 = 0 ->
      returns (fun fuel =>
                 Player_str fuel
                   (mkPlayer (txt "Ann") (SalaryInt 1000) (txt "2016")
                             (txt "MLB")))
              (Raise IndexError))
  /\ (0 < 1000 ->
      exists shown,
        returns (fun fuel => display_salary fuel 1000) (Ok shown)
        /\ returns (fun fuel =>
                      Player_str fuel
                        (mkPlayer (txt "Ann") (SalaryInt 1000) (txt "2016")
                                  (txt "MLB")))
                   (Ok (player_lines
                          (mkPlayer (txt "Ann") (SalaryInt 1000) (txt "2016")
                                    (txt "MLB"))
                          shown))).
Proof.
  apply (printing_an_extracted_record
           (mkRow (Some (txt "Ann")) (Some (txt "$1,000")) (Some (txt "2016"))
                  (Some (txt "MLB")))
           (mkPlayer (txt "Ann") (SalaryInt 1000) (txt "2016") (txt "MLB"))).
  reflexivity.
Defined.
